(** * MarketingAdvantage_AI_v1: ingestion pipeline, shallow embedding

    The development follows the Python sources file by file:

    - [Text]: the Python string primitives the sources rely on
      ([len], [str.strip], [str.split], slicing, [re.split]);
    - [Exceptions]: exceptions and the results of calls that may raise;
    - [Schema]: the rows of the relational store of the v2 service;
    - [TextCleaner]: the Text Normalizer;
    - [Segmenter]: [app/services/ingestion/segmenter_v2.py];
    - [Ingestion]: [app/services/ingestion/ingestion_service_v2.py];
    - [Classifier]: [api/services/llm_classifier.py];
    - [UnifiedIngest]: [api/services/unified_ingest_helper.py].

    Text is a list of characters (code points below 256), integers are
    [Z], relational tables are lists of rows or finite maps keyed by their
    unique column, and every external collaborator (file system, parser,
    LLM endpoint, SHA-256, the text cleaner) is a parameter.  Stateful
    code threads its store explicitly and returns either a value or an
    exception. *)

From Stdlib Require Import List ZArith Lia Ascii String Bool Arith QArith.
From stdpp Require Import gmap strings.
Import ListNotations.

(** Python [str] values. *)
Abbreviation text := (list ascii).

(** A string literal as a [text]. *)
Notation "'txt' s" := (list_ascii_of_string s%string) (at level 10, only parsing).

(* ===================================================================== *)
(** * Python string primitives                                            *)
(* ===================================================================== *)

Module Text.

(** [len(s)] as a Python integer. *)
Definition len (s : text) : Z := Z.of_nat (length s).

(** [str.isspace] on one character, for code points below 256: the ASCII
    controls TAB..CR and FS..US, the space, NEL and the no-break space. *)
Definition py_isspace (c : ascii) : bool :=
  let n := nat_of_ascii c in
  ((9 <=? n) && (n <=? 13)) || ((28 <=? n) && (n <=? 32))
  || (n =? 133) || (n =? 160).

Fixpoint lstrip (s : text) : text :=
  match s with
  | c :: s' => if py_isspace c then lstrip s' else s
  | [] => []
  end.

Definition rstrip (s : text) : text := rev (lstrip (rev s)).

(** [s.strip()] *)
Definition strip (s : text) : text := lstrip (rstrip s).

(** [not s.strip()]: the string is empty or whitespace only. *)
Definition blank (s : text) : bool :=
  match strip s with [] => true | _ => false end.

(** [s.split()]: the maximal runs of non-whitespace characters.
    [cur] is the run being read, most recent character first. *)
Fixpoint split_ws_from (cur : text) (s : text) : list text :=
  match s with
  | [] => match cur with [] => [] | _ => [rev cur] end
  | c :: s' =>
      if py_isspace c
      then match cur with
           | [] => split_ws_from [] s'
           | _ => rev cur :: split_ws_from [] s'
           end
      else split_ws_from (c :: cur) s'
  end.

Definition split_ws (s : text) : list text := split_ws_from [] s.

(** [s[:n]] and [s[n:]] for a non-negative [n]. *)
Definition slice_to (n : nat) (s : text) : text := firstn n s.
Definition slice_from (n : nat) (s : text) : text := skipn n s.

Definition is_sentence_end (c : ascii) : bool :=
  (Ascii.eqb c "."%char) || (Ascii.eqb c "!"%char) || (Ascii.eqb c "?"%char).

(** [re.split(r"(?<=[.!?]) +", s)].  A separator is a maximal run of
    spaces that directly follows one of [.!?].  [sep] says that the scan
    is inside a separator, [punct] that the previous character is one of
    [.!?]; [acc] is the piece being read, most recent character first. *)
Fixpoint re_split_from (sep punct : bool) (acc : text) (s : text) : list text :=
  match s with
  | [] => [rev acc]
  | c :: s' =>
      if Ascii.eqb c " "%char
      then if sep then re_split_from true false [] s'
           else if punct then rev acc :: re_split_from true false [] s'
           else re_split_from false false (c :: acc) s'
      else re_split_from false (is_sentence_end c) (c :: acc) s'
  end.

Definition re_split_sentences (s : text) : list text :=
  re_split_from false false [] s.

(** ** Facts about the primitives *)

Lemma lstrip_length (s : text) : length (lstrip s) <= length s.
Proof.
  induction s as [|c s IH]; simpl; [lia|].
  destruct (py_isspace c); simpl; lia.
Qed.

Lemma strip_length (s : text) : length (strip s) <= length s.
Proof.
  unfold strip, rstrip.
  etransitivity; [apply lstrip_length|].
  rewrite length_rev. etransitivity; [apply lstrip_length|].
  by rewrite length_rev.
Qed.

Lemma blank_nil : blank [] = true.
Proof. reflexivity. Qed.

Lemma blank_false_length (s : text) : blank s = false -> 1 <= length s.
Proof.
  destruct s as [|c s]; [discriminate|]. simpl. lia.
Qed.

(** The pieces of [re.split] together with their separators make up the
    scanned text: with [k] pieces there are [k - 1] separators of at least
    one space each. *)
Lemma re_split_from_total (s : text) : forall sep punct acc,
  list_sum (map (@length ascii) (re_split_from sep punct acc s))
    + length (re_split_from sep punct acc s)
  <= length acc + length s + 1.
Proof.
  induction s as [|c s IH]; intros sep punct acc; simpl.
  - rewrite length_rev. lia.
  - destruct (Ascii.eqb c " ").
    + destruct sep.
      * specialize (IH true false []). simpl in *. destruct acc; simpl; lia.
      * destruct punct.
        -- specialize (IH true false []). simpl in *.
           rewrite length_rev. lia.
        -- specialize (IH false false (c :: acc)). simpl in *. lia.
    + specialize (IH false (is_sentence_end c) (c :: acc)). simpl in *. lia.
Qed.

Lemma re_split_from_nonempty (s : text) : forall sep punct acc,
  re_split_from sep punct acc s <> [].
Proof.
  induction s as [|c s IH]; intros sep punct acc; simpl; [done|].
  destruct (Ascii.eqb c " "); [destruct sep; [|destruct punct]|]; try done; apply IH.
Qed.

Lemma list_sum_elem (l : list nat) (x : nat) : In x l -> x <= list_sum l.
Proof.
  induction l as [|y l IH]; simpl; [done|].
  intros [->|H]; [lia|]. specialize (IH H). lia.
Qed.

(** With two pieces or more, every piece is strictly shorter than the text. *)
Lemma re_split_piece_shorter (s p : text) :
  In p (re_split_sentences s) ->
  2 <= length (re_split_sentences s) ->
  length p < length s.
Proof.
  unfold re_split_sentences. intros Hin Hk.
  pose proof (re_split_from_total s false false []) as Ht. simpl in Ht.
  assert (length p <= list_sum (map (@length ascii) (re_split_from false false [] s))).
  { apply list_sum_elem. by apply in_map. }
  lia.
Qed.

(** ** Whitespace *)

(** The characters of a text that are not whitespace, in order. *)
Definition nonspace (s : text) : text :=
  List.filter (fun c => negb (py_isspace c)) s.

Lemma lstrip_nil_iff (s : text) : lstrip s = [] <-> forallb py_isspace s = true.
Proof.
  induction s as [|c s IH]; simpl; [done|].
  destruct (py_isspace c); simpl; [done|]. split; discriminate.
Qed.

Lemma forallb_rev (f : ascii -> bool) (s : text) : forallb f (rev s) = forallb f s.
Proof.
  induction s as [|c s IH]; simpl; [done|].
  rewrite forallb_app, IH. simpl. rewrite andb_true_r. apply andb_comm.
Qed.

Lemma lstrip_head (s r : text) (c : ascii) : lstrip s = c :: r -> py_isspace c = false.
Proof.
  induction s as [|x s IH]; simpl; [done|].
  destruct (py_isspace x) eqn:E; [done|]. by intros [= <- _].
Qed.

Lemma nonspace_nil_iff (s : text) : nonspace s = [] <-> forallb py_isspace s = true.
Proof.
  unfold nonspace. induction s as [|c s IH]; simpl; [done|].
  destruct (py_isspace c); simpl; [done|]. split; discriminate.
Qed.

Lemma nonspace_app (a b : text) : nonspace (a ++ b) = nonspace a ++ nonspace b.
Proof. unfold nonspace. apply List.filter_app. Qed.

Lemma nonspace_rev (s : text) : nonspace (rev s) = rev (nonspace s).
Proof.
  induction s as [|c s IH]; simpl; [done|].
  rewrite nonspace_app, IH. unfold nonspace at 2 3. simpl.
  destruct (py_isspace c); simpl; [by rewrite app_nil_r|done].
Qed.

Lemma nonspace_lstrip (s : text) : nonspace (lstrip s) = nonspace s.
Proof.
  induction s as [|c s IH]; [done|].
  cbn [lstrip]. unfold nonspace at 2. cbn [List.filter].
  destruct (py_isspace c) eqn:E; cbn [negb]; [apply IH|].
  unfold nonspace. cbn [List.filter]. by rewrite E.
Qed.

(** [strip] removes whitespace only. *)
Lemma nonspace_strip (s : text) : nonspace (strip s) = nonspace s.
Proof.
  unfold strip, rstrip.
  by rewrite nonspace_lstrip, nonspace_rev, nonspace_lstrip, nonspace_rev, rev_involutive.
Qed.

Lemma strip_nil_iff (s : text) : strip s = [] <-> nonspace s = [].
Proof.
  rewrite <- (nonspace_strip s). split; [by intros ->|].
  unfold strip. intros H. destruct (lstrip (rstrip s)) as [|c r] eqn:E; [done|].
  apply lstrip_head in E. unfold nonspace in H. simpl in H. by rewrite E in H.
Qed.

Lemma blank_iff (s : text) : blank s = true <-> nonspace s = [].
Proof.
  rewrite <- strip_nil_iff. unfold blank. by destruct (strip s).
Qed.

Lemma blank_strip (s : text) : blank (strip s) = blank s.
Proof.
  destruct (blank s) eqn:E.
  - apply blank_iff. rewrite nonspace_strip. by apply blank_iff.
  - apply not_true_is_false. intros H. apply blank_iff in H.
    rewrite nonspace_strip in H. apply blank_iff in H. congruence.
Qed.

Lemma split_ws_from_nil_iff (s : text) : forall cur,
  split_ws_from cur s = [] <-> cur = [] /\ nonspace s = [].
Proof.
  induction s as [|c s IH]; intros cur; simpl.
  - destruct cur; split; try done. by intros [? _].
  - unfold nonspace. simpl. fold (nonspace s).
    destruct (py_isspace c); simpl.
    + destruct cur; [apply IH|]. split; [done|]. by intros [? _].
    + rewrite IH. split; [by intros [? _]|by intros [_ ?]].
Qed.

(** [s.split()] is empty exactly when [s] is empty or whitespace only. *)
Lemma split_ws_nil_iff (s : text) : split_ws s = [] <-> blank s = true.
Proof.
  unfold split_ws. rewrite split_ws_from_nil_iff, blank_iff. tauto.
Qed.

(** The separators of [re.split] are runs of spaces: the pieces keep
    every other character. *)
Lemma nonspace_re_split_from (s : text) : forall sep punct acc,
  (sep = true -> acc = []) ->
  nonspace (concat (re_split_from sep punct acc s)) = nonspace (rev acc ++ s).
Proof.
  induction s as [|c s IH]; intros sep punct acc Hsep; simpl.
  - by rewrite app_nil_r.
  - destruct (Ascii.eqb c " ") eqn:E.
    + apply Ascii.eqb_eq in E. subst c.
      destruct sep; [|destruct punct].
      * rewrite (Hsep eq_refl), IH by done. reflexivity.
      * cbn [concat]. rewrite nonspace_app, IH by done.
        cbn [rev app]. by rewrite !nonspace_app.
      * rewrite IH by done. cbn [rev]. by rewrite <- app_assoc.
    + rewrite IH by done. cbn [rev]. by rewrite <- app_assoc.
Qed.

Lemma nonspace_re_split (s : text) :
  nonspace (concat (re_split_sentences s)) = nonspace s.
Proof. unfold re_split_sentences. by rewrite nonspace_re_split_from. Qed.

End Text.

(* ===================================================================== *)
(** * Python exceptions                                                   *)
(* ===================================================================== *)

Module Exceptions.

(** An exception, with its message ([str(e)]). *)
Inductive exn := Exception (msg : text).

Definition str_of_exn (e : exn) : text := match e with Exception m => m end.

(** The result of a call that may raise. *)
Inductive outcome (A : Type) := Raise (e : exn) | Return (a : A).
Arguments Raise {A} e.
Arguments Return {A} a.

End Exceptions.

(* ===================================================================== *)
(** * Relational schema                                                   *)
(* ===================================================================== *)

Module Schema.

(** Identifiers are opaque 128-bit values (UUIDs). *)
Definition ident := N.
Bind Scope N_scope with ident.

(** The [status] column of [ingested_file_v2]. *)
Inductive file_status := uploaded | processing | processed | duplicate | failed.

Definition file_status_eqb (a b : file_status) : bool :=
  match a, b with
  | uploaded, uploaded | processing, processing | processed, processed
  | duplicate, duplicate | failed, failed => true
  | _, _ => false
  end.

(** A row of [ingested_file_v2].  Of [meta_data] only the key [file_hash]
    is read or written by the modelled code; columns that none of the
    modelled operations reads (names, URLs, timestamps, ratio counters)
    are left out. *)
Record IngestedFileV2 := {
  file_id : ident;
  file_business_id : option ident;
  file_type : text;
  file_path : option text;
  file_hash : option text;
  parser_used : option text;
  status : file_status;
  total_chunks : Z;
  error_message : option text;
}.

(** A row of [ingested_content_v2] (a Chunk Record). *)
Record IngestedContentV2 := {
  content_id : ident;
  content_file_id : ident;
  content_business_id : option ident;
  chunk_index : Z;
  content_text : option text;
  content_cleaned_text : option text;
  content_tokens : option Z;
  content_source_type : option text;
  content_semantic_hash : option text;
  content_global_content_id : option ident;
  is_duplicate : bool;
}.

(** A row of [global_content_index_v2]. *)
Record GlobalContentIndexV2 := {
  gci_id : ident;
  gci_semantic_hash : text;
  gci_cleaned_text : text;
  gci_raw_text : text;
  gci_tokens : Z;
  gci_business_id : option ident;
  gci_first_seen_file_id : option ident;
  gci_source_type : option text;
  occurrence_count : Z;
}.

(** The relational store seen through one session.  The Global Content
    Index has a unique index on [semantic_hash] and is kept as a finite
    map on that column; [uuid_counter] is the supply behind
    [uuid.uuid4()]. *)
Record database := {
  files : list IngestedFileV2;
  contents : list IngestedContentV2;
  gci : gmap text GlobalContentIndexV2;
  uuid_counter : N;
}.

Definition set_files (fs : list IngestedFileV2) (db : database) : database :=
  {| files := fs; contents := contents db; gci := gci db;
     uuid_counter := uuid_counter db |}.

Definition set_contents (cs : list IngestedContentV2) (db : database) : database :=
  {| files := files db; contents := cs; gci := gci db;
     uuid_counter := uuid_counter db |}.

Definition set_gci (g : gmap text GlobalContentIndexV2) (db : database) : database :=
  {| files := files db; contents := contents db; gci := g;
     uuid_counter := uuid_counter db |}.

(** [uuid.uuid4()] *)
Definition uuid4 (db : database) : ident * database :=
  (uuid_counter db,
   {| files := files db; contents := contents db; gci := gci db;
      uuid_counter := N.succ (uuid_counter db) |}).

End Schema.

(* ===================================================================== *)
(** * Text Normalizer                                                     *)
(* ===================================================================== *)

Module TextCleaner.

(** [str.isprintable] on one character, for code points below 256. *)
Definition py_isprintable (c : ascii) : bool :=
  let n := nat_of_ascii c in
  ((32 <=? n) && (n <=? 126))
  || ((161 <=? n) && (n <=? 255) && negb (n =? 173)).

Definition keeps (c : ascii) : bool :=
  py_isprintable c
  || (nat_of_ascii c =? 10) || (nat_of_ascii c =? 13) || (nat_of_ascii c =? 9).

(** Modelled from the spec: [app.utils.text_cleaner_v2.clean_text] is not
    among the sources.  Section 4.1 (Text Normalizer): the output is the
    input with null bytes removed and every character either printable
    or one of newline, carriage return and tab; whitespace is preserved.
    The segmenter takes the cleaner as a parameter; this instance is used
    to run it on concrete texts. *)
Definition clean_text (raw : text) : text := List.filter keeps raw.

Lemma clean_text_length (t : text) : length (clean_text t) <= length t.
Proof.
  unfold clean_text. induction t as [|c t IH]; simpl; [lia|].
  destruct (keeps c); simpl; lia.
Qed.

Lemma clean_text_idempotent (t : text) : clean_text (clean_text t) = clean_text t.
Proof.
  unfold clean_text. induction t as [|c t IH]; simpl; [done|].
  destruct (keeps c) eqn:E; simpl; [|done]. by rewrite E, IH.
Qed.

Lemma clean_text_keeps (t : text) : Forall (fun c => keeps c = true) (clean_text t).
Proof.
  unfold clean_text. apply List.Forall_forall. intros c Hin.
  by apply filter_In in Hin as [_ Hk].
Qed.

Lemma clean_text_fixed (t : text) :
  Forall (fun c => keeps c = true) t -> clean_text t = t.
Proof.
  unfold clean_text. induction 1 as [|c t Hc _ IH]; simpl; [done|].
  by rewrite Hc, IH.
Qed.

End TextCleaner.

(* ===================================================================== *)
(** * segmenter_v2.py                                                     *)
(* ===================================================================== *)

Module Segmenter.
Import Text Schema.

(** The dict built by [make_chunk_dict]; [reasoning_ingestion], a
    function of the other fields and the clock, is not modelled. *)
Record chunk := {
  c_text : text;
  c_cleaned_text : text;
  c_tokens : Z;
  c_semantic_hash : text;
  c_global_content_id : option ident;
  c_source_type : option text;
}.

(** [make_chunk_dict] returns either the empty dict [{}] or a chunk. *)
Inductive chunk_dict := EmptyDict | Chunk (c : chunk).

(** [c.get("semantic_hash")], [c.get("cleaned_text")], [c.get("text")] *)
Definition get_semantic_hash (d : chunk_dict) : option text :=
  match d with EmptyDict => None | Chunk c => Some (c_semantic_hash c) end.
Definition get_cleaned_text (d : chunk_dict) : option text :=
  match d with EmptyDict => None | Chunk c => Some (c_cleaned_text c) end.
Definition get_text (d : chunk_dict) : option text :=
  match d with EmptyDict => None | Chunk c => Some (c_text c) end.

(** Truthiness of an optional string: [None] and [""] are falsy. *)
Definition truthy (o : option text) : bool :=
  match o with Some (_ :: _) => true | _ => false end.

(** [a or b] on optional strings. *)
Definition py_or (a b : option text) : option text :=
  if truthy a then a else b.

(** The arguments that [recursive_semantic_chunk] hands down unchanged. *)
Record chunk_context := {
  ctx_file_id : option ident;
  ctx_business_id : option ident;
  ctx_source_type : option text;
}.

(** [db_session]: [None] or an open session on the store. *)
Definition session := option database.

(** Computations that thread the session; the outer [option] is [None]
    only when the recursion budget of [recursive_semantic_chunk_fuel]
    runs out. *)
Definition M (A : Type) : Type := session -> option (A * session).

Definition ret {A} (a : A) : M A := fun s => Some (a, s).

Definition bind {A B} (m : M A) (k : A -> M B) : M B :=
  fun s => match m s with
           | Some (a, s') => k a s'
           | None => None
           end.

Notation "x <~ m ;; k" := (bind m (fun x => k))
  (at level 100, m at next level, right associativity).

Definition lift {A} (f : session -> A * session) : M A := fun s => Some (f s).

(** [for x in l: out.append(await f(x))] *)
Fixpoint for_each {A B} (f : A -> M B) (l : list A) : M (list B) :=
  match l with
  | [] => ret []
  | x :: l' => y <~ f x ;; ys <~ for_each f l' ;; ret (y :: ys)
  end.

(** [count_tokens] *)
Definition count_tokens (t : text) : Z := Z.of_nat (length (split_ws t)).

Definition default_max_chunk_len : Z := 600.
Definition default_min_chunk_len : Z := 150.

(** An element of the list handed to [merge_small_chunks]: a string
    appended by the caller, or a dict returned by a nested call. *)
Inductive piece := PStr (s : text) | PDict (d : chunk_dict).

(** [ch.get("cleaned_text") or ch.get("text") or ""] for a dict, the
    string itself otherwise. *)
Definition piece_text (p : piece) : text :=
  match p with
  | PStr s => s
  | PDict d =>
      match py_or (py_or (get_cleaned_text d) (get_text d)) (Some []) with
      | Some s => s
      | None => []
      end
  end.

(** The loop of [merge_small_chunks]; [merged] and [buffer] are the two
    local variables. *)
Fixpoint merge_loop (min_len : Z) (merged : list text) (buffer : text)
    (chunks : list piece) : list text :=
  match chunks with
  | [] =>
      match buffer with
      | [] => merged
      | _ => merged ++ [strip buffer]
      end
  | p :: rest =>
      let ch := piece_text p in
      if blank ch then merge_loop min_len merged buffer rest
      else if (len ch <? min_len)%Z
      then merge_loop min_len merged (buffer ++ " "%char :: ch) rest
      else match buffer with
           | [] => merge_loop min_len (merged ++ [ch]) [] rest
           | _ => merge_loop min_len ((merged ++ [strip buffer]) ++ [ch]) [] rest
           end
  end.

Definition merge_small_chunks (chunks : list piece) (min_len : Z) : list text :=
  merge_loop min_len [] [] chunks.

(** The sentence-packing loop of [recursive_semantic_chunk]; [chunks] and
    [current] are the two local variables. *)
Fixpoint pack_loop (max_chunk_len : Z) (chunks : list text) (current : text)
    (sentences : list text) : list text :=
  match sentences with
  | [] =>
      match current with
      | [] => chunks
      | _ => chunks ++ [strip current]
      end
  | sent :: rest =>
      if (len current + len sent <? max_chunk_len)%Z
      then pack_loop max_chunk_len chunks (current ++ " "%char :: sent) rest
      else pack_loop max_chunk_len (chunks ++ [strip current]) sent rest
  end.

Definition pack_sentences (max_chunk_len : Z) (sentences : list text) : list text :=
  pack_loop max_chunk_len [] [] sentences.

Section WithCollaborators.

(** [app.utils.text_cleaner_v2.clean_text], which is not among the
    sources, and [make_semantic_hash], the SHA-256 of the UTF-8 encoding
    in hex: both are parameters of the segmenter. *)
Variable clean_text : text -> text.
Variable make_semantic_hash : text -> text.

(** [pg_insert(GlobalContentIndexV2).values(..., occurrence_count=1)
      .on_conflict_do_nothing(index_elements=["semantic_hash"])] *)
Definition gci_insert_on_conflict_do_nothing (row : GlobalContentIndexV2)
    (db : database) : database :=
  match gci db !! gci_semantic_hash row with
  | Some _ => db
  | None => set_gci (<[gci_semantic_hash row := row]> (gci db)) db
  end.

(** [select(GlobalContentIndexV2).where(semantic_hash == h)] followed by
    [scalar_one_or_none()]; the column is unique. *)
Definition gci_select_by_hash (h : text) (db : database) : option GlobalContentIndexV2 :=
  gci db !! h.

Definition bump_occurrence (id : ident) (row : GlobalContentIndexV2) : GlobalContentIndexV2 :=
  if N.eqb (gci_id row) id
  then {| gci_id := gci_id row;
          gci_semantic_hash := gci_semantic_hash row;
          gci_cleaned_text := gci_cleaned_text row;
          gci_raw_text := gci_raw_text row;
          gci_tokens := gci_tokens row;
          gci_business_id := gci_business_id row;
          gci_first_seen_file_id := gci_first_seen_file_id row;
          gci_source_type := gci_source_type row;
          occurrence_count := (occurrence_count row + 1)%Z |}
  else row.

(** [update(GlobalContentIndexV2).where(id == gci_id)
      .values(occurrence_count=occurrence_count + 1)] *)
Definition gci_increment_occurrence (id : ident) (db : database) : database :=
  set_gci (bump_occurrence id <$> gci db) db.

(** [make_chunk_dict] *)
Definition make_chunk_dict (t : text) (ctx : chunk_context)
    (db_session : session) : chunk_dict * session :=
  let cleaned := clean_text t in
  if blank cleaned then (EmptyDict, db_session)
  else
    let semantic_hash := make_semantic_hash cleaned in
    let tokens := count_tokens cleaned in
    let result gci_id :=
      Chunk {| c_text := t;
               c_cleaned_text := cleaned;
               c_tokens := tokens;
               c_semantic_hash := semantic_hash;
               c_global_content_id := gci_id;
               c_source_type := ctx_source_type ctx |} in
    match db_session with
    | None => (result None, None)
    | Some db =>
        let '(new_id, db) := uuid4 db in
        let db :=
          gci_insert_on_conflict_do_nothing
            {| gci_id := new_id;
               gci_semantic_hash := semantic_hash;
               gci_cleaned_text := cleaned;
               gci_raw_text := t;
               gci_tokens := tokens;
               gci_business_id := ctx_business_id ctx;
               gci_first_seen_file_id := ctx_file_id ctx;
               gci_source_type := ctx_source_type ctx;
               occurrence_count := 1 |} db in
        match gci_select_by_hash semantic_hash db with
        | Some row =>
            let db := gci_increment_occurrence (gci_id row) db in
            (result (Some (gci_id row)), Some db)
        | None => (result None, Some db)
        end
    end.

(** The [refined] loop: a chunk longer than [max_chunk_len] is replaced
    by the dicts of a nested call, the others are appended as strings. *)
Fixpoint refine_loop (nested : text -> M (list chunk_dict)) (max_chunk_len : Z)
    (chunks : list text) : M (list piece) :=
  match chunks with
  | [] => ret []
  | ch :: rest =>
      if (len ch >? max_chunk_len)%Z
      then ds <~ nested ch ;;
           ps <~ refine_loop nested max_chunk_len rest ;;
           ret (map PDict ds ++ ps)
      else ps <~ refine_loop nested max_chunk_len rest ;;
           ret (PStr ch :: ps)
  end.

(** [recursive_semantic_chunk], with a budget on the depth of the nested
    calls.  The nested calls do not pass [max_chunk_len] and
    [min_chunk_len] on, so they run with the defaults 600 and 150. *)
Fixpoint recursive_semantic_chunk_fuel (fuel : nat) (t : text)
    (max_chunk_len min_chunk_len : Z) (ctx : chunk_context)
    : M (list chunk_dict) :=
  match fuel with
  | O => fun _ => None
  | S fuel' =>
      let nested t' :=
        recursive_semantic_chunk_fuel fuel' t'
          default_max_chunk_len default_min_chunk_len ctx in
      let cleaned := clean_text t in
      if blank cleaned then ret []
      else if (len cleaned <=? max_chunk_len)%Z
      then c <~ lift (make_chunk_dict cleaned ctx) ;; ret [c]
      else
        let sentences := re_split_sentences cleaned in
        if (length sentences =? 1)%nat
        then
          let mid := Nat.div (length cleaned) 2 in
          left <~ nested (slice_to mid cleaned) ;;
          right <~ nested (slice_from mid cleaned) ;;
          ret (left ++ right)
        else
          let chunks := pack_sentences max_chunk_len sentences in
          refined <~ refine_loop nested max_chunk_len chunks ;;
          let merged := merge_small_chunks refined min_chunk_len in
          for_each (fun ch => lift (make_chunk_dict ch ctx)) merged
  end.

(** The recursion budget that always suffices (see [rsc_fuel_returns]). *)
Definition enough_fuel (t : text) : nat := length t + 2.

(** [recursive_semantic_chunk] *)
Definition recursive_semantic_chunk (t : text) (max_chunk_len min_chunk_len : Z)
    (ctx : chunk_context) : M (list chunk_dict) :=
  recursive_semantic_chunk_fuel (enough_fuel t) t max_chunk_len min_chunk_len ctx.

(** The body of [recursive_semantic_chunk_fuel] with budget left. *)
Lemma rsc_fuel_S (fuel' : nat) (t : text) max_chunk_len min_chunk_len ctx :
  recursive_semantic_chunk_fuel (S fuel') t max_chunk_len min_chunk_len ctx =
  let nested t' :=
    recursive_semantic_chunk_fuel fuel' t'
      default_max_chunk_len default_min_chunk_len ctx in
  let cleaned := clean_text t in
  if blank cleaned then ret []
  else if (len cleaned <=? max_chunk_len)%Z
  then c <~ lift (make_chunk_dict cleaned ctx) ;; ret [c]
  else
    let sentences := re_split_sentences cleaned in
    if (length sentences =? 1)%nat
    then
      let mid := Nat.div (length cleaned) 2 in
      left <~ nested (slice_to mid cleaned) ;;
      right <~ nested (slice_from mid cleaned) ;;
      ret (left ++ right)
    else
      let chunks := pack_sentences max_chunk_len sentences in
      refined <~ refine_loop nested max_chunk_len chunks ;;
      let merged := merge_small_chunks refined min_chunk_len in
      for_each (fun ch => lift (make_chunk_dict ch ctx)) merged.
Proof. reflexivity. Qed.

(** ** The monad *)

Lemma for_each_lift_total {A B} (f : A -> session -> B * session) (l : list A) :
  forall s, exists r s', for_each (fun x => lift (f x)) l s = Some (r, s').
Proof.
  induction l as [|x l IH]; intros s; simpl.
  - by exists [], s.
  - unfold bind at 1, lift at 1. destruct (f x s) as [y s1].
    destruct (IH s1) as (ys & s2 & Hys).
    unfold bind at 1. rewrite Hys. by exists (y :: ys), s2.
Qed.

Lemma for_each_length {A B} (f : A -> M B) (l : list A) :
  forall s r s', for_each f l s = Some (r, s') -> length r = length l.
Proof.
  induction l as [|x l IH]; intros s r s'; simpl.
  - unfold ret. by intros [= <- _].
  - unfold bind at 1. destruct (f x s) as [[y s1]|]; [|done].
    unfold bind at 1. destruct (for_each f l s1) as [[ys s2]|] eqn:E; [|done].
    unfold ret. intros [= <- _]. simpl. f_equal. by eapply IH.
Qed.

(** ** The sentence-packing loop *)

(** What the loop may hold in [current] or flush into [chunks]. *)
Definition packed_ok (max_chunk_len : Z) (sentences : list text) (ch : text) : Prop :=
  (len ch <= max_chunk_len)%Z \/ ch = [] \/ exists s, In s sentences /\ ch = strip s.

Definition current_ok (max_chunk_len : Z) (sentences : list text) (cur : text) : Prop :=
  (len cur <= max_chunk_len)%Z \/ cur = [] \/ In cur sentences.

Lemma len_strip_le (s : text) : (len (strip s) <= len s)%Z.
Proof. unfold len. pose proof (strip_length s). lia. Qed.

Lemma len_app_space (a b : text) : len (a ++ " "%char :: b) = (len a + len b + 1)%Z.
Proof. unfold len. rewrite length_app. simpl. lia. Qed.

Lemma current_ok_flush max_chunk_len sentences cur :
  current_ok max_chunk_len sentences cur ->
  packed_ok max_chunk_len sentences (strip cur).
Proof.
  intros [H|[->|H]].
  - left. pose proof (len_strip_le cur). lia.
  - right; left. reflexivity.
  - right; right. by exists cur.
Qed.

Lemma pack_loop_ok max_chunk_len all (rest : list text) :
  forall chunks current,
    incl rest all ->
    Forall (packed_ok max_chunk_len all) chunks ->
    current_ok max_chunk_len all current ->
    Forall (packed_ok max_chunk_len all) (pack_loop max_chunk_len chunks current rest).
Proof.
  induction rest as [|sent rest IH]; intros chunks current Hincl Hchunks Hcur; simpl.
  - destruct current as [|c cur]; [done|].
    apply Forall_app; split; [done|].
    constructor; [|constructor]. by apply current_ok_flush.
  - assert (In sent all) as Hsent by (apply Hincl; by left).
    assert (incl rest all) as Hrest by (intros x Hx; apply Hincl; by right).
    destruct (len current + len sent <? max_chunk_len)%Z eqn:E.
    + apply IH; [done|done|]. left. rewrite len_app_space. lia.
    + apply IH; [done| |by right; right].
      apply Forall_app; split; [done|].
      constructor; [|constructor]. by apply current_ok_flush.
Qed.

Lemma pack_sentences_ok max_chunk_len sentences :
  Forall (packed_ok max_chunk_len sentences) (pack_sentences max_chunk_len sentences).
Proof.
  apply pack_loop_ok; [apply incl_refl|constructor|]. right; left. reflexivity.
Qed.

(** ** The merge pass *)

(** The buffer of [merge_small_chunks] after absorbing the chunks [l]. *)
Definition join_small (l : list text) : text := concat (map (cons " "%char) l).

Definition small_piece (min_len : Z) (ps : list piece) (x : text) : Prop :=
  (len x < min_len)%Z /\ exists p, In p ps /\ x = piece_text p.

(** An element of the merged list: a chunk of at least [min_len]
    characters passed through untouched, or a stripped buffer of chunks
    that are all shorter than [min_len]. *)
Definition merged_ok (min_len : Z) (ps : list piece) (m : text) : Prop :=
  (exists p, In p ps /\ m = piece_text p /\ (min_len <= len m)%Z)
  \/ (exists l, l <> [] /\ Forall (small_piece min_len ps) l /\ m = strip (join_small l)).

Lemma join_small_snoc (l : list text) (ch : text) :
  join_small (l ++ [ch]) = join_small l ++ " "%char :: ch.
Proof.
  unfold join_small. rewrite map_app, concat_app. simpl. by rewrite app_nil_r.
Qed.

Lemma merge_loop_ok min_len all (rest : list piece) :
  forall merged buffer l,
    incl rest all ->
    Forall (merged_ok min_len all) merged ->
    buffer = join_small l ->
    Forall (small_piece min_len all) l ->
    Forall (merged_ok min_len all) (merge_loop min_len merged buffer rest).
Proof.
  induction rest as [|p rest IH]; intros merged buffer l Hincl Hmerged Hbuf Hl; simpl.
  - destruct buffer as [|c b] eqn:Eb; [done|].
    apply Forall_app; split; [done|]. constructor; [|constructor].
    right. exists l. split; [|by rewrite Hbuf].
    intros ->. discriminate.
  - assert (In p all) as Hp by (apply Hincl; by left).
    assert (incl rest all) as Hrest by (intros x Hx; apply Hincl; by right).
    destruct (blank (piece_text p)); [by eapply IH|].
    destruct (len (piece_text p) <? min_len)%Z eqn:E.
    + apply (IH _ _ (l ++ [piece_text p])); [done|done| |].
      * by rewrite join_small_snoc, Hbuf.
      * apply Forall_app; split; [done|]. constructor; [|constructor].
        split; [lia|by exists p].
    + assert (merged_ok min_len all (piece_text p)) as Hthis.
      { left. exists p. repeat split; [done|lia]. }
      destruct buffer as [|c b] eqn:Eb.
      * apply (IH _ _ []); [done| |done|constructor].
        apply Forall_app; split; [done|]. by constructor.
      * apply (IH _ _ []); [done| |done|constructor].
        apply Forall_app; split; [|by constructor].
        apply Forall_app; split; [done|]. constructor; [|constructor].
        right. exists l. split; [|by rewrite Hbuf].
        intros ->. discriminate.
Qed.

Lemma merge_small_chunks_ok (chunks : list piece) min_len :
  Forall (merged_ok min_len chunks) (merge_small_chunks chunks min_len).
Proof.
  apply (merge_loop_ok _ _ _ _ _ []); [apply incl_refl|constructor|done|constructor].
Qed.

(** ** The segmenter writes to the Global Content Index only *)

(** With an open session, the computation keeps the session open and
    leaves the file and chunk tables as they are. *)
Definition keeps_tables {A} (m : M A) : Prop :=
  forall d r s', m (Some d) = Some (r, s') ->
    exists d', s' = Some d' /\ files d' = files d /\ contents d' = contents d.

Lemma keeps_tables_ret {A} (a : A) : keeps_tables (ret a).
Proof. intros d r s' [= <- <-]. by exists d. Qed.

Lemma keeps_tables_bind {A B} (m : M A) (k : A -> M B) :
  keeps_tables m -> (forall a, keeps_tables (k a)) -> keeps_tables (bind m k).
Proof.
  intros Hm Hk d r s'. unfold bind.
  destruct (m (Some d)) as [[a s1]|] eqn:E; [|done].
  destruct (Hm _ _ _ E) as (d1 & -> & Hf1 & Hc1). intros Hk1.
  destruct (Hk _ _ _ _ Hk1) as (d2 & -> & Hf2 & Hc2).
  exists d2. by rewrite Hf2, Hc2.
Qed.

Lemma keeps_tables_make_chunk_dict (t : text) ctx :
  keeps_tables (lift (make_chunk_dict t ctx)).
Proof.
  intros d r s'. unfold lift, make_chunk_dict.
  destruct (blank (clean_text t)); [intros [= <- <-]; by exists d|].
  cbn [uuid4]. unfold gci_select_by_hash.
  destruct (gci (gci_insert_on_conflict_do_nothing _ _) !! _) eqn:E;
    intros [= <- <-]; eexists; (split; [reflexivity|]);
    unfold gci_insert_on_conflict_do_nothing; cbn [gci gci_semantic_hash];
    by destruct (gci d !! make_semantic_hash (clean_text t)).
Qed.

Lemma keeps_tables_for_each {A B} (f : A -> M B) (l : list A) :
  (forall x, keeps_tables (f x)) -> keeps_tables (for_each f l).
Proof.
  intros Hf. induction l as [|x l IH]; simpl; [apply keeps_tables_ret|].
  apply keeps_tables_bind; [apply Hf|]. intros y.
  apply keeps_tables_bind; [apply IH|]. intros ys. apply keeps_tables_ret.
Qed.

Lemma keeps_tables_refine_loop nested max_chunk_len (chunks : list text) :
  (forall ch, keeps_tables (nested ch)) ->
  keeps_tables (refine_loop nested max_chunk_len chunks).
Proof.
  intros Hn. induction chunks as [|ch rest IH]; simpl; [apply keeps_tables_ret|].
  destruct (len ch >? max_chunk_len)%Z.
  - apply keeps_tables_bind; [apply Hn|]. intros ds.
    apply keeps_tables_bind; [apply IH|]. intros ps. apply keeps_tables_ret.
  - apply keeps_tables_bind; [apply IH|]. intros ps. apply keeps_tables_ret.
Qed.

Lemma keeps_tables_rsc_fuel ctx : forall (fuel : nat) (t : text) max_chunk_len min_chunk_len,
  keeps_tables (recursive_semantic_chunk_fuel fuel t max_chunk_len min_chunk_len ctx).
Proof.
  induction fuel as [|fuel IH]; intros t max_chunk_len min_chunk_len;
    [by intros d r s'|].
  rewrite rsc_fuel_S.
  cbv zeta.
  destruct (blank (clean_text t)); [apply keeps_tables_ret|].
  destruct (len (clean_text t) <=? max_chunk_len)%Z.
  { apply keeps_tables_bind; [apply keeps_tables_make_chunk_dict|].
    intros c. apply keeps_tables_ret. }
  destruct (length (re_split_sentences (clean_text t)) =? 1)%nat.
  - apply keeps_tables_bind; [apply IH|]. intros l.
    apply keeps_tables_bind; [apply IH|]. intros r. apply keeps_tables_ret.
  - apply keeps_tables_bind.
    + apply keeps_tables_refine_loop. intros ch. apply IH.
    + intros refined. apply keeps_tables_for_each. intros ch.
      apply keeps_tables_make_chunk_dict.
Qed.

Lemma keeps_tables_rsc (t : text) max_chunk_len min_chunk_len ctx :
  keeps_tables (recursive_semantic_chunk t max_chunk_len min_chunk_len ctx).
Proof. apply keeps_tables_rsc_fuel. Qed.

(** ** Termination of [recursive_semantic_chunk] *)

(** A computation that returns from every session. *)
Definition returns {A} (m : M A) : Prop :=
  forall s, exists r s', m s = Some (r, s').

Lemma returns_ret {A} (a : A) : returns (ret a).
Proof. intros s. by exists a, s. Qed.

Lemma returns_lift {A} (f : session -> A * session) : returns (lift f).
Proof. intros s. unfold lift. destruct (f s) as [a s']. by exists a, s'. Qed.

Lemma returns_bind {A B} (m : M A) (k : A -> M B) :
  returns m -> (forall a, returns (k a)) -> returns (bind m k).
Proof.
  intros Hm Hk s. destruct (Hm s) as (a & s1 & Ha).
  destruct (Hk a s1) as (b & s2 & Hb).
  exists b, s2. unfold bind. by rewrite Ha.
Qed.

Lemma returns_for_each_lift {A B} (f : A -> session -> B * session) (l : list A) :
  returns (for_each (fun x => lift (f x)) l).
Proof. intros s. apply for_each_lift_total. Qed.

Lemma returns_refine_loop nested max_chunk_len (chunks : list text) :
  (forall ch, In ch chunks -> (len ch > max_chunk_len)%Z -> returns (nested ch)) ->
  returns (refine_loop nested max_chunk_len chunks).
Proof.
  induction chunks as [|ch rest IH]; intros H; simpl.
  - apply returns_ret.
  - assert (returns (refine_loop nested max_chunk_len rest)) as Hrest.
    { apply IH. intros x Hx. apply H. by right. }
    destruct (len ch >? max_chunk_len)%Z eqn:E.
    + apply returns_bind; [apply H; [by left|lia]|]. intros ds.
      apply returns_bind; [done|]. intros ps. apply returns_ret.
    + apply returns_bind; [done|]. intros ps. apply returns_ret.
Qed.

(** The text cleaner only removes characters. *)
Hypothesis clean_text_length : forall t, length (clean_text t) <= length t.

(** Every chunk that the packing loop hands to a nested call is strictly
    shorter than the cleaned text it was cut from. *)
Lemma packed_over_max_shorter max_chunk_len (cleaned ch : text) :
  blank cleaned = false ->
  2 <= length (re_split_sentences cleaned) ->
  In ch (pack_sentences max_chunk_len (re_split_sentences cleaned)) ->
  (len ch > max_chunk_len)%Z ->
  length ch < length cleaned.
Proof.
  intros Hnb Hk Hin Hlong.
  pose proof (pack_sentences_ok max_chunk_len (re_split_sentences cleaned)) as Hall.
  rewrite List.Forall_forall in Hall. destruct (Hall ch Hin) as [H|[->|(s & Hs & ->)]].
  - lia.
  - apply blank_false_length in Hnb. simpl. lia.
  - pose proof (strip_length s). pose proof (re_split_piece_shorter cleaned s Hs Hk). lia.
Qed.

(** One unfolding step, shared by the two termination lemmas: the call
    returns as soon as the nested calls on strictly shorter (or, for the
    right half of a one-character text, equally long) texts return. *)
Lemma rsc_step_returns (fuel' : nat) (t : text) max_chunk_len min_chunk_len ctx :
  (forall t', length t' <= length t ->
     (length t' < length t \/ (max_chunk_len < 1)%Z) ->
     returns (recursive_semantic_chunk_fuel fuel' t'
                default_max_chunk_len default_min_chunk_len ctx)) ->
  returns (recursive_semantic_chunk_fuel (S fuel') t max_chunk_len min_chunk_len ctx).
Proof.
  intros Hnested. rewrite rsc_fuel_S. cbv zeta.
  pose proof (clean_text_length t) as Hclean.
  destruct (blank (clean_text t)) eqn:Hblank; [apply returns_ret|].
  pose proof (blank_false_length _ Hblank) as Hpos.
  destruct (len (clean_text t) <=? max_chunk_len)%Z eqn:Hshort.
  { apply returns_bind; [apply returns_lift|]. intros c. apply returns_ret. }
  assert (len (clean_text t) > max_chunk_len)%Z as Hlong by lia.
  destruct (length (re_split_sentences (clean_text t)) =? 1)%nat eqn:Hone.
  - set (mid := Nat.div (length (clean_text t)) 2).
    assert (mid < length (clean_text t)) as Hmid
      by (apply Nat.div_lt; lia).
    apply returns_bind.
    { apply Hnested; unfold slice_to; rewrite length_firstn; lia. }
    intros l. apply returns_bind; [|intros r; apply returns_ret].
    apply Hnested; unfold slice_from; rewrite length_skipn; [lia|].
    pose proof (Nat.div_mod_eq (length (clean_text t)) 2) as Hdiv.
    pose proof (Nat.mod_upper_bound (length (clean_text t)) 2) as Hmod.
    fold mid in Hdiv. unfold len in Hlong. lia.
  - apply Nat.eqb_neq in Hone.
    assert (2 <= length (re_split_sentences (clean_text t))) as Hk.
    { pose proof (re_split_from_nonempty (clean_text t) false false []) as Hne.
      unfold re_split_sentences in *.
      destruct (re_split_from false false [] (clean_text t)) as [|a [|b l]];
        simpl in *; [done|done|lia]. }
    apply returns_bind; [|intros refined; apply returns_for_each_lift].
    apply returns_refine_loop. intros ch Hin Hover.
    pose proof (packed_over_max_shorter _ _ _ Hblank Hk Hin Hover).
    apply Hnested; [lia|left; lia].
Qed.

(** A nested call (default bounds) returns with a budget above the length
    of its text. *)
Lemma rsc_nested_returns ctx : forall (fuel : nat) (t : text),
  length t < fuel ->
  returns (recursive_semantic_chunk_fuel fuel t
             default_max_chunk_len default_min_chunk_len ctx).
Proof.
  induction fuel as [|fuel' IH]; intros t Hlt; [lia|].
  apply rsc_step_returns. intros t' Hle [Hlt'|Hmax].
  - apply IH. lia.
  - unfold default_max_chunk_len in Hmax. lia.
Qed.

Lemma rsc_fuel_returns ctx (fuel : nat) (t : text) max_chunk_len min_chunk_len :
  length t + 1 < fuel ->
  returns (recursive_semantic_chunk_fuel fuel t max_chunk_len min_chunk_len ctx).
Proof.
  destruct fuel as [|fuel']; [lia|]. intros Hlt.
  apply rsc_step_returns. intros t' Hle _.
  apply rsc_nested_returns. lia.
Qed.

(** The halves of the midpoint split are strictly shorter than a text of
    two characters or more. *)
Lemma halves_shorter (cleaned : text) :
  2 <= length cleaned ->
  let mid := Nat.div (length cleaned) 2 in
  length (slice_to mid cleaned) < length cleaned
  /\ length (slice_from mid cleaned) < length cleaned.
Proof.
  intros Hlen mid. unfold slice_to, slice_from.
  rewrite length_firstn, length_skipn.
  pose proof (Nat.div_mod_eq (length cleaned) 2) as Hdiv.
  pose proof (Nat.mod_upper_bound (length cleaned) 2) as Hmod.
  fold mid in Hdiv. lia.
Qed.

(** ** The budget does not influence the result *)

Definition refines {A} (m1 m2 : M A) : Prop :=
  forall s r, m1 s = Some r -> m2 s = Some r.

Lemma refines_bind {A B} (m1 m2 : M A) (k1 k2 : A -> M B) :
  refines m1 m2 -> (forall a, refines (k1 a) (k2 a)) ->
  refines (bind m1 k1) (bind m2 k2).
Proof.
  intros Hm Hk s r. unfold bind.
  destruct (m1 s) as [[a s1]|] eqn:E; [|done].
  rewrite (Hm _ _ E). apply Hk.
Qed.

Lemma refines_refl {A} (m : M A) : refines m m.
Proof. by intros s r. Qed.

Lemma refines_refine_loop nested1 nested2 max_chunk_len (chunks : list text) :
  (forall ch, refines (nested1 ch) (nested2 ch)) ->
  refines (refine_loop nested1 max_chunk_len chunks)
          (refine_loop nested2 max_chunk_len chunks).
Proof.
  intros Hn. induction chunks as [|ch rest IH]; simpl; [apply refines_refl|].
  destruct (len ch >? max_chunk_len)%Z.
  - apply refines_bind; [apply Hn|]. intros ds.
    apply refines_bind; [apply IH|]. intros ps. apply refines_refl.
  - apply refines_bind; [apply IH|]. intros ps. apply refines_refl.
Qed.

Lemma rsc_fuel_S_refines ctx : forall (fuel : nat) (t : text) max_chunk_len min_chunk_len,
  refines (recursive_semantic_chunk_fuel fuel t max_chunk_len min_chunk_len ctx)
          (recursive_semantic_chunk_fuel (S fuel) t max_chunk_len min_chunk_len ctx).
Proof.
  induction fuel as [|fuel IH]; intros t max_chunk_len min_chunk_len; [by intros s r|].
  rewrite (rsc_fuel_S (S fuel)), (rsc_fuel_S fuel). cbv zeta.
  destruct (blank (clean_text t)); [apply refines_refl|].
  destruct (len (clean_text t) <=? max_chunk_len)%Z; [apply refines_refl|].
  destruct (length (re_split_sentences (clean_text t)) =? 1)%nat.
  - apply refines_bind; [apply IH|]. intros l.
    apply refines_bind; [apply IH|]. intros r. apply refines_refl.
  - apply refines_bind; [|intros refined; apply refines_refl].
    apply refines_refine_loop. intros ch. apply IH.
Qed.

Lemma rsc_fuel_mono ctx (t : text) max_chunk_len min_chunk_len (n m : nat) :
  n <= m ->
  refines (recursive_semantic_chunk_fuel n t max_chunk_len min_chunk_len ctx)
          (recursive_semantic_chunk_fuel m t max_chunk_len min_chunk_len ctx).
Proof.
  induction 1 as [|m Hle IH]; [apply refines_refl|].
  intros s r Hr. apply rsc_fuel_S_refines. by apply IH.
Qed.

(** ** The Global Content Index counter *)

(** The counter of the entry after one call of [make_chunk_dict] with an
    open session: the insert sets 1 on a fresh hash, and the update that
    follows adds 1 whether or not the insert took place. *)
Lemma make_chunk_dict_counter (t : text) ctx (db : database) :
  blank (clean_text t) = false ->
  exists d db' row,
    make_chunk_dict t ctx (Some db) = (d, Some db')
    /\ gci db' !! make_semantic_hash (clean_text t) = Some row
    /\ occurrence_count row =
         match gci db !! make_semantic_hash (clean_text t) with
         | None => 2%Z
         | Some old => (occurrence_count old + 1)%Z
         end.
Proof.
  intros Hnb. unfold make_chunk_dict. rewrite Hnb. cbn [uuid4].
  unfold gci_select_by_hash, gci_insert_on_conflict_do_nothing.
  cbn [gci gci_semantic_hash].
  destruct (gci db !! make_semantic_hash (clean_text t)) as [old|] eqn:E.
  - cbn [gci]. rewrite E. eexists _, _, _. split; [reflexivity|].
    unfold gci_increment_occurrence, set_gci. cbn [gci].
    rewrite lookup_fmap, E. cbn. split; [reflexivity|].
    unfold bump_occurrence. by rewrite N.eqb_refl.
  - unfold set_gci at 1. cbn [gci]. rewrite lookup_insert_eq.
    eexists _, _, _. split; [reflexivity|].
    unfold gci_increment_occurrence, set_gci. cbn [gci gci_id].
    rewrite lookup_fmap, lookup_insert_eq. cbn. split; [reflexivity|].
    unfold bump_occurrence. cbn [gci_id]. by rewrite N.eqb_refl.
Qed.

(** C2 (the code departs from the claim): one call of [make_chunk_dict]
    with an open session on a text whose cleaned form is not blank leaves
    the Global Content Index entry of its semantic hash with
    [occurrence_count = 2] when the hash was never seen before (the row is
    inserted with 1 and the update that follows adds 1 at once), and with
    the previous count plus one when the hash was already indexed; so the
    first ingestion of a sentence leaves 2 and a second file reusing it
    leaves 3, where the claim expects 1 and 2. *)
Theorem make_chunk_dict_occurrence_count (t : text) ctx (db : database) :
  blank (clean_text t) = false ->
  exists d db' row,
    make_chunk_dict t ctx (Some db) = (d, Some db')
    /\ gci db' !! make_semantic_hash (clean_text t) = Some row
    /\ occurrence_count row =
         match gci db !! make_semantic_hash (clean_text t) with
         | None => 2%Z
         | Some old => (occurrence_count old + 1)%Z
         end.
Proof. apply make_chunk_dict_counter. Qed.

(** ** The chunk length bound *)

(** What the claim on chunk sizes asks of a returned dict: it holds at
    most [max_chunk_len] characters, or it is a single token. *)
Definition within_bound (max_chunk_len : Z) (d : chunk_dict) : Prop :=
  match d with
  | EmptyDict => True
  | Chunk c =>
      (len (c_cleaned_text c) <= max_chunk_len)%Z
      \/ count_tokens (c_cleaned_text c) = 1%Z
  end.

Definition chunk_bound_claim (t : text) (max_chunk_len min_chunk_len : Z) : Prop :=
  forall ctx s r s',
    recursive_semantic_chunk t max_chunk_len min_chunk_len ctx s = Some (r, s') ->
    Forall (within_bound max_chunk_len) r.

Lemma rsc_short_text (t : text) max_chunk_len min_chunk_len ctx s :
  blank (clean_text t) = false ->
  (len (clean_text t) <= max_chunk_len)%Z ->
  recursive_semantic_chunk t max_chunk_len min_chunk_len ctx s =
    Some ([(make_chunk_dict (clean_text t) ctx s).1],
          (make_chunk_dict (clean_text t) ctx s).2).
Proof.
  intros Hnb Hshort. unfold recursive_semantic_chunk, enough_fuel.
  replace (length t + 2) with (S (length t + 1)) by lia.
  rewrite rsc_fuel_S. cbv zeta. rewrite Hnb.
  destruct (len (clean_text t) <=? max_chunk_len)%Z eqn:E; [|lia].
  unfold bind, lift, ret. by destruct (make_chunk_dict (clean_text t) ctx s).
Qed.

Lemma make_chunk_dict_text (t : text) ctx s :
  blank (clean_text t) = false ->
  exists c, (make_chunk_dict t ctx s).1 = Chunk c
    /\ c_text c = t /\ c_cleaned_text c = clean_text t
    /\ c_semantic_hash c = make_semantic_hash (clean_text t).
Proof.
  intros Hnb. unfold make_chunk_dict. rewrite Hnb.
  destruct s as [db|]; [|by eexists].
  cbn [uuid4]. destruct (gci_select_by_hash _ _); by eexists.
Qed.

(** C3, as amended: a text whose cleaned form is not blank and at most
    [max_chunk_len] long (in particular exactly [max_chunk_len] long) is
    returned as one chunk that holds the whole cleaned text; for a longer
    text every chunk formed by the sentence-packing step is at most
    [max_chunk_len] long unless it is empty or a single stripped sentence;
    and the final merge pass lets chunks of at least [min_chunk_len]
    characters through untouched and joins the shorter ones into buffers
    on which it puts no upper bound. *)
Theorem chunk_bound_amended :
  (forall (t : text) max_chunk_len min_chunk_len ctx s,
      blank (clean_text t) = false ->
      (len (clean_text t) <= max_chunk_len)%Z ->
      exists d s',
        recursive_semantic_chunk t max_chunk_len min_chunk_len ctx s = Some ([d], s')
        /\ (clean_text (clean_text t) = clean_text t ->
            exists c, d = Chunk c /\ c_text c = clean_text t
                      /\ c_cleaned_text c = clean_text t))
  /\ (forall max_chunk_len (sentences : list text),
        Forall (packed_ok max_chunk_len sentences)
               (pack_sentences max_chunk_len sentences))
  /\ (forall (chunks : list piece) min_chunk_len,
        Forall (merged_ok min_chunk_len chunks)
               (merge_small_chunks chunks min_chunk_len)).
Proof.
  split; [|split].
  - intros t max_chunk_len min_chunk_len ctx s Hnb Hshort.
    eexists _, _. split; [by apply rsc_short_text|].
    intros Hidem.
    destruct (make_chunk_dict_text (clean_text t) ctx s) as (c & Hc & Ht & Hcl & _).
    { by rewrite Hidem. }
    exists c. by rewrite Hcl, Hidem.
  - apply pack_sentences_ok.
  - apply merge_small_chunks_ok.
Qed.

(** A text without a sentence break that is longer than [max_chunk_len]
    is cut at its midpoint and both halves go to nested calls. *)
Lemma rsc_single_sentence_halved (fuel' : nat) (t : text) max_chunk_len min_chunk_len ctx :
  blank (clean_text t) = false ->
  (len (clean_text t) > max_chunk_len)%Z ->
  length (re_split_sentences (clean_text t)) = 1 ->
  recursive_semantic_chunk_fuel (S fuel') t max_chunk_len min_chunk_len ctx =
    let nested t' :=
      recursive_semantic_chunk_fuel fuel' t'
        default_max_chunk_len default_min_chunk_len ctx in
    let mid := Nat.div (length (clean_text t)) 2 in
    (left <~ nested (slice_to mid (clean_text t)) ;;
     right <~ nested (slice_from mid (clean_text t)) ;;
     ret (left ++ right)).
Proof.
  intros Hnb Hlong Hone. rewrite rsc_fuel_S. cbv zeta. rewrite Hnb, Hone.
  by destruct (len (clean_text t) <=? max_chunk_len)%Z eqn:E; [lia|].
Qed.

(** C9: [recursive_semantic_chunk] returns a list of chunks for every
    text, every pair of bounds and every session, unpunctuated text of
    any length included: the recursion budget [enough_fuel] is never
    exhausted, given that the text cleaner does not lengthen its input. *)
Theorem recursive_semantic_chunk_terminates (t : text) max_chunk_len min_chunk_len ctx :
  forall s, exists r s',
    recursive_semantic_chunk t max_chunk_len min_chunk_len ctx s = Some (r, s').
Proof.
  apply rsc_fuel_returns. unfold enough_fuel. lia.
Qed.

(** ** What the packing and merging loops keep *)

Lemma blank_false_iff (s : text) : blank s = false <-> nonspace s <> [].
Proof.
  rewrite <- blank_iff. destruct (blank s); split; congruence.
Qed.

Lemma blank_app_space (buffer ch : text) :
  blank ch = false -> blank (buffer ++ " "%char :: ch) = false.
Proof.
  rewrite !blank_false_iff, nonspace_app. intros H Happ.
  apply app_eq_nil in Happ as [_ Happ]. by apply H.
Qed.

Lemma merge_loop_no_blank min_len (rest : list piece) :
  forall merged buffer,
    Forall (fun m => blank m = false) merged ->
    (buffer = [] \/ blank buffer = false) ->
    Forall (fun m => blank m = false) (merge_loop min_len merged buffer rest).
Proof.
  induction rest as [|p rest IH]; intros merged buffer Hmerged Hbuf; simpl.
  - destruct buffer as [|c b] eqn:Eb; [done|].
    apply Forall_app; split; [done|]. constructor; [|constructor].
    rewrite blank_strip. by destruct Hbuf.
  - destruct (blank (piece_text p)) eqn:Eblank; [by apply IH|].
    destruct (len (piece_text p) <? min_len)%Z.
    + apply IH; [done|]. right. by apply blank_app_space.
    + destruct buffer as [|c b] eqn:Eb.
      * apply IH; [|by left]. apply Forall_app; split; [done|]. by constructor.
      * apply IH; [|by left].
        apply Forall_app; split; [|by constructor].
        apply Forall_app; split; [done|]. constructor; [|constructor].
        rewrite blank_strip. by destruct Hbuf.
Qed.

Lemma nonspace_blank (s : text) : blank s = true -> nonspace s = [].
Proof. apply blank_iff. Qed.

Lemma nonspace_concat_snoc (l : list text) (x : text) :
  nonspace (concat (l ++ [x])) = nonspace (concat l) ++ nonspace x.
Proof. by rewrite concat_app, nonspace_app; simpl; rewrite app_nil_r. Qed.

Lemma nonspace_app_space (a b : text) :
  nonspace (a ++ " "%char :: b) = nonspace a ++ nonspace b.
Proof. by rewrite nonspace_app. Qed.

Lemma merge_loop_nonspace min_len (rest : list piece) :
  forall merged buffer,
    nonspace (concat (merge_loop min_len merged buffer rest))
    = nonspace (concat merged) ++ nonspace buffer
      ++ nonspace (concat (map piece_text rest)).
Proof.
  induction rest as [|p rest IH]; intros merged buffer; simpl.
  - rewrite app_nil_r. destruct buffer as [|c b] eqn:Eb; [by rewrite app_nil_r|].
    by rewrite nonspace_concat_snoc, nonspace_strip.
  - rewrite (nonspace_app (piece_text p)).
    destruct (blank (piece_text p)) eqn:Eblank.
    { rewrite IH. by rewrite (nonspace_blank _ Eblank). }
    destruct (len (piece_text p) <? min_len)%Z.
    + rewrite IH, nonspace_app_space. by rewrite <- !app_assoc.
    + destruct buffer as [|c b] eqn:Eb.
      * rewrite IH, nonspace_concat_snoc. simpl. by rewrite <- !app_assoc.
      * rewrite IH, !nonspace_concat_snoc, nonspace_strip. simpl.
        by rewrite <- !app_assoc.
Qed.

Lemma pack_loop_nonspace max_chunk_len (rest : list text) :
  forall chunks current,
    nonspace (concat (pack_loop max_chunk_len chunks current rest))
    = nonspace (concat chunks) ++ nonspace current ++ nonspace (concat rest).
Proof.
  induction rest as [|sent rest IH]; intros chunks current; simpl.
  - rewrite app_nil_r. destruct current as [|c cur] eqn:Ec; [by rewrite app_nil_r|].
    by rewrite nonspace_concat_snoc, nonspace_strip.
  - rewrite (nonspace_app sent).
    destruct (len current + len sent <? max_chunk_len)%Z.
    + rewrite IH, nonspace_app_space. by rewrite <- !app_assoc.
    + rewrite IH, nonspace_concat_snoc, nonspace_strip. by rewrite <- !app_assoc.
Qed.

Lemma piece_text_PStr (l : list text) : map piece_text (map PStr l) = l.
Proof. induction l as [|x l IH]; simpl; [done|]. by rewrite IH. Qed.

(** ** Chunking loses no text *)

Lemma bind_Some {A B} (m : M A) (k : A -> M B) (s : session) (r : B) (s' : session) :
  bind m k s = Some (r, s') ->
  exists a s1, m s = Some (a, s1) /\ k a s1 = Some (r, s').
Proof.
  unfold bind. destruct (m s) as [[a s1]|]; [|done]. intros H. by exists a, s1.
Qed.

(** [c.get("text")], the empty string for [{}]. *)
Definition chunk_text (d : chunk_dict) : text :=
  match d with EmptyDict => [] | Chunk c => c_text c end.

Section Lossless.

(** The shape of a cleaner that filters characters: its output consists
    of characters it keeps, a text of such characters is left as it is,
    and the space is one of them. *)
Variable keep : ascii -> bool.
Hypothesis clean_text_keeps : forall t, Forall (fun c => keep c = true) (clean_text t).
Hypothesis clean_text_fixed :
  forall x, Forall (fun c => keep c = true) x -> clean_text x = x.
Hypothesis keep_space : keep " "%char = true.

Definition kept (x : text) : Prop := Forall (fun c => keep c = true) x.

Lemma kept_app (a b : text) : kept a -> kept b -> kept (a ++ b).
Proof. intros Ha Hb. apply Forall_app. by split. Qed.

Lemma kept_rev (x : text) : kept x -> kept (rev x).
Proof.
  unfold kept. rewrite !List.Forall_forall. intros H c Hc. apply H. by apply in_rev.
Qed.

Lemma kept_lstrip (x : text) : kept x -> kept (lstrip x).
Proof.
  induction x as [|c x IH]; simpl; [done|]. intros H.
  destruct (py_isspace c); [|done]. apply IH. by inversion H.
Qed.

Lemma kept_strip (x : text) : kept x -> kept (strip x).
Proof.
  intros H. unfold strip, rstrip. by apply kept_lstrip, kept_rev, kept_lstrip, kept_rev.
Qed.

Lemma kept_app_space (a b : text) : kept a -> kept b -> kept (a ++ " "%char :: b).
Proof. intros Ha Hb. apply kept_app; [done|]. by constructor. Qed.

Lemma kept_re_split_from (s : text) : forall sep punct acc,
  kept acc -> kept s -> Forall kept (re_split_from sep punct acc s).
Proof.
  induction s as [|c s IH]; intros sep punct acc Hacc Hs; simpl.
  - constructor; [by apply kept_rev|constructor].
  - inversion Hs as [|? ? Hc Hs']; subst.
    destruct (Ascii.eqb c " "); [destruct sep; [|destruct punct]|].
    + apply IH; [constructor|done].
    + constructor; [by apply kept_rev|]. apply IH; [constructor|done].
    + apply IH; [by constructor|done].
    + apply IH; [by constructor|done].
Qed.

Lemma kept_pack_loop max_chunk_len (rest : list text) : forall chunks current,
  Forall kept chunks -> kept current -> Forall kept rest ->
  Forall kept (pack_loop max_chunk_len chunks current rest).
Proof.
  induction rest as [|sent rest IH]; intros chunks current Hchunks Hcur Hrest; simpl.
  - destruct current eqn:E; [done|]. apply Forall_app; split; [done|].
    constructor; [by apply kept_strip|constructor].
  - inversion Hrest as [|? ? Hsent Hrest']; subst.
    destruct (len current + len sent <? max_chunk_len)%Z.
    + apply IH; [done|by apply kept_app_space|done].
    + apply IH; [|done|done]. apply Forall_app; split; [done|].
      constructor; [by apply kept_strip|constructor].
Qed.

Lemma kept_merge_loop min_len (rest : list piece) : forall merged buffer,
  Forall kept merged -> kept buffer -> Forall (fun p => kept (piece_text p)) rest ->
  Forall kept (merge_loop min_len merged buffer rest).
Proof.
  induction rest as [|p rest IH]; intros merged buffer Hmerged Hbuf Hrest; simpl.
  - destruct buffer eqn:E; [done|]. apply Forall_app; split; [done|].
    constructor; [by apply kept_strip|constructor].
  - inversion Hrest as [|? ? Hp Hrest']; subst.
    destruct (blank (piece_text p)); [by apply IH|].
    destruct (len (piece_text p) <? min_len)%Z.
    + apply IH; [done|by apply kept_app_space|done].
    + destruct buffer eqn:E.
      * apply IH; [|done|done]. apply Forall_app; split; [done|]. by constructor.
      * apply IH; [|constructor|done].
        apply Forall_app; split; [|by constructor].
        apply Forall_app; split; [done|].
        constructor; [by apply kept_strip|constructor].
Qed.

(** A chunk that carries a text as it is. *)
Definition exact_chunk (d : chunk_dict) : Prop :=
  match d with
  | EmptyDict => False
  | Chunk c => kept (c_text c) /\ c_cleaned_text c = c_text c /\ blank (c_text c) = false
  end.

Lemma make_chunk_dict_exact (x : text) ctx (s : session) :
  kept x -> blank x = false ->
  exact_chunk (make_chunk_dict x ctx s).1 /\ chunk_text (make_chunk_dict x ctx s).1 = x.
Proof.
  intros Hx Hnb. unfold make_chunk_dict. rewrite (clean_text_fixed x Hx), Hnb.
  destruct s as [d|]; [|done]. cbn [uuid4].
  by destruct (gci_select_by_hash _ _).
Qed.

Lemma for_each_make_chunk_dict_exact ctx (l : list text) : forall s r s',
  Forall kept l -> Forall (fun m => blank m = false) l ->
  for_each (fun ch => lift (make_chunk_dict ch ctx)) l s = Some (r, s') ->
  Forall exact_chunk r /\ map chunk_text r = l.
Proof.
  induction l as [|x l IH]; intros s r s' Hk Hnb; simpl.
  - unfold ret. by intros [= <- _].
  - inversion Hk as [|? ? Hx Hk']; inversion Hnb as [|? ? Hxb Hnb']; subst.
    intros H. apply bind_Some in H as (d & s1 & Hd & H).
    apply bind_Some in H as (ds & s2 & Hds & H).
    unfold ret in H. injection H as <- <-.
    unfold lift in Hd. injection Hd as Hd.
    destruct (make_chunk_dict_exact x ctx s Hx Hxb) as [He Ht].
    rewrite Hd in He, Ht. cbn [fst] in He, Ht.
    destruct (IH _ _ _ Hk' Hnb' Hds) as [Hes Hts].
    split; [by constructor|]. simpl. by rewrite Ht, Hts.
Qed.

Lemma piece_text_exact (d : chunk_dict) : exact_chunk d -> piece_text (PDict d) = chunk_text d.
Proof.
  destruct d as [|c]; [done|]. intros (_ & Hcl & Hnb). simpl.
  unfold py_or. simpl. rewrite Hcl.
  destruct (c_text c) eqn:E; [done|done].
Qed.

(** What a call on a text of kept characters must deliver. *)
Definition lossless_on (m : text -> M (list chunk_dict)) : Prop :=
  forall x s r s', kept x -> m x s = Some (r, s') ->
    Forall exact_chunk r /\ nonspace (concat (map chunk_text r)) = nonspace x.

Lemma refine_loop_lossless nested max_chunk_len (chunks : list text) :
  lossless_on nested ->
  forall s ps s', Forall kept chunks ->
    refine_loop nested max_chunk_len chunks s = Some (ps, s') ->
    Forall (fun p => kept (piece_text p)) ps
    /\ nonspace (concat (map piece_text ps)) = nonspace (concat chunks).
Proof.
  intros Hn. induction chunks as [|ch rest IH]; intros s ps s' Hk; simpl.
  - unfold ret. by intros [= <- _].
  - inversion Hk as [|? ? Hch Hk']; subst.
    destruct (len ch >? max_chunk_len)%Z.
    + intros H. apply bind_Some in H as (ds & s1 & Hds & H).
      apply bind_Some in H as (ps' & s2 & Hps & H).
      unfold ret in H. injection H as <- <-.
      destruct (Hn _ _ _ _ Hch Hds) as [Hex Hns].
      destruct (IH _ _ _ Hk' Hps) as [Hkp Hnsp].
      assert (map piece_text (map PDict ds) = map chunk_text ds) as Hmap.
      { rewrite map_map. apply map_ext_in. intros d Hd. apply piece_text_exact.
        rewrite List.Forall_forall in Hex. by apply Hex. }
      split.
      * apply Forall_app; split; [|done].
        rewrite List.Forall_forall in Hex. rewrite List.Forall_forall.
        intros p Hp. apply in_map_iff in Hp as (d & <- & Hd).
        rewrite piece_text_exact by by apply Hex.
        specialize (Hex d Hd). destruct d; [done|]. by destruct Hex.
      * by rewrite map_app, concat_app, !nonspace_app, Hmap, Hns, Hnsp.
    + intros H. apply bind_Some in H as (ps' & s2 & Hps & H).
      unfold ret in H. injection H as <- <-.
      destruct (IH _ _ _ Hk' Hps) as [Hkp Hnsp].
      split; [by constructor|]. simpl. by rewrite !nonspace_app, Hnsp.
Qed.

Lemma rsc_fuel_lossless ctx : forall (fuel : nat) (t : text) max_chunk_len min_chunk_len
    (s : session) r s',
  recursive_semantic_chunk_fuel fuel t max_chunk_len min_chunk_len ctx s = Some (r, s') ->
  Forall exact_chunk r
  /\ nonspace (concat (map chunk_text r)) = nonspace (clean_text t).
Proof.
  induction fuel as [|fuel IH]; intros t max_chunk_len min_chunk_len s r s'; [done|].
  rewrite rsc_fuel_S. cbv zeta.
  pose proof (clean_text_keeps t) as Hk.
  assert (lossless_on (fun t' => recursive_semantic_chunk_fuel fuel t'
            default_max_chunk_len default_min_chunk_len ctx)) as Hnested.
  { intros x s0 r0 s0' Hx Hrun. destruct (IH _ _ _ _ _ _ Hrun) as [H1 H2].
    split; [done|]. by rewrite H2, (clean_text_fixed x Hx). }
  destruct (blank (clean_text t)) eqn:Hblank.
  { unfold ret. intros [= <- _]. split; [constructor|].
    simpl. symmetry. by apply nonspace_blank. }
  destruct (len (clean_text t) <=? max_chunk_len)%Z.
  { intros H. apply bind_Some in H as (d & s1 & Hd & H).
    unfold ret in H. injection H as <- <-.
    unfold lift in Hd. injection Hd as Hd.
    destruct (make_chunk_dict_exact (clean_text t) ctx s Hk Hblank) as [He Ht].
    rewrite Hd in He, Ht. cbn [fst] in He, Ht.
    split; [by constructor|]. simpl. by rewrite app_nil_r, Ht. }
  destruct (length (re_split_sentences (clean_text t)) =? 1)%nat.
  - intros H. apply bind_Some in H as (l & s1 & Hl & H).
    apply bind_Some in H as (r0 & s2 & Hr & H).
    unfold ret in H. injection H as <- <-.
    assert (kept (slice_to (Nat.div (length (clean_text t)) 2) (clean_text t))) as Hkl
      by (by apply Forall_take).
    assert (kept (slice_from (Nat.div (length (clean_text t)) 2) (clean_text t))) as Hkr
      by (by apply Forall_drop).
    destruct (Hnested _ _ _ _ Hkl Hl) as [Hel Hnl].
    destruct (Hnested _ _ _ _ Hkr Hr) as [Her Hnr].
    split; [apply Forall_app; by split|].
    rewrite map_app, concat_app, nonspace_app, Hnl, Hnr, <- nonspace_app.
    unfold slice_to, slice_from. by rewrite firstn_skipn.
  - intros H. apply bind_Some in H as (refined & s1 & Href & H).
    assert (Forall kept (pack_sentences max_chunk_len (re_split_sentences (clean_text t))))
      as Hpacked.
    { apply kept_pack_loop; [constructor|constructor|].
      apply kept_re_split_from; [constructor|done]. }
    destruct (refine_loop_lossless _ _ _ Hnested _ _ _ Hpacked Href) as [Hkr Hnr].
    pose proof (merge_loop_no_blank min_chunk_len refined [] []
                  ltac:(constructor) ltac:(by left)) as Hmb.
    pose proof (kept_merge_loop min_chunk_len refined [] []
                  ltac:(constructor) ltac:(constructor) Hkr) as Hmk.
    destruct (for_each_make_chunk_dict_exact ctx _ _ _ _ Hmk Hmb H) as [Hex Hmap].
    split; [done|]. rewrite Hmap.
    unfold merge_small_chunks. rewrite merge_loop_nonspace. simpl.
    rewrite Hnr. unfold pack_sentences. rewrite pack_loop_nonspace. simpl.
    apply nonspace_re_split.
Qed.

End Lossless.

(** X1: when the text cleaner filters characters (it keeps the space,
    leaves a text of kept characters as it is and outputs kept characters
    only), [recursive_semantic_chunk] loses no text: every returned dict is
    a chunk with a non-blank text, and the non-whitespace characters of the
    chunk texts, read in order, are those of the cleaned input. *)
Theorem chunking_loses_no_text (keep : ascii -> bool) (t : text)
    max_chunk_len min_chunk_len ctx (s : session) r s' :
  (forall x, Forall (fun c => keep c = true) (clean_text x)) ->
  (forall x, Forall (fun c => keep c = true) x -> clean_text x = x) ->
  keep " "%char = true ->
  recursive_semantic_chunk t max_chunk_len min_chunk_len ctx s = Some (r, s') ->
  Forall (fun d => d <> EmptyDict /\ blank (chunk_text d) = false) r
  /\ nonspace (concat (map chunk_text r)) = nonspace (clean_text t).
Proof.
  intros Hkeeps Hfixed Hspace Hrun.
  destruct (rsc_fuel_lossless keep Hkeeps Hfixed Hspace ctx _ _ _ _ _ _ _ Hrun)
    as [Hexact Htext].
  split; [|done].
  eapply Forall_impl; [exact Hexact|].
  intros [|c]; [done|]. by intros (_ & _ & Hnb).
Qed.

(** X2: [merge_small_chunks] returns no blank chunk, and the
    non-whitespace characters of its output, read in order, are those of
    its input: merging only moves whitespace. *)
Theorem merge_small_chunks_keeps_text (chunks : list piece) (min_len : Z) :
  Forall (fun m => blank m = false) (merge_small_chunks chunks min_len)
  /\ nonspace (concat (merge_small_chunks chunks min_len))
     = nonspace (concat (map piece_text chunks)).
Proof.
  split.
  - apply merge_loop_no_blank; [constructor|by left].
  - unfold merge_small_chunks. by rewrite merge_loop_nonspace.
Qed.

(** ** Every chunk is well formed *)

(** The fields of a chunk agree with each other. *)
Definition chunk_invariant ctx (d : chunk_dict) : Prop :=
  match d with
  | EmptyDict => True
  | Chunk c =>
      c_cleaned_text c = clean_text (c_text c)
      /\ blank (c_cleaned_text c) = false
      /\ c_semantic_hash c = make_semantic_hash (c_cleaned_text c)
      /\ c_tokens c = count_tokens (c_cleaned_text c)
      /\ (1 <= c_tokens c)%Z
      /\ c_source_type c = ctx_source_type ctx
  end.

Lemma count_tokens_positive (t : text) : blank t = false -> (1 <= count_tokens t)%Z.
Proof.
  intros Hnb. unfold count_tokens.
  destruct (split_ws t) as [|w ws] eqn:E; [|simpl; lia].
  apply split_ws_nil_iff in E. congruence.
Qed.

Lemma make_chunk_dict_invariant (t : text) ctx (s : session) :
  chunk_invariant ctx (make_chunk_dict t ctx s).1.
Proof.
  unfold make_chunk_dict. destruct (blank (clean_text t)) eqn:Hnb; [done|].
  pose proof (count_tokens_positive _ Hnb).
  destruct s as [d|]; [|done]. cbn [uuid4].
  by destruct (gci_select_by_hash _ _).
Qed.

Lemma for_each_make_chunk_dict_invariant ctx (l : list text) : forall s r s',
  for_each (fun ch => lift (make_chunk_dict ch ctx)) l s = Some (r, s') ->
  Forall (chunk_invariant ctx) r.
Proof.
  induction l as [|x l IH]; intros s r s'; simpl.
  - unfold ret. by intros [= <- _].
  - intros H. apply bind_Some in H as (d & s1 & Hd & H).
    apply bind_Some in H as (ds & s2 & Hds & H).
    unfold ret in H. injection H as <- <-.
    unfold lift in Hd. injection Hd as Hd.
    pose proof (make_chunk_dict_invariant x ctx s) as Hinv.
    rewrite Hd in Hinv. constructor; [done|]. by eapply IH.
Qed.

Lemma rsc_fuel_invariant ctx : forall (fuel : nat) (t : text) max_chunk_len min_chunk_len
    (s : session) r s',
  recursive_semantic_chunk_fuel fuel t max_chunk_len min_chunk_len ctx s = Some (r, s') ->
  Forall (chunk_invariant ctx) r.
Proof.
  induction fuel as [|fuel IH]; intros t max_chunk_len min_chunk_len s r s'; [done|].
  rewrite rsc_fuel_S. cbv zeta.
  destruct (blank (clean_text t)).
  { unfold ret. by intros [= <- _]. }
  destruct (len (clean_text t) <=? max_chunk_len)%Z.
  { intros H. apply bind_Some in H as (d & s1 & Hd & H).
    unfold ret in H. injection H as <- <-.
    unfold lift in Hd. injection Hd as Hd.
    pose proof (make_chunk_dict_invariant (clean_text t) ctx s) as Hinv.
    rewrite Hd in Hinv. by constructor. }
  destruct (length (re_split_sentences (clean_text t)) =? 1)%nat.
  - intros H. apply bind_Some in H as (l & s1 & Hl & H).
    apply bind_Some in H as (r0 & s2 & Hr & H).
    unfold ret in H. injection H as <- <-.
    apply Forall_app; split; by eapply IH.
  - intros H. apply bind_Some in H as (refined & s1 & Href & H).
    by eapply for_each_make_chunk_dict_invariant.
Qed.

(** X3: every chunk that [recursive_semantic_chunk] returns is well
    formed: its [cleaned_text] is the cleaned [text] and is not blank, its
    [semantic_hash] is the digest of that [cleaned_text], [tokens] is its
    token count and is at least 1, and [source_type] is the caller's. *)
Theorem recursive_semantic_chunk_well_formed (t : text) max_chunk_len min_chunk_len
    ctx (s : session) r s' :
  recursive_semantic_chunk t max_chunk_len min_chunk_len ctx s = Some (r, s') ->
  Forall (chunk_invariant ctx) r.
Proof. apply rsc_fuel_invariant. Qed.

(** ** Entries of the Global Content Index *)

(** X4: with an open session [make_chunk_dict] on a non-blank text returns
    a chunk whose [global_content_id] is the id of the index entry of its
    hash; the index gains that one key at most, and when the hash was
    indexed before, the entry keeps its id, its texts and its
    [first_seen_file_id]. *)
Theorem make_chunk_dict_index_entry (t : text) ctx (db : database) :
  blank (clean_text t) = false ->
  exists c db' row,
    make_chunk_dict t ctx (Some db) = (Chunk c, Some db')
    /\ gci db' !! make_semantic_hash (clean_text t) = Some row
    /\ c_global_content_id c = Some (gci_id row)
    /\ dom (gci db') = {[ make_semantic_hash (clean_text t) ]} ∪ dom (gci db)
    /\ (forall old, gci db !! make_semantic_hash (clean_text t) = Some old ->
          gci_id row = gci_id old
          /\ gci_cleaned_text row = gci_cleaned_text old
          /\ gci_raw_text row = gci_raw_text old
          /\ gci_first_seen_file_id row = gci_first_seen_file_id old).
Proof.
  intros Hnb. unfold make_chunk_dict. rewrite Hnb. cbn [uuid4].
  unfold gci_select_by_hash, gci_insert_on_conflict_do_nothing.
  cbn [gci gci_semantic_hash].
  destruct (gci db !! make_semantic_hash (clean_text t)) as [old|] eqn:E.
  - cbn [gci]. rewrite E. eexists _, _, _. split; [reflexivity|].
    unfold gci_increment_occurrence, set_gci. cbn [gci c_global_content_id].
    rewrite lookup_fmap, E. cbn [fmap option_fmap option_map].
    assert (gci_id (bump_occurrence (gci_id old) old) = gci_id old) as Hid
      by (unfold bump_occurrence; by destruct (N.eqb _ _)).
    split; [reflexivity|]. split; [by rewrite Hid|]. split.
    + rewrite dom_fmap_L. symmetry. apply subseteq_union_1_L.
      apply singleton_subseteq_l. by eapply elem_of_dom_2.
    + intros old' [= <-]. unfold bump_occurrence. by destruct (N.eqb _ _).
  - unfold set_gci at 1. cbn [gci]. rewrite lookup_insert_eq.
    eexists _, _, _. split; [reflexivity|].
    unfold gci_increment_occurrence, set_gci. cbn [gci gci_id c_global_content_id].
    rewrite lookup_fmap, lookup_insert_eq. cbn [fmap option_fmap option_map].
    split; [reflexivity|]. split.
    + unfold bump_occurrence. cbn [gci_id]. by rewrite N.eqb_refl.
    + split; [by rewrite dom_fmap_L, dom_insert_L|]. done.
Qed.

(** An index that only gains entries and counts. *)
Definition index_grows (g g' : gmap text GlobalContentIndexV2) : Prop :=
  forall h row, g !! h = Some row ->
    exists row', g' !! h = Some row'
      /\ gci_id row' = gci_id row
      /\ gci_cleaned_text row' = gci_cleaned_text row
      /\ (occurrence_count row <= occurrence_count row')%Z.

Definition grows {A} (m : M A) : Prop :=
  forall d r s', m (Some d) = Some (r, s') ->
    exists d', s' = Some d' /\ index_grows (gci d) (gci d').

Lemma index_grows_refl g : index_grows g g.
Proof. intros h row H. exists row. repeat split; [done|lia]. Qed.

Lemma index_grows_trans g1 g2 g3 :
  index_grows g1 g2 -> index_grows g2 g3 -> index_grows g1 g3.
Proof.
  intros H12 H23 h row H.
  destruct (H12 _ _ H) as (row2 & H2 & Hid2 & Hcl2 & Hc2).
  destruct (H23 _ _ H2) as (row3 & H3 & Hid3 & Hcl3 & Hc3).
  exists row3. repeat split; [done|congruence|congruence|lia].
Qed.

Lemma grows_ret {A} (a : A) : grows (ret a).
Proof. intros d r s' [= <- <-]. exists d. split; [done|apply index_grows_refl]. Qed.

Lemma grows_bind {A B} (m : M A) (k : A -> M B) :
  grows m -> (forall a, grows (k a)) -> grows (bind m k).
Proof.
  intros Hm Hk d r s' H. apply bind_Some in H as (a & s1 & Ha & H).
  destruct (Hm _ _ _ Ha) as (d1 & -> & H1).
  destruct (Hk _ _ _ _ H) as (d2 & -> & H2).
  exists d2. split; [done|]. by eapply index_grows_trans.
Qed.

Lemma bump_occurrence_grows (id : ident) (row : GlobalContentIndexV2) :
  gci_id (bump_occurrence id row) = gci_id row
  /\ gci_cleaned_text (bump_occurrence id row) = gci_cleaned_text row
  /\ (occurrence_count row <= occurrence_count (bump_occurrence id row))%Z.
Proof.
  unfold bump_occurrence. destruct (N.eqb _ _); simpl; repeat split; lia.
Qed.

Lemma grows_make_chunk_dict (t : text) ctx : grows (lift (make_chunk_dict t ctx)).
Proof.
  intros d r s'. unfold lift, make_chunk_dict.
  destruct (blank (clean_text t)).
  { intros [= <- <-]. exists d. split; [done|apply index_grows_refl]. }
  cbn [uuid4]. unfold gci_select_by_hash.
  set (d1 := gci_insert_on_conflict_do_nothing _ _).
  assert (index_grows (gci d) (gci d1)) as Hins.
  { unfold d1, gci_insert_on_conflict_do_nothing. cbn [gci gci_semantic_hash].
    destruct (gci d !! make_semantic_hash (clean_text t)) eqn:E;
      [apply index_grows_refl|].
    intros h row H. exists row. cbn [gci set_gci].
    rewrite lookup_insert_ne by congruence. repeat split; [done|lia]. }
  destruct (gci d1 !! make_semantic_hash (clean_text t)) as [row|];
    intros [= <- <-]; eexists; (split; [reflexivity|]); [|done].
  eapply index_grows_trans; [exact Hins|].
  intros h row0 H. exists (bump_occurrence (gci_id row) row0).
  unfold gci_increment_occurrence. cbn [gci set_gci].
  rewrite lookup_fmap, H. split; [done|]. apply bump_occurrence_grows.
Qed.

Lemma grows_for_each {A B} (f : A -> M B) (l : list A) :
  (forall x, grows (f x)) -> grows (for_each f l).
Proof.
  intros Hf. induction l as [|x l IH]; simpl; [apply grows_ret|].
  apply grows_bind; [apply Hf|]. intros y.
  apply grows_bind; [apply IH|]. intros ys. apply grows_ret.
Qed.

Lemma grows_refine_loop nested max_chunk_len (chunks : list text) :
  (forall ch, grows (nested ch)) -> grows (refine_loop nested max_chunk_len chunks).
Proof.
  intros Hn. induction chunks as [|ch rest IH]; simpl; [apply grows_ret|].
  destruct (len ch >? max_chunk_len)%Z.
  - apply grows_bind; [apply Hn|]. intros ds.
    apply grows_bind; [apply IH|]. intros ps. apply grows_ret.
  - apply grows_bind; [apply IH|]. intros ps. apply grows_ret.
Qed.

Lemma grows_rsc_fuel ctx : forall (fuel : nat) (t : text) max_chunk_len min_chunk_len,
  grows (recursive_semantic_chunk_fuel fuel t max_chunk_len min_chunk_len ctx).
Proof.
  induction fuel as [|fuel IH]; intros t max_chunk_len min_chunk_len;
    [by intros d r s'|].
  rewrite rsc_fuel_S. cbv zeta.
  destruct (blank (clean_text t)); [apply grows_ret|].
  destruct (len (clean_text t) <=? max_chunk_len)%Z.
  { apply grows_bind; [apply grows_make_chunk_dict|]. intros c. apply grows_ret. }
  destruct (length (re_split_sentences (clean_text t)) =? 1)%nat.
  - apply grows_bind; [apply IH|]. intros l.
    apply grows_bind; [apply IH|]. intros r. apply grows_ret.
  - apply grows_bind.
    + apply grows_refine_loop. intros ch. apply IH.
    + intros refined. apply grows_for_each. intros ch. apply grows_make_chunk_dict.
Qed.

(** X5: [recursive_semantic_chunk] never removes an entry of the Global
    Content Index, never changes the id or the cleaned text of one, and
    never lowers an [occurrence_count]. *)
Theorem recursive_semantic_chunk_index_grows (t : text) max_chunk_len min_chunk_len
    ctx (db : database) r s' :
  recursive_semantic_chunk t max_chunk_len min_chunk_len ctx (Some db) = Some (r, s') ->
  exists db', s' = Some db' /\ index_grows (gci db) (gci db').
Proof. apply grows_rsc_fuel. Qed.

(** ** Text without sentence breaks *)

Lemma re_split_from_unpunctuated (s : text) : forall acc,
  Forall (fun c => is_sentence_end c = false) s ->
  re_split_from false false acc s = [rev acc ++ s].
Proof.
  induction s as [|c s IH]; intros acc Hs; simpl.
  - by rewrite app_nil_r.
  - inversion Hs as [|? ? Hc Hs']; subst.
    destruct (Ascii.eqb c " "); [|rewrite Hc];
      rewrite IH by done; simpl; by rewrite <- app_assoc.
Qed.

Lemma rsc_fuel_agree ctx (t : text) max_chunk_len min_chunk_len (n m : nat)
    (s : session) x y :
  recursive_semantic_chunk_fuel n t max_chunk_len min_chunk_len ctx s = Some x ->
  recursive_semantic_chunk_fuel m t max_chunk_len min_chunk_len ctx s = Some y ->
  x = y.
Proof.
  intros Hn Hm.
  apply (rsc_fuel_mono ctx t max_chunk_len min_chunk_len n (Nat.max n m)) in Hn; [|lia].
  apply (rsc_fuel_mono ctx t max_chunk_len min_chunk_len m (Nat.max n m)) in Hm; [|lia].
  congruence.
Qed.

(** X6: a text whose cleaned form is longer than [max_chunk_len] and
    holds none of [.], [!], [?] is cut at its midpoint, and the result is
    the chunks of the left half followed by the chunks of the right half,
    each half chunked on its own with the default bounds 600 and 150. *)
Theorem unpunctuated_text_is_halved (t : text) max_chunk_len min_chunk_len ctx
    (s : session) :
  blank (clean_text t) = false ->
  (len (clean_text t) > max_chunk_len)%Z ->
  Forall (fun c => is_sentence_end c = false) (clean_text t) ->
  exists left s1 right s2,
    recursive_semantic_chunk
      (slice_to (Nat.div (length (clean_text t)) 2) (clean_text t))
      default_max_chunk_len default_min_chunk_len ctx s = Some (left, s1)
    /\ recursive_semantic_chunk
         (slice_from (Nat.div (length (clean_text t)) 2) (clean_text t))
         default_max_chunk_len default_min_chunk_len ctx s1 = Some (right, s2)
    /\ recursive_semantic_chunk t max_chunk_len min_chunk_len ctx s
       = Some (left ++ right, s2).
Proof.
  intros Hnb Hlong Hplain.
  set (mid := Nat.div (length (clean_text t)) 2).
  destruct (rsc_fuel_returns ctx (enough_fuel (slice_to mid (clean_text t)))
              (slice_to mid (clean_text t)) default_max_chunk_len
              default_min_chunk_len ltac:(unfold enough_fuel; lia) s)
    as (left & s1 & Hleft).
  destruct (rsc_fuel_returns ctx (enough_fuel (slice_from mid (clean_text t)))
              (slice_from mid (clean_text t)) default_max_chunk_len
              default_min_chunk_len ltac:(unfold enough_fuel; lia) s1)
    as (right & s2 & Hright).
  exists left, s1, right, s2. split; [exact Hleft|]. split; [exact Hright|].
  pose proof (clean_text_length t) as Hclean.
  pose proof (blank_false_length _ Hnb) as Hpos.
  assert (mid < length (clean_text t)) as Hmid by (apply Nat.div_lt; lia).
  unfold recursive_semantic_chunk at 1, enough_fuel.
  replace (length t + 2) with (S (length t + 1)) by lia.
  rewrite rsc_single_sentence_halved; [|done|done|].
  2:{ unfold re_split_sentences. by rewrite re_split_from_unpunctuated. }
  cbv zeta. fold mid.
  destruct (rsc_nested_returns ctx (length t + 1) (slice_to mid (clean_text t))
              ltac:(unfold slice_to; rewrite length_firstn; lia) s)
    as (left' & s1' & Hleft').
  pose proof (rsc_fuel_agree _ _ _ _ _ _ _ _ _ Hleft' Hleft) as [= -> ->].
  destruct (rsc_nested_returns ctx (length t + 1) (slice_from mid (clean_text t))
              ltac:(unfold slice_from; rewrite length_skipn; lia) s1)
    as (right' & s2' & Hright').
  pose proof (rsc_fuel_agree _ _ _ _ _ _ _ _ _ Hright' Hright) as [= -> ->].
  unfold bind. rewrite Hleft', Hright'. reflexivity.
Qed.

End WithCollaborators.

(** ** Concrete runs *)

(** The results above hold for every digest; the runs below put the
    identity in the place of SHA-256 and use the Text Normalizer of the
    spec as the cleaner. *)
Definition plain_digest (t : text) : text := t.

Definition no_context : chunk_context :=
  {| ctx_file_id := None; ctx_business_id := None; ctx_source_type := None |}.

Definition empty_database : database :=
  {| files := []; contents := []; gci := ∅; uuid_counter := 0 |}.

Definition shared_sentence : text := txt "Q4 revenue grew 18% year over year.".

Definition three_sentences : text := txt "aaaa. bbbb. cccc.".

Definition chunk_texts (r : option (list chunk_dict * session)) : list (option text) :=
  match r with
  | Some (ds, _) => map get_text ds
  | None => []
  end.

Example three_sentences_merged :
  chunk_texts (recursive_semantic_chunk TextCleaner.clean_text plain_digest
                 three_sentences 10 8 no_context None)
  = [Some three_sentences].
Proof. vm_compute. reflexivity. Qed.

Example three_sentences_kept_apart :
  chunk_texts (recursive_semantic_chunk TextCleaner.clean_text plain_digest
                 three_sentences 10 3 no_context None)
  = [Some (txt "aaaa."); Some (txt "bbbb."); Some (txt "cccc.")].
Proof. vm_compute. reflexivity. Qed.

Example long_token_halved :
  chunk_texts (recursive_semantic_chunk TextCleaner.clean_text plain_digest
                 (txt "aaaabbbbccccdddd") 10 3 no_context None)
  = [Some (txt "aaaabbbb"); Some (txt "ccccdddd")].
Proof. vm_compute. reflexivity. Qed.

Example blank_text_no_chunks :
  chunk_texts (recursive_semantic_chunk TextCleaner.clean_text plain_digest
                 (txt "   ") 600 150 no_context None)
  = [].
Proof. vm_compute. reflexivity. Qed.

Lemma shared_sentence_not_blank :
  blank (TextCleaner.clean_text shared_sentence) = false.
Proof. vm_compute. reflexivity. Qed.

Lemma make_chunk_dict_occurrence_count_witness :
  exists d db' row,
    make_chunk_dict TextCleaner.clean_text plain_digest shared_sentence
      no_context (Some empty_database) = (d, Some db')
    /\ gci db' !! plain_digest (TextCleaner.clean_text shared_sentence) = Some row
    /\ occurrence_count row = 2%Z.
Proof.
  pose proof (make_chunk_dict_occurrence_count TextCleaner.clean_text plain_digest
                shared_sentence no_context empty_database
                shared_sentence_not_blank) as H.
  change (gci empty_database) with (∅ : gmap text GlobalContentIndexV2) in H.
  rewrite lookup_empty in H. exact H.
Defined.

(** The same sentence ingested a second time: the counter reads 3. *)
Lemma shared_sentence_second_ingest :
  exists d1 db1 d2 db2 row,
    make_chunk_dict TextCleaner.clean_text plain_digest shared_sentence
      no_context (Some empty_database) = (d1, Some db1)
    /\ make_chunk_dict TextCleaner.clean_text plain_digest shared_sentence
         no_context (Some db1) = (d2, Some db2)
    /\ gci db2 !! plain_digest (TextCleaner.clean_text shared_sentence) = Some row
    /\ occurrence_count row = 3%Z.
Proof.
  destruct (make_chunk_dict_counter TextCleaner.clean_text plain_digest
              shared_sentence no_context empty_database shared_sentence_not_blank)
    as (d1 & db1 & row1 & Hrun1 & Hrow1 & Hcount1).
  change (gci empty_database) with (∅ : gmap text GlobalContentIndexV2) in Hcount1.
  rewrite lookup_empty in Hcount1.
  destruct (make_chunk_dict_counter TextCleaner.clean_text plain_digest
              shared_sentence no_context db1 shared_sentence_not_blank)
    as (d2 & db2 & row2 & Hrun2 & Hrow2 & Hcount2).
  rewrite Hrow1, Hcount1 in Hcount2.
  by exists d1, db1, d2, db2, row2.
Qed.

Lemma three_sentences_run :
  recursive_semantic_chunk TextCleaner.clean_text plain_digest
    three_sentences 10 8 no_context None
  = Some ([Chunk {| c_text := three_sentences;
                    c_cleaned_text := three_sentences;
                    c_tokens := 3;
                    c_semantic_hash := three_sentences;
                    c_global_content_id := None;
                    c_source_type := None |}], None).
Proof. vm_compute. reflexivity. Qed.

(** C3, counterexample: with [max_chunk_len = 10] and [min_chunk_len = 8]
    the three five-character sentences of ["aaaa. bbbb. cccc."] are packed
    apart and then joined again by the merge pass, so the call returns one
    chunk of 17 characters and three tokens. *)
Lemma chunk_bound_counterexample :
  ~ chunk_bound_claim TextCleaner.clean_text plain_digest three_sentences 10 8.
Proof.
  intros H.
  specialize (H no_context None _ _ three_sentences_run).
  inversion H as [|d ds Hd _]; subst.
  destruct Hd as [Hlen|Htok]; vm_compute in Hlen || vm_compute in Htok; congruence.
Qed.

Lemma three_sentences_not_blank :
  blank (TextCleaner.clean_text three_sentences) = false.
Proof. vm_compute. reflexivity. Qed.

Lemma three_sentences_length :
  (len (TextCleaner.clean_text three_sentences) <= 17)%Z.
Proof. vm_compute. discriminate. Qed.

Lemma chunk_bound_amended_witness :
  exists d s',
    recursive_semantic_chunk TextCleaner.clean_text plain_digest
      three_sentences 17 8 no_context None = Some ([d], s')
    /\ exists c, d = Chunk c
                 /\ c_text c = TextCleaner.clean_text three_sentences
                 /\ c_cleaned_text c = TextCleaner.clean_text three_sentences.
Proof.
  destruct (proj1 (chunk_bound_amended TextCleaner.clean_text plain_digest)
              three_sentences 17%Z 8%Z no_context None
              three_sentences_not_blank three_sentences_length)
    as (d & s' & Hrun & Hchunk).
  exists d, s'. split; [exact Hrun|].
  exact (Hchunk (TextCleaner.clean_text_idempotent three_sentences)).
Defined.

Lemma recursive_semantic_chunk_terminates_witness :
  exists r s',
    recursive_semantic_chunk TextCleaner.clean_text plain_digest
      (txt "aaaabbbbccccdddd") 10 3 no_context None = Some (r, s').
Proof.
  exact (recursive_semantic_chunk_terminates TextCleaner.clean_text plain_digest
           TextCleaner.clean_text_length (txt "aaaabbbbccccdddd") 10%Z 3%Z
           no_context None).
Defined.

(** The chunk that the three sentences come back as. *)
Definition three_sentences_chunk : chunk_dict :=
  Chunk {| c_text := three_sentences;
           c_cleaned_text := three_sentences;
           c_tokens := 3;
           c_semantic_hash := three_sentences;
           c_global_content_id := None;
           c_source_type := None |}.

Lemma chunking_loses_no_text_witness :
  Forall (fun d => d <> EmptyDict /\ blank (chunk_text d) = false)
         [three_sentences_chunk]
  /\ nonspace (concat (map chunk_text [three_sentences_chunk]))
     = nonspace (TextCleaner.clean_text three_sentences).
Proof.
  exact (chunking_loses_no_text TextCleaner.clean_text plain_digest TextCleaner.keeps
           three_sentences 10%Z 8%Z no_context None [three_sentences_chunk] None
           TextCleaner.clean_text_keeps TextCleaner.clean_text_fixed eq_refl
           three_sentences_run).
Defined.

Lemma recursive_semantic_chunk_well_formed_witness :
  Forall (chunk_invariant TextCleaner.clean_text plain_digest no_context)
         [three_sentences_chunk].
Proof.
  exact (recursive_semantic_chunk_well_formed TextCleaner.clean_text plain_digest
           three_sentences 10%Z 8%Z no_context None [three_sentences_chunk] None
           three_sentences_run).
Defined.

Lemma make_chunk_dict_index_entry_witness :
  exists c db' row,
    make_chunk_dict TextCleaner.clean_text plain_digest shared_sentence
      no_context (Some empty_database) = (Chunk c, Some db')
    /\ gci db' !! plain_digest (TextCleaner.clean_text shared_sentence) = Some row
    /\ c_global_content_id c = Some (gci_id row).
Proof.
  destruct (make_chunk_dict_index_entry TextCleaner.clean_text plain_digest
              shared_sentence no_context empty_database shared_sentence_not_blank)
    as (c & db' & row & Hrun & Hrow & Hid & _).
  exists c, db', row. split; [exact Hrun|]. split; [exact Hrow|exact Hid].
Defined.

(** The three sentences chunked against the empty index. *)
Lemma three_sentences_indexed_run :
  exists r s',
    recursive_semantic_chunk TextCleaner.clean_text plain_digest
      three_sentences 10 8 no_context (Some empty_database) = Some (r, s').
Proof.
  destruct (recursive_semantic_chunk TextCleaner.clean_text plain_digest
              three_sentences 10 8 no_context (Some empty_database))
    as [[r s']|] eqn:E.
  - by exists r, s'.
  - vm_compute in E. discriminate E.
Qed.

Lemma recursive_semantic_chunk_index_grows_witness :
  exists r db',
    recursive_semantic_chunk TextCleaner.clean_text plain_digest
      three_sentences 10 8 no_context (Some empty_database) = Some (r, Some db')
    /\ index_grows (gci empty_database) (gci db').
Proof.
  destruct three_sentences_indexed_run as (r & s' & Hrun).
  destruct (recursive_semantic_chunk_index_grows TextCleaner.clean_text plain_digest
              three_sentences 10%Z 8%Z no_context empty_database r s' Hrun)
    as (db' & Hs' & Hgrows).
  exists r, db'. split; [|exact Hgrows]. rewrite Hrun, Hs'. reflexivity.
Defined.

Definition one_long_token : text := txt "aaaabbbbccccdddd".

Lemma one_long_token_unpunctuated :
  Forall (fun c => is_sentence_end c = false) (TextCleaner.clean_text one_long_token).
Proof. vm_compute. repeat constructor. Qed.

Lemma unpunctuated_text_is_halved_witness :
  exists left right s2,
    recursive_semantic_chunk TextCleaner.clean_text plain_digest
      one_long_token 10 3 no_context None = Some (left ++ right, s2).
Proof.
  destruct (unpunctuated_text_is_halved TextCleaner.clean_text plain_digest
              TextCleaner.clean_text_length one_long_token 10%Z 3%Z no_context None
              eq_refl eq_refl one_long_token_unpunctuated)
    as (left & s1 & right & s2 & _ & _ & Hrun).
  exists left, right, s2. exact Hrun.
Defined.

End Segmenter.

(* ===================================================================== *)
(** * ingestion_service_v2.py                                             *)
(* ===================================================================== *)

Module Ingestion.
Import Text Exceptions Schema Segmenter.

(** The two stores: the relational one and the Chroma collection, whose
    ids are semantic hashes. *)
Record world := {
  db : database;
  chroma : gset text;
}.

Definition set_db (d : database) (w : world) : world :=
  {| db := d; chroma := chroma w |}.

(** Effectful code of the service: it runs on the two stores and either
    returns or raises. *)
Definition W (A : Type) : Type := world -> outcome A * world.

Definition wret {A} (a : A) : W A := fun w => (Return a, w).

Definition wraise {A} (e : exn) : W A := fun w => (Raise e, w).

Definition wbind {A B} (m : W A) (k : A -> W B) : W B :=
  fun w => match m w with
           | (Return a, w') => k a w'
           | (Raise e, w') => (Raise e, w')
           end.

(** [try: m except Exception as e: handler(e)] *)
Definition try_except {A} (m : W A) (handler : exn -> W A) : W A :=
  fun w => match m w with
           | (Return a, w') => (Return a, w')
           | (Raise e, w') => handler e w'
           end.

Notation "x <- m ;; k" := (wbind m (fun x => k))
  (at level 100, m at next level, right associativity).
Notation "m ;;; k" := (wbind m (fun _ => k))
  (at level 100, right associativity).

Definition of_outcome {A} (o : outcome A) : W A := fun w => (o, w).

(** A statement executed on the session; the store itself never fails. *)
Definition execute (f : database -> database) : W unit :=
  fun w => (Return tt, set_db (f (db w)) w).

Definition query {A} (f : database -> A) : W A :=
  fun w => (Return (f (db w)), w).

(** [Result.scalar_one_or_none()] *)
Definition scalar_one_or_none {A} (rows : list A) : outcome (option A) :=
  match rows with
  | [] => Return None
  | [x] => Return (Some x)
  | _ => Raise (Exception (txt "Multiple rows were found when one or none was required"))
  end.

(** ** Row updates *)

Definition with_status (st : file_status) (total : Z) (r : IngestedFileV2) : IngestedFileV2 :=
  {| file_id := file_id r; file_business_id := file_business_id r;
     file_type := file_type r; file_path := file_path r;
     file_hash := file_hash r; parser_used := parser_used r;
     status := st; total_chunks := total; error_message := error_message r |}.

Definition with_error (msg : text) (r : IngestedFileV2) : IngestedFileV2 :=
  {| file_id := file_id r; file_business_id := file_business_id r;
     file_type := file_type r; file_path := file_path r;
     file_hash := file_hash r; parser_used := parser_used r;
     status := failed; total_chunks := total_chunks r;
     error_message := Some msg |}.

Definition with_file_hash (h : text) (r : IngestedFileV2) : IngestedFileV2 :=
  {| file_id := file_id r; file_business_id := file_business_id r;
     file_type := file_type r; file_path := file_path r;
     file_hash := Some h; parser_used := parser_used r;
     status := status r; total_chunks := total_chunks r;
     error_message := error_message r |}.

Definition with_parser_used (p : text) (r : IngestedFileV2) : IngestedFileV2 :=
  {| file_id := file_id r; file_business_id := file_business_id r;
     file_type := file_type r; file_path := file_path r;
     file_hash := file_hash r; parser_used := Some p;
     status := status r; total_chunks := total_chunks r;
     error_message := error_message r |}.

(** [update(IngestedFileV2).where(IngestedFileV2.id == id).values(...)] *)
Definition update_file (id : ident) (f : IngestedFileV2 -> IngestedFileV2)
    (d : database) : database :=
  set_files (map (fun r => if N.eqb (file_id r) id then f r else r) (files d)) d.

Definition text_eqb (a b : text) : bool := bool_decide (a = b).

Definition opt_text_eqb (a : option text) (b : text) : bool :=
  match a with Some x => text_eqb x b | None => false end.

(** [_update_file_status] *)
Definition _update_file_status (id : ident) (total : Z) (st : file_status) : W unit :=
  execute (update_file id (with_status st total)).

(** [_set_file_error]: the message is cut to 255 characters. *)
Definition _set_file_error (id : ident) (error_message : text) : W unit :=
  execute (update_file id (with_error (slice_to 255 error_message))).

(** [_get_file_record] *)
Definition _get_file_record (id : ident) : W (option IngestedFileV2) :=
  rows <- query (fun d => List.filter (fun r => N.eqb (file_id r) id) (files d)) ;;
  of_outcome (scalar_one_or_none rows).

(** ** Chunk deduplication and insertion *)

(** The hashes of the batch: [c.get("semantic_hash")] where truthy. *)
Definition batch_hashes (chunks : list chunk_dict) : list text :=
  flat_map (fun c => match get_semantic_hash c with
                     | Some (a :: h) => [a :: h]
                     | _ => []
                     end) chunks.

Definition mem_text (h : text) (l : list text) : bool :=
  existsb (text_eqb h) l.

(** [select(IngestedContentV2.semantic_hash).where(file_id == id,
      semantic_hash.in_(hashes))] *)
Definition existing_hashes (id : ident) (hashes : list text) (d : database) : list text :=
  flat_map (fun r =>
              match content_semantic_hash r with
              | Some h => if N.eqb (content_file_id r) id && mem_text h hashes
                          then [h] else []
              | None => []
              end) (contents d).

(** [c.get("semantic_hash") not in existing] *)
Definition not_in_existing (existing : list text) (c : chunk_dict) : bool :=
  match get_semantic_hash c with
  | Some h => negb (mem_text h existing)
  | None => true
  end.

(** [_dedup_chunks] *)
Definition _dedup_chunks (chunks : list chunk_dict) (id : ident) : W (list chunk_dict) :=
  let hashes := batch_hashes chunks in
  match hashes with
  | [] => wret []
  | _ =>
      existing <- query (existing_hashes id hashes) ;;
      wret (List.filter (not_in_existing existing) chunks)
  end.

(** [select(func.max(IngestedContentV2.chunk_index)).where(file_id == id)],
    [None] when the file has no chunk. *)
Definition max_chunk_index (id : ident) (d : database) : option Z :=
  fold_left (fun acc r =>
               if N.eqb (content_file_id r) id
               then match acc with
                    | None => Some (chunk_index r)
                    | Some m => Some (Z.max m (chunk_index r))
                    end
               else acc) (contents d) None.

(** [x or -1] on an optional integer: [None] and [0] are both falsy. *)
Definition or_minus_one (x : option Z) : Z :=
  match x with
  | None => -1
  | Some 0%Z => -1
  | Some v => v
  end.

Definition content_row (id file : ident) (business : option ident) (index : Z)
    (c : chunk_dict) : IngestedContentV2 :=
  {| content_id := id;
     content_file_id := file;
     content_business_id := business;
     chunk_index := index;
     content_text := get_text c;
     content_cleaned_text := get_cleaned_text c;
     content_tokens := match c with Chunk k => Some (c_tokens k) | EmptyDict => None end;
     content_source_type := match c with Chunk k => c_source_type k | EmptyDict => None end;
     content_semantic_hash := get_semantic_hash c;
     content_global_content_id :=
       match c with Chunk k => c_global_content_id k | EmptyDict => None end;
     is_duplicate := false |}.

(** The list comprehension of [_insert_chunks]: row [i] gets
    [chunk_index = start_index + i] and a fresh id. *)
Fixpoint build_rows (file : ident) (business : option ident) (index : Z)
    (chunks : list chunk_dict) (d : database) : list IngestedContentV2 * database :=
  match chunks with
  | [] => ([], d)
  | c :: rest =>
      let '(id, d) := uuid4 d in
      let '(rows, d) := build_rows file business (index + 1) rest d in
      (content_row id file business index c :: rows, d)
  end.

(** [_insert_chunks] *)
Definition _insert_chunks (file : ident) (business : option ident)
    (chunks : list chunk_dict) : W unit :=
  execute (fun d =>
    let start_index := (or_minus_one (max_chunk_index file d) + 1)%Z in
    let '(db_rows, d) := build_rows file business start_index chunks d in
    set_contents (contents d ++ db_rows) d).

(** ** The parsed payload *)

(** What [_extract_chunks] reads of the parsed dict: whether the dict is
    truthy, the list found under [entries], [rows] or [chunks] (each item
    after the defensive coercion to a string, [None] for an item that is
    skipped), and the string that [_resolve_text] makes of the dict. *)
Record parsed_payload := {
  pp_truthy : bool;
  pp_items : option (list (option text));
  pp_resolved_text : text;
}.

Section WithCollaborators.

(** The text cleaner and the digest of the segmenter. *)
Variable clean_text : text -> text.
Variable make_semantic_hash : text -> text.

(** [compute_file_hash]: the SHA-256 of the bytes under a path; it raises
    when the file cannot be read. *)
Variable compute_file_hash : text -> outcome text.

(** [ParserRouterV2.parse(file_path, file_type)] *)
Variable parse : option text -> text -> outcome parsed_payload.

(** [_looks_like_visual_content] and [_explain_visual_with_llm]; the
    latter returns the empty string when the rewrite fails. *)
Variable _looks_like_visual_content : text -> bool.
Variable _explain_visual_with_llm : text -> text.

(** Whether embedding and the Chroma calls of [_embed_and_store] go
    through; when they do not, the exception is logged and dropped. *)
Variable vector_store_ok : bool.

(** [_ensure_file_entry] *)
Definition _ensure_file_entry (file_record : IngestedFileV2) : W unit :=
  ids <- query (fun d =>
           map file_id
             (List.filter (fun r => N.eqb (file_id r) (file_id file_record)) (files d))) ;;
  existing <- of_outcome (scalar_one_or_none ids) ;;
  match existing with
  | Some _ => wret tt
  | None =>
      let meta_file_hash :=
        match file_path file_record with
        | Some (a :: p) =>
            match compute_file_hash (a :: p) with
            | Return h => Some h
            | Raise _ => file_hash file_record
            end
        | _ => file_hash file_record
        end in
      execute (fun d =>
        set_files (files d ++
          [{| file_id := file_id file_record;
              file_business_id := file_business_id file_record;
              file_type := file_type file_record;
              file_path := file_path file_record;
              file_hash := meta_file_hash;
              parser_used := parser_used file_record;
              status := uploaded;
              total_chunks := 0;
              error_message := None |}]) d)
  end.

(** [select(IngestedFileV2)
      .where(meta_data["file_hash"].astext == incoming_hash)
      .where(status == "processed")] *)
Definition processed_with_hash (incoming_hash : text) (d : database) : list IngestedFileV2 :=
  List.filter (fun r => opt_text_eqb (file_hash r) incoming_hash
                        && file_status_eqb (status r) processed) (files d).

(** The media-level dedup block of [process_file].  It answers [true]
    when the function has to return at once.  Whatever is raised inside
    the block is logged and dropped. *)
Definition media_dedup (file_record : IngestedFileV2) (path : text) : W bool :=
  try_except
    (incoming_hash <- of_outcome (compute_file_hash path) ;;
     rows <- query (processed_with_hash incoming_hash) ;;
     existing <- of_outcome (scalar_one_or_none rows) ;;
     match existing with
     | Some e =>
         if negb (N.eqb (file_id e) (file_id file_record))
         then _update_file_status (file_id file_record) 0 duplicate ;;; wret true
         else execute (update_file (file_id file_record) (with_file_hash incoming_hash)) ;;;
              wret false
     | None =>
         execute (update_file (file_id file_record) (with_file_hash incoming_hash)) ;;;
         wret false
     end)
    (fun _ => wret false).

(** [_parse_file] *)
Definition _parse_file (path : option text) (type : text) (id : ident) : W parsed_payload :=
  execute (update_file id (with_parser_used type)) ;;;
  of_outcome (parse path type).

(** A segmenter call made with the session of the service.  A call that
    exhausts its recursion budget stands for Python's [RecursionError],
    which [_extract_chunks] turns into its [RuntimeError]. *)
Definition run_segmenter {A} (m : M A) : W A :=
  fun w => match m (Some (db w)) with
           | Some (a, Some d) => (Return a, set_db d w)
           | Some (a, None) => (Return a, w)
           | None => (Raise (Exception (txt "Chunk extraction failed")), w)
           end.

(** The chunks of one text: the LLM explanation is chunked in its place
    when the text looks like a chart and the explanation is not empty. *)
Definition chunk_one_text (t : text) (ctx : chunk_context) : M (list chunk_dict) :=
  let rsc t' :=
    recursive_semantic_chunk clean_text make_semantic_hash t'
      default_max_chunk_len default_min_chunk_len ctx in
  if _looks_like_visual_content t
  then match _explain_visual_with_llm t with
       | [] => rsc t
       | explanation => rsc explanation
       end
  else rsc t.

(** The loop over [entries], [rows] or [chunks]. *)
Fixpoint chunk_items (items : list (option text)) (ctx : chunk_context)
    : M (list chunk_dict) :=
  match items with
  | [] => ret []
  | None :: rest => chunk_items rest ctx
  | Some raw_text :: rest =>
      match strip raw_text with
      | [] => chunk_items rest ctx
      | t =>
          bind (chunk_one_text t ctx) (fun subchunks =>
          bind (chunk_items rest ctx) (fun enriched =>
          ret (subchunks ++ enriched)))
      end
  end.

(** [_extract_chunks] *)
Definition _extract_chunks (payload : parsed_payload) (id : ident) (type : text)
    (business : option ident) : W (list chunk_dict) :=
  let ctx := {| ctx_file_id := Some id;
                ctx_business_id := business;
                ctx_source_type := Some type |} in
  match pp_items payload with
  | Some items => run_segmenter (chunk_items items ctx)
  | None =>
      match pp_resolved_text payload with
      | [] => wret []
      | t => run_segmenter (chunk_one_text t ctx)
      end
  end.

(** [_embed_and_store]: a hash is embedded and upserted when the Global
    Content Index does not know it or Chroma does not hold it. *)
Definition _embed_and_store (chunks : list chunk_dict) : W unit :=
  fun w =>
    if vector_store_ok then
      let all_hashes := batch_hashes chunks in
      let known h := bool_decide (is_Some (gci (db w) !! h)) in
      let present_in_chroma h := known h && bool_decide (h ∈ chroma w) in
      let needing :=
        List.filter (fun h => negb (known h) || negb (present_in_chroma h)) all_hashes in
      (Return tt, {| db := db w; chroma := chroma w ∪ list_to_set needing |})
    else (Return tt, w).

(** [_run_pipeline] *)
Definition _run_pipeline (file_record : IngestedFileV2) (parsed : parsed_payload) : W unit :=
  _ensure_file_entry file_record ;;;
  let id := file_id file_record in
  let business := file_business_id file_record in
  chunks <- _extract_chunks parsed id (file_type file_record) business ;;
  match chunks with
  | [] => wret tt
  | _ =>
      unique_chunks <- _dedup_chunks chunks id ;;
      match unique_chunks with
      | [] => _update_file_status id 0 processed
      | _ =>
          _insert_chunks id business unique_chunks ;;;
          _embed_and_store unique_chunks ;;;
          _update_file_status id (Z.of_nat (length unique_chunks)) processed
      end
  end.

(** What [process_file] does once the media-level dedup has let it pass. *)
Definition process_after_dedup (file_record : option IngestedFileV2)
    (path : option text) : W unit :=
  match file_record with
  | None =>
      match path with
      | Some (a :: p) =>
          (* building [new_file] reads the undefined name [media_hash] *)
          _ <- of_outcome (compute_file_hash (a :: p)) ;;
          wraise (Exception (txt "name 'media_hash' is not defined"))
      | _ => wret tt
      end
  | Some fr =>
      _ensure_file_entry fr ;;;
      parsed <- _parse_file (file_path fr) (file_type fr) (file_id fr) ;;
      if pp_truthy parsed then _run_pipeline fr parsed else wret tt
  end.

(** [process_file] *)
Definition process_file (id : ident) (path : option text) (business : option ident) : W unit :=
  try_except
    (file_record <- _get_file_record id ;;
     stop <- match file_record with
             | Some fr =>
                 match file_path fr with
                 | Some (a :: p) => media_dedup fr (a :: p)
                 | _ => wret false
                 end
             | None => wret false
             end ;;
     if (stop : bool) then wret tt else process_after_dedup file_record path)
    (fun e => _set_file_error id (str_of_exn e)).

(** [ingest_parsed_output] *)
Definition ingest_parsed_output (id : ident) (parsed_output : parsed_payload) : W unit :=
  try_except
    (file_record <- _get_file_record id ;;
     match file_record with
     | None => wret tt
     | Some fr => _ensure_file_entry fr ;;; _run_pipeline fr parsed_output
     end)
    (fun e => _set_file_error id (str_of_exn e)).

(** ** Chunk-level deduplication *)

Lemma text_eqb_eq (a b : text) : text_eqb a b = true <-> a = b.
Proof. unfold text_eqb. apply bool_decide_eq_true. Qed.

Lemma mem_text_In (h : text) (l : list text) : mem_text h l = true <-> In h l.
Proof.
  unfold mem_text. rewrite existsb_exists. split.
  - intros (x & Hx & Heq). apply text_eqb_eq in Heq. by subst.
  - intros Hin. exists h. split; [done|]. by apply text_eqb_eq.
Qed.

Lemma batch_hashes_In (chunks : list chunk_dict) (h : text) :
  In h (batch_hashes chunks) <->
  h <> [] /\ exists c, In c chunks /\ get_semantic_hash c = Some h.
Proof.
  unfold batch_hashes. rewrite in_flat_map. split.
  - intros (c & Hc & Hin).
    destruct (get_semantic_hash c) as [[|a k]|] eqn:E; simpl in Hin; try done.
    destruct Hin as [<-|[]]. split; [done|]. by exists c.
  - intros (Hne & c & Hc & Hh). exists c. split; [done|]. rewrite Hh.
    destruct h; [done|]. by left.
Qed.

Lemma existing_hashes_In (id : ident) (hashes : list text) (d : database) (h : text) :
  In h (existing_hashes id hashes d) <->
  In h hashes /\ exists row, In row (contents d)
                  /\ content_file_id row = id
                  /\ content_semantic_hash row = Some h.
Proof.
  unfold existing_hashes. rewrite in_flat_map. split.
  - intros (row & Hrow & Hin).
    destruct (content_semantic_hash row) as [k|] eqn:E; [|done].
    destruct (N.eqb (content_file_id row) id) eqn:Eid; [|done].
    destruct (mem_text k hashes) eqn:Emem; [|done].
    simpl in Hin. destruct Hin as [<-|[]].
    apply N.eqb_eq in Eid. apply mem_text_In in Emem.
    split; [done|]. by exists row.
  - intros (Hin & row & Hrow & Hid & Hh). exists row. split; [done|].
    rewrite Hh. subst id. rewrite N.eqb_refl.
    apply mem_text_In in Hin. rewrite Hin. by left.
Qed.

(** C5: [_dedup_chunks] drops a chunk of the batch exactly when a Chunk
    Record with the same [file_id] and the same [semantic_hash] exists;
    rows of other files and entries of the Global Content Index play no
    part, so a chunk whose hash is known only there is retained.  The
    stores are left as they were. *)
Theorem dedup_chunks_scoped_to_file (chunks : list chunk_dict) (id : ident)
    (w : world) (c : chunk_dict) (h : text) :
  In c chunks ->
  get_semantic_hash c = Some h ->
  h <> [] ->
  exists unique_chunks,
    _dedup_chunks chunks id w = (Return unique_chunks, w)
    /\ (In c unique_chunks <->
        ~ exists row, In row (contents (db w))
            /\ content_file_id row = id
            /\ content_semantic_hash row = Some h).
Proof.
  intros Hc Hh Hne.
  assert (In h (batch_hashes chunks)) as Hbatch.
  { apply batch_hashes_In. split; [done|]. by exists c. }
  unfold _dedup_chunks.
  destruct (batch_hashes chunks) as [|h0 hs] eqn:E; [done|].
  unfold wbind, query, wret.
  eexists. split; [reflexivity|].
  rewrite filter_In. unfold not_in_existing. rewrite Hh.
  rewrite negb_true_iff, <- not_true_iff_false, mem_text_In, existing_hashes_In.
  split.
  - intros [_ Hnot] Hrow. apply Hnot. by split.
  - intros Hnot. split; [done|]. intros [_ Hrow]. by apply Hnot.
Qed.

(** ** Chunk insertion *)

Lemma build_rows_chunk_index (file : ident) (business : option ident)
    (chunks : list chunk_dict) : forall (start : Z) (d : database),
  map chunk_index (build_rows file business start chunks d).1
  = map (fun i => (start + Z.of_nat i)%Z) (seq 0 (length chunks)).
Proof.
  induction chunks as [|c rest IH]; intros start d; [done|].
  cbn [build_rows uuid4]. 
  destruct (build_rows file business (start + 1) rest _) as [rows d'] eqn:E.
  cbn [fst map length seq chunk_index content_row].
  f_equal; [lia|].
  specialize (IH (start + 1)%Z
    {| files := files d; contents := contents d; gci := gci d;
       uuid_counter := N.succ (uuid_counter d) |}).
  rewrite E in IH. cbn [fst] in IH. rewrite IH.
  rewrite <- seq_shift, map_map. apply map_ext. intros i. lia.
Qed.

Lemma build_rows_file_id (file : ident) (business : option ident)
    (chunks : list chunk_dict) : forall (start : Z) (d : database),
  Forall (fun r => content_file_id r = file) (build_rows file business start chunks d).1.
Proof.
  induction chunks as [|c rest IH]; intros start d; [constructor|].
  cbn [build_rows uuid4].
  specialize (IH (start + 1)%Z
    {| files := files d; contents := contents d; gci := gci d;
       uuid_counter := N.succ (uuid_counter d) |}).
  destruct (build_rows file business (start + 1) rest _) as [rows d'].
  by constructor.
Qed.

(** The rows that [_insert_chunks] appends carry the indices
    [start_index], [start_index + 1], ... in the order of the chunks,
    where [start_index] is [(max or -1) + 1]. *)
Lemma insert_chunks_indices (file : ident) (business : option ident)
    (chunks : list chunk_dict) (w : world) :
  exists w' rows,
    _insert_chunks file business chunks w = (Return tt, w')
    /\ contents (db w') = contents (db w) ++ rows
    /\ Forall (fun r => content_file_id r = file) rows
    /\ map chunk_index rows
       = map (fun i => (or_minus_one (max_chunk_index file (db w)) + 1 + Z.of_nat i)%Z)
             (seq 0 (length chunks)).
Proof.
  unfold _insert_chunks, execute.
  pose proof (build_rows_chunk_index file business chunks
                (or_minus_one (max_chunk_index file (db w)) + 1) (db w)) as Hidx.
  pose proof (build_rows_file_id file business chunks
                (or_minus_one (max_chunk_index file (db w)) + 1) (db w)) as Hfile.
  destruct (build_rows file business _ chunks (db w)) as [rows d'] eqn:E.
  assert (contents d' = contents (db w)) as Hsame.
  { clear Hidx Hfile. revert E. generalize (or_minus_one (max_chunk_index file (db w)) + 1)%Z.
    generalize (db w). revert rows d'.
    induction chunks as [|c rest IH]; intros rows d' d0 start.
    - by intros [= <- <-].
    - cbn [build_rows uuid4].
      destruct (build_rows file business (start + 1) rest _) as [rows1 d1] eqn:E1.
      intros [= <- <-]. by apply IH in E1. }
  eexists _, rows. split; [reflexivity|].
  cbn [db set_db contents set_contents]. rewrite Hsame. by repeat split.
Qed.

(** A file without chunks starts at index 0. *)
Lemma start_index_no_chunks (file : ident) (d : database) :
  max_chunk_index file d = None ->
  (or_minus_one (max_chunk_index file d) + 1 = 0)%Z.
Proof. by intros ->. Qed.

(** A file whose largest index is not 0 continues right after it. *)
Lemma start_index_after_max (file : ident) (d : database) (m : Z) :
  max_chunk_index file d = Some m -> m <> 0%Z ->
  (or_minus_one (max_chunk_index file d) + 1 = m + 1)%Z.
Proof. intros -> Hm. by destruct m. Qed.

(** A file whose largest index is 0 starts at 0 again: [0 or -1] is [-1]. *)
Lemma start_index_at_zero (file : ident) (d : database) :
  max_chunk_index file d = Some 0%Z ->
  (or_minus_one (max_chunk_index file d) + 1 = 0)%Z.
Proof. by intros ->. Qed.

(** ** The pipeline *)

Lemma ensure_file_entry_existing (fr : IngestedFileV2) (w : world) (x : ident) :
  map file_id (List.filter (fun r => N.eqb (file_id r) (file_id fr)) (files (db w))) = [x] ->
  _ensure_file_entry fr w = (Return tt, w).
Proof.
  intros H. unfold _ensure_file_entry, wbind, query, of_outcome. by rewrite H.
Qed.

Lemma keeps_tables_chunk_one_text (t : text) ctx :
  keeps_tables (chunk_one_text t ctx).
Proof.
  unfold chunk_one_text.
  destruct (_looks_like_visual_content t); [|apply keeps_tables_rsc].
  destruct (_explain_visual_with_llm t); apply keeps_tables_rsc.
Qed.

Lemma keeps_tables_chunk_items (items : list (option text)) ctx :
  keeps_tables (chunk_items items ctx).
Proof.
  induction items as [|[raw|] rest IH]; simpl; [apply keeps_tables_ret| |done].
  destruct (strip raw) eqn:E; [done|].
  apply keeps_tables_bind; [apply keeps_tables_chunk_one_text|]. intros subchunks.
  apply keeps_tables_bind; [done|]. intros enriched. apply keeps_tables_ret.
Qed.

(** Chunk extraction writes to the Global Content Index only. *)
Lemma extract_chunks_tables (payload : parsed_payload) (id : ident) (type : text)
    (business : option ident) (w w' : world) (o : outcome (list chunk_dict)) :
  _extract_chunks payload id type business w = (o, w') ->
  files (db w') = files (db w)
  /\ contents (db w') = contents (db w)
  /\ chroma w' = chroma w.
Proof.
  assert (forall (m : M (list chunk_dict)), keeps_tables m ->
            run_segmenter m w = (o, w') ->
            files (db w') = files (db w) /\ contents (db w') = contents (db w)
            /\ chroma w' = chroma w) as Hrun.
  { intros m Hm. unfold run_segmenter.
    destruct (m (Some (db w))) as [[a s']|] eqn:E; [|by intros [= _ <-]].
    destruct (Hm _ _ _ E) as (d' & -> & Hf & Hc). by intros [= _ <-]. }
  unfold _extract_chunks.
  destruct (pp_items payload) as [items|].
  - apply Hrun, keeps_tables_chunk_items.
  - destruct (pp_resolved_text payload) eqn:E; [by intros [= _ <-]|].
    apply Hrun, keeps_tables_chunk_one_text.
Qed.

(** When chunk extraction returns no chunk, [_run_pipeline] returns at
    once: no status is written, the File Record stays as it was. *)
Lemma run_pipeline_no_chunks (fr : IngestedFileV2) (parsed : parsed_payload)
    (w w1 : world) :
  _ensure_file_entry fr w = (Return tt, w) ->
  _extract_chunks parsed (file_id fr) (file_type fr) (file_business_id fr) w
    = (Return [], w1) ->
  _run_pipeline fr parsed w = (Return tt, w1)
  /\ files (db w1) = files (db w)
  /\ contents (db w1) = contents (db w)
  /\ chroma w1 = chroma w.
Proof.
  intros Hens Hext. split; [|by eapply extract_chunks_tables].
  unfold _run_pipeline, wbind. by rewrite Hens, Hext.
Qed.

(** When every extracted chunk is dropped by the dedup, [_run_pipeline]
    writes [processed] with [total_chunks = 0]. *)
Lemma run_pipeline_all_duplicates (fr : IngestedFileV2) (parsed : parsed_payload)
    (w w1 : world) (c : chunk_dict) (chunks : list chunk_dict) :
  _ensure_file_entry fr w = (Return tt, w) ->
  _extract_chunks parsed (file_id fr) (file_type fr) (file_business_id fr) w
    = (Return (c :: chunks), w1) ->
  _dedup_chunks (c :: chunks) (file_id fr) w1 = (Return [], w1) ->
  _run_pipeline fr parsed w
  = (Return tt, set_db (update_file (file_id fr) (with_status processed 0) (db w1)) w1).
Proof.
  intros Hens Hext Hdedup.
  unfold _run_pipeline, wbind. by rewrite Hens, Hext, Hdedup.
Qed.

(** ** Media-level deduplication *)

(** With exactly one processed File Record carrying the incoming hash,
    and that record not the current one, the block marks the current
    record [duplicate] with [total_chunks = 0] and stops. *)
Lemma media_dedup_single_match (fr e : IngestedFileV2) (path h : text) (w : world) :
  compute_file_hash path = Return h ->
  processed_with_hash h (db w) = [e] ->
  file_id e <> file_id fr ->
  media_dedup fr path w
  = (Return true, set_db (update_file (file_id fr) (with_status duplicate 0) (db w)) w).
Proof.
  intros Hhash Hrows Hne.
  unfold media_dedup, try_except, wbind, of_outcome, query.
  rewrite Hhash, Hrows. cbn [scalar_one_or_none].
  apply N.eqb_neq in Hne. by rewrite Hne.
Qed.

(** With two or more of them, [scalar_one_or_none] raises, the block
    drops the exception and lets the ingestion go on, stores untouched. *)
Lemma media_dedup_multiple_matches (fr e1 e2 : IngestedFileV2)
    (rest : list IngestedFileV2) (path h : text) (w : world) :
  compute_file_hash path = Return h ->
  processed_with_hash h (db w) = e1 :: e2 :: rest ->
  media_dedup fr path w = (Return false, w).
Proof.
  intros Hhash Hrows.
  unfold media_dedup, try_except, wbind, of_outcome, query.
  by rewrite Hhash, Hrows.
Qed.

(** [process_file] on a byte-identical second upload, when the first one
    is the only processed record with that hash: the current record ends
    [duplicate] with no chunk, and neither chunk rows, index entries nor
    vectors are written. *)
Lemma process_file_single_match (id : ident) (path : option text)
    (business : option ident) (fr e : IngestedFileV2) (a : ascii) (p h : text)
    (w : world) :
  List.filter (fun r => N.eqb (file_id r) id) (files (db w)) = [fr] ->
  file_path fr = Some (a :: p) ->
  compute_file_hash (a :: p) = Return h ->
  processed_with_hash h (db w) = [e] ->
  file_id e <> id ->
  process_file id path business w
  = (Return tt, set_db (update_file id (with_status duplicate 0) (db w)) w).
Proof.
  intros Hrec Hpath Hhash Hrows Hne.
  assert (file_id fr = id) as Hid.
  { assert (In fr (List.filter (fun r => N.eqb (file_id r) id) (files (db w)))) as Hin
      by (rewrite Hrec; by left).
    apply filter_In in Hin. destruct Hin as [_ Hin]. by apply N.eqb_eq in Hin. }
  unfold process_file, try_except, _get_file_record.
  unfold wbind at 1 2. unfold wbind, query, of_outcome. cbv beta.
  rewrite Hrec. cbn [scalar_one_or_none]. rewrite Hpath.
  rewrite (media_dedup_single_match fr e (a :: p) h w Hhash Hrows) by by rewrite Hid.
  by rewrite Hid.
Qed.

(** With two or more processed records carrying the incoming hash,
    [process_file] goes on as if the dedup block were not there. *)
Lemma process_file_multiple_matches (id : ident) (path : option text)
    (business : option ident) (fr e1 e2 : IngestedFileV2)
    (rest : list IngestedFileV2) (a : ascii) (p h : text) (w : world) :
  List.filter (fun r => N.eqb (file_id r) id) (files (db w)) = [fr] ->
  file_path fr = Some (a :: p) ->
  compute_file_hash (a :: p) = Return h ->
  processed_with_hash h (db w) = e1 :: e2 :: rest ->
  process_file id path business w
  = try_except (process_after_dedup (Some fr) path)
      (fun e => _set_file_error id (str_of_exn e)) w.
Proof.
  intros Hrec Hpath Hhash Hrows.
  unfold process_file, try_except, _get_file_record.
  unfold wbind at 1 2. unfold wbind, query, of_outcome. cbv beta.
  rewrite Hrec. cbn [scalar_one_or_none]. rewrite Hpath.
  by rewrite (media_dedup_multiple_matches fr e1 e2 rest (a :: p) h w Hhash Hrows).
Qed.

(** ** Further properties of the service *)

Lemma set_db_same (w : world) : set_db (db w) w = w.
Proof. by destruct w. Qed.

Lemma update_file_no_match (id : ident) (f : IngestedFileV2 -> IngestedFileV2)
    (d : database) :
  (forall r, In r (files d) -> file_id r <> id) -> update_file id f d = d.
Proof.
  intros Hno. unfold update_file, set_files.
  assert (map (fun r => if N.eqb (file_id r) id then f r else r) (files d) = files d)
    as ->.
  { induction (files d) as [|r l IH]; simpl; [done|].
    destruct (N.eqb (file_id r) id) eqn:E.
    - apply N.eqb_eq in E. exfalso. apply (Hno r); [by left|done].
    - f_equal. apply IH. intros x Hx. apply Hno. by right. }
  by destruct d.
Qed.

Lemma existing_hashes_fresh (id : ident) (hashes : list text) (d : database) :
  (forall row, In row (contents d) -> content_file_id row <> id) ->
  existing_hashes id hashes d = [].
Proof.
  intros Hno. destruct (existing_hashes id hashes d) as [|h l] eqn:E; [done|].
  assert (In h (existing_hashes id hashes d)) as Hin by (rewrite E; by left).
  apply existing_hashes_In in Hin as (_ & row & Hrow & Hid & _).
  exfalso. by apply (Hno row).
Qed.

Lemma filter_all {A} (f : A -> bool) (l : list A) :
  (forall x, In x l -> f x = true) -> List.filter f l = l.
Proof.
  induction l as [|x l IH]; intros H; simpl; [done|].
  rewrite (H x) by by left. f_equal. apply IH. intros y Hy. apply H. by right.
Qed.

(** X7: on a file that has no Chunk Record yet, [_dedup_chunks] returns
    the whole batch as soon as one chunk carries a hash: chunks that
    repeat a hash within the batch are all retained, and neither store is
    written. *)
Theorem dedup_chunks_fresh_file (chunks : list chunk_dict) (id : ident) (w : world)
    (c : chunk_dict) (a : ascii) (h : text) :
  (forall row, In row (contents (db w)) -> content_file_id row <> id) ->
  In c chunks ->
  get_semantic_hash c = Some (a :: h) ->
  _dedup_chunks chunks id w = (Return chunks, w).
Proof.
  intros Hfresh Hc Hh.
  assert (In (a :: h) (batch_hashes chunks)) as Hbatch.
  { apply batch_hashes_In. split; [done|]. by exists c. }
  unfold _dedup_chunks.
  destruct (batch_hashes chunks) as [|h0 hs] eqn:E; [done|].
  unfold wbind, query, wret.
  rewrite (existing_hashes_fresh id _ _ Hfresh).
  rewrite filter_all; [done|].
  intros x _. unfold not_in_existing. by destruct (get_semantic_hash x).
Qed.

(** The largest index of a file, as the fold computes it. *)
Lemma fold_max_index (file : ident) (l : list IngestedContentV2) :
  forall acc,
    let res := fold_left (fun acc r =>
                 if N.eqb (content_file_id r) file
                 then match acc with
                      | None => Some (chunk_index r)
                      | Some m => Some (Z.max m (chunk_index r))
                      end
                 else acc) l acc in
    (forall a, acc = Some a -> exists m, res = Some m /\ (a <= m)%Z)
    /\ (forall row, In row l -> content_file_id row = file ->
          exists m, res = Some m /\ (chunk_index row <= m)%Z).
Proof.
  induction l as [|r l IH]; intros acc; simpl.
  - split; [|done]. intros a ->. exists a. split; [done|lia].
  - destruct (N.eqb (content_file_id r) file) eqn:E.
    + set (acc' := match acc with
                    | None => Some (chunk_index r)
                    | Some m => Some (Z.max m (chunk_index r))
                    end).
      destruct (IH acc') as [Hacc Hrows]. split.
      * intros a ->. destruct (Hacc _ eq_refl) as (m & Hm & Hle).
        exists m. split; [done|lia].
      * intros row [<-|Hin] Hfile; [|by apply Hrows].
        destruct acc as [a|]; destruct (Hacc _ eq_refl) as (m & Hm & Hle);
          exists m; (split; [done|lia]).
    + destruct (IH acc) as [Hacc Hrows]. split; [done|].
      intros row [<-|Hin] Hfile; [|by apply Hrows].
      apply N.eqb_neq in E. done.
Qed.

Lemma max_chunk_index_bound (file : ident) (d : database) (row : IngestedContentV2) :
  In row (contents d) -> content_file_id row = file ->
  exists m, max_chunk_index file d = Some m /\ (chunk_index row <= m)%Z.
Proof. apply (fold_max_index file (contents d) None). Qed.

(** X8: unless the largest stored index of the file is 0,
    [_insert_chunks] appends one row per chunk, in order, all for this
    file, with the indices [next], [next + 1], ... where [next] is 0 for a
    file without chunks and the largest stored index plus one otherwise;
    every new index is larger than every stored index of the file, and
    the stored rows, the File Records, the index and the vector store are
    left as they were. *)
Theorem insert_chunks_contiguous (file : ident) (business : option ident)
    (chunks : list chunk_dict) (w : world) :
  max_chunk_index file (db w) <> Some 0%Z ->
  exists w' rows,
    _insert_chunks file business chunks w = (Return tt, w')
    /\ contents (db w') = contents (db w) ++ rows
    /\ length rows = length chunks
    /\ Forall (fun r => content_file_id r = file) rows
    /\ map chunk_index rows
       = map (fun i => (match max_chunk_index file (db w) with
                        | None => 0
                        | Some m => m + 1
                        end + Z.of_nat i)%Z) (seq 0 (length chunks))
    /\ (forall old new, In old (contents (db w)) -> content_file_id old = file ->
          In new rows -> (chunk_index old < chunk_index new)%Z)
    /\ files (db w') = files (db w)
    /\ gci (db w') = gci (db w)
    /\ chroma w' = chroma w.
Proof.
  intros Hmax.
  destruct (insert_chunks_indices file business chunks w)
    as (w' & rows & Hrun & Hcontents & Hfile & Hidx).
  assert ((or_minus_one (max_chunk_index file (db w)) + 1)%Z
          = match max_chunk_index file (db w) with
            | None => 0%Z
            | Some m => (m + 1)%Z
            end) as Hstart.
  { destruct (max_chunk_index file (db w)) as [m|]; [|done].
    destruct m; [done|done|done]. }
  assert (length rows = length chunks) as Hlen.
  { rewrite <- (length_map chunk_index rows), Hidx, length_map. apply length_seq. }
  exists w', rows. split; [done|]. split; [done|]. split; [done|]. split; [done|].
  split.
  { rewrite Hidx. apply map_ext. intros i. by rewrite Hstart. }
  split.
  { intros old new Hold Holdfile Hnew.
    destruct (max_chunk_index_bound file (db w) old Hold Holdfile) as (m & Hm & Hle).
    assert (In (chunk_index new) (map chunk_index rows)) as Hin by by apply in_map.
    rewrite Hidx in Hin. apply in_map_iff in Hin as (i & Hi & _).
    rewrite Hstart, Hm in Hi. lia. }
  unfold _insert_chunks, execute in Hrun.
  destruct (build_rows file business _ chunks (db w)) as [rows0 d'] eqn:E.
  injection Hrun as <-.
  assert (files d' = files (db w) /\ gci d' = gci (db w)) as [Hf Hg].
  { clear -E. revert E.
    generalize (or_minus_one (max_chunk_index file (db w)) + 1)%Z.
    generalize (db w). revert rows0 d'.
    induction chunks as [|c rest IH]; intros rows0 d' d0 start.
    - by intros [= <- <-].
    - cbn [build_rows uuid4].
      destruct (build_rows file business (start + 1) rest _) as [rows1 d1] eqn:E1.
      intros [= <- <-]. by apply IH in E1. }
  by cbn [db set_db files gci set_contents chroma].
Qed.

(** X9: [_set_file_error] marks the File Records with the given id
    [failed] and stores the error message cut to its first 255 characters;
    it keeps the number and order of the records, leaves records with
    another id as they are, and touches nothing else. *)
Theorem set_file_error_effect (id : ident) (msg : text) (w : world) :
  exists w',
    _set_file_error id msg w = (Return tt, w')
    /\ map file_id (files (db w')) = map file_id (files (db w))
    /\ (forall r', In r' (files (db w')) -> file_id r' = id ->
          status r' = failed
          /\ error_message r' = Some (slice_to 255 msg)
          /\ length (slice_to 255 msg) <= 255)
    /\ (forall r, In r (files (db w)) -> file_id r <> id -> In r (files (db w')))
    /\ contents (db w') = contents (db w)
    /\ gci (db w') = gci (db w)
    /\ chroma w' = chroma w.
Proof.
  eexists. split; [reflexivity|].
  cbn [db set_db update_file set_files files contents gci chroma].
  split.
  { rewrite map_map. apply map_ext. intros r. by destruct (N.eqb _ _). }
  split.
  { intros r' Hin Hid. apply in_map_iff in Hin as (r & <- & _).
    destruct (N.eqb (file_id r) id) eqn:E.
    - cbn. repeat split. unfold slice_to. rewrite length_firstn. lia.
    - apply N.eqb_neq in E. done. }
  split; [|done].
  intros r Hin Hne. apply in_map_iff. exists r. split; [|done].
  apply N.eqb_neq in Hne. by rewrite Hne.
Qed.

Lemma embed_and_store_run (chunks : list chunk_dict) (w : world) :
  _embed_and_store chunks w
  = (Return tt,
     {| db := db w;
        chroma := if vector_store_ok
                  then chroma w ∪ list_to_set (batch_hashes chunks)
                  else chroma w |}).
Proof.
  unfold _embed_and_store. destruct vector_store_ok; [|by destruct w].
  do 2 f_equal. apply set_eq. intros x.
  rewrite !elem_of_union, !elem_of_list_to_set, !list_elem_of_In, filter_In.
  destruct (bool_decide (x ∈ chroma w)) eqn:E.
  - apply bool_decide_eq_true in E. tauto.
  - rewrite andb_false_r, orb_true_r. tauto.
Qed.

(** X10: [_embed_and_store] never raises and never writes the relational
    store, and it removes nothing from the vector store.  When embedding
    and upsert go through, the vector store holds afterwards exactly what
    it held plus the semantic hashes of the batch: one id per hash, and
    chunks without a hash add nothing. *)
Theorem embed_and_store_effect (chunks : list chunk_dict) (w : world) :
  exists w',
    _embed_and_store chunks w = (Return tt, w')
    /\ db w' = db w
    /\ chroma w ⊆ chroma w'
    /\ (vector_store_ok = true ->
        forall h, h ∈ chroma w' <-> h ∈ chroma w \/ In h (batch_hashes chunks)).
Proof.
  eexists. split; [apply embed_and_store_run|]. cbn [db chroma].
  split; [done|]. split.
  - destruct vector_store_ok; [apply union_subseteq_l|done].
  - intros ->. intros h.
    by rewrite elem_of_union, elem_of_list_to_set, list_elem_of_In.
Qed.

(** X11: [process_file] on an id that has no File Record never creates
    one: with or without a path, readable or not, it returns with both
    stores exactly as they were. *)
Theorem process_file_unknown_id (id : ident) (path : option text)
    (business : option ident) (w : world) :
  (forall r, In r (files (db w)) -> file_id r <> id) ->
  process_file id path business w = (Return tt, w).
Proof.
  intros Hno.
  assert (List.filter (fun r => N.eqb (file_id r) id) (files (db w)) = []) as Hnone.
  { destruct (List.filter _ _) as [|r l] eqn:E; [done|].
    assert (In r (List.filter (fun r => N.eqb (file_id r) id) (files (db w)))) as Hin
      by (rewrite E; by left).
    apply filter_In in Hin as [Hin Hid]. apply N.eqb_eq in Hid.
    exfalso. by apply (Hno r). }
  assert (forall msg, _set_file_error id msg w = (Return tt, w)) as Herr.
  { intros msg. unfold _set_file_error, execute.
    by rewrite update_file_no_match, set_db_same. }
  unfold process_file, try_except, _get_file_record.
  unfold wbind at 1 2. unfold wbind, query, of_outcome. cbv beta.
  rewrite Hnone. cbn [scalar_one_or_none wret process_after_dedup].
  destruct path as [[|a p]|]; [done| |done].
  unfold wbind, of_outcome, wraise.
  destruct (compute_file_hash (a :: p)) as [e|h]; apply Herr.
Qed.

(** X12: a second upload of bytes that exactly one processed File Record
    already carries, under another id: [process_file] marks the current
    record [duplicate] with [total_chunks = 0] and stops; no other File
    Record changes, and no Chunk Record, index entry or vector is
    written. *)
Theorem process_file_marks_duplicate (id : ident) (path : option text)
    (business : option ident) (fr e : IngestedFileV2) (a : ascii) (p h : text)
    (w : world) :
  List.filter (fun r => N.eqb (file_id r) id) (files (db w)) = [fr] ->
  file_path fr = Some (a :: p) ->
  compute_file_hash (a :: p) = Return h ->
  processed_with_hash h (db w) = [e] ->
  file_id e <> id ->
  exists w',
    process_file id path business w = (Return tt, w')
    /\ files (db w')
       = map (fun r => if N.eqb (file_id r) id then with_status duplicate 0 r else r)
             (files (db w))
    /\ contents (db w') = contents (db w)
    /\ gci (db w') = gci (db w)
    /\ chroma w' = chroma w.
Proof.
  intros Hrec Hpath Hhash Hrows Hne. eexists. split.
  - by eapply process_file_single_match.
  - done.
Qed.


(** X14: the media-level dedup block never raises and writes to the File
    Records only.  It stops the ingestion only when the hash of the file
    could be computed and exactly one processed record, with another id,
    carries it; when it lets the ingestion go on, no status has changed. *)
Theorem media_dedup_sound (fr : IngestedFileV2) (path : text) (w : world) :
  exists stop w',
    media_dedup fr path w = (Return stop, w')
    /\ map file_id (files (db w')) = map file_id (files (db w))
    /\ contents (db w') = contents (db w)
    /\ gci (db w') = gci (db w)
    /\ chroma w' = chroma w
    /\ (stop = true ->
        exists h e, compute_file_hash path = Return h
                    /\ processed_with_hash h (db w) = [e]
                    /\ file_id e <> file_id fr)
    /\ (stop = false -> map status (files (db w')) = map status (files (db w))).
Proof.
  assert (forall h, map status (files (update_file (file_id fr) (with_file_hash h) (db w)))
                    = map status (files (db w))) as Hstatus.
  { intros h. cbn. rewrite map_map. apply map_ext. intros r. by destruct (N.eqb _ _). }
  assert (forall h, map file_id (files (update_file (file_id fr) (with_file_hash h) (db w)))
                    = map file_id (files (db w))) as Hids.
  { intros h. cbn. rewrite map_map. apply map_ext. intros r. by destruct (N.eqb _ _). }
  unfold media_dedup, try_except, wbind, of_outcome, query.
  destruct (compute_file_hash path) as [e|h] eqn:Eh.
  { exists false, w. do 5 (split; [done|]). done. }
  destruct (processed_with_hash h (db w)) as [|e [|e2 l]] eqn:Erows;
    cbn [scalar_one_or_none].
  - eexists false, _. split; [reflexivity|].
    cbn [db set_db]. split; [apply Hids|]. do 3 (split; [done|]). split; [done|]. intros _. apply Hstatus.
  - destruct (N.eqb (file_id e) (file_id fr)) eqn:Eid; cbn [negb].
    + eexists false, _. split; [reflexivity|].
      cbn [db set_db]. split; [apply Hids|]. do 3 (split; [done|]). split; [done|]. intros _. apply Hstatus.
    + eexists true, _. split; [reflexivity|].
      cbn [db set_db]. split.
      { cbn [update_file set_files files]. rewrite map_map. apply map_ext.
        intros r. by destruct (N.eqb (file_id r) (file_id fr)). }
      do 3 (split; [done|]). split; [|done].
      intros _. exists h, e. apply N.eqb_neq in Eid. done.
  - exists false, w. do 5 (split; [done|]). done.
Qed.

Lemma grows_chunk_one_text (t : text) ctx : grows (chunk_one_text t ctx).
Proof.
  unfold chunk_one_text, recursive_semantic_chunk.
  destruct (_looks_like_visual_content t); [|apply grows_rsc_fuel].
  destruct (_explain_visual_with_llm t); apply grows_rsc_fuel.
Qed.

Lemma grows_chunk_items (items : list (option text)) ctx : grows (chunk_items items ctx).
Proof.
  induction items as [|[raw|] rest IH]; simpl; [apply grows_ret| |done].
  destruct (strip raw) eqn:E; [done|].
  apply grows_bind; [apply grows_chunk_one_text|]. intros subchunks.
  apply grows_bind; [done|]. intros enriched. apply grows_ret.
Qed.

(** X15: whatever it returns or raises, [_extract_chunks] leaves the File
    Records, the Chunk Records and the vector store as they were; in the
    Global Content Index it only adds entries and raises counts. *)
Theorem extract_chunks_writes_index_only (payload : parsed_payload) (id : ident)
    (type : text) (business : option ident) (w : world) :
  let run := _extract_chunks payload id type business w in
  files (db run.2) = files (db w)
  /\ contents (db run.2) = contents (db w)
  /\ chroma run.2 = chroma w
  /\ index_grows (gci (db w)) (gci (db run.2)).
Proof.
  cbv zeta.
  destruct (_extract_chunks payload id type business w) as [o w'] eqn:Hrun.
  cbn [snd].
  destruct (extract_chunks_tables _ _ _ _ _ _ _ Hrun) as (Hf & Hc & Hv).
  split; [done|]. split; [done|]. split; [done|].
  assert (forall (m : M (list chunk_dict)), grows m ->
            run_segmenter m w = (o, w') ->
            index_grows (gci (db w)) (gci (db w'))) as Hseg.
  { intros m Hm. unfold run_segmenter.
    destruct (m (Some (db w))) as [[a s']|] eqn:E;
      [|intros [= _ <-]; apply index_grows_refl].
    destruct (Hm _ _ _ E) as (d' & -> & Hg). by intros [= _ <-]. }
  revert Hrun. unfold _extract_chunks.
  destruct (pp_items payload) as [items|].
  - apply Hseg, grows_chunk_items.
  - destruct (pp_resolved_text payload) eqn:E;
      [intros [= _ <-]; apply index_grows_refl|].
    apply Hseg, grows_chunk_one_text.
Qed.

(** X16: when some extracted chunk survives the dedup, [_run_pipeline]
    appends one Chunk Record per surviving chunk, all for this file, and
    then marks the File Records of this id [processed] with
    [total_chunks] equal to the number of rows appended in this run; the
    vector store only gains ids. *)
Theorem run_pipeline_processed (fr : IngestedFileV2) (parsed : parsed_payload)
    (w w1 : world) (c u : chunk_dict) (chunks unique_chunks : list chunk_dict) :
  _ensure_file_entry fr w = (Return tt, w) ->
  _extract_chunks parsed (file_id fr) (file_type fr) (file_business_id fr) w
    = (Return (c :: chunks), w1) ->
  _dedup_chunks (c :: chunks) (file_id fr) w1 = (Return (u :: unique_chunks), w1) ->
  exists w2 rows,
    _run_pipeline fr parsed w = (Return tt, w2)
    /\ contents (db w2) = contents (db w) ++ rows
    /\ length rows = length (u :: unique_chunks)
    /\ Forall (fun r => content_file_id r = file_id fr) rows
    /\ (forall r, In r (files (db w2)) -> file_id r = file_id fr ->
          status r = processed
          /\ total_chunks r = Z.of_nat (length rows))
    /\ map file_id (files (db w2)) = map file_id (files (db w))
    /\ chroma w ⊆ chroma w2.
Proof.
  intros Hens Hext Hdedup.
  destruct (extract_chunks_tables _ _ _ _ _ _ _ Hext) as (Hf1 & Hc1 & Hv1).
  destruct (insert_chunks_indices (file_id fr) (file_business_id fr)
              (u :: unique_chunks) w1)
    as (w2 & rows & Hins & Hcontents & Hfile & Hidx).
  assert (length rows = length (u :: unique_chunks)) as Hlen.
  { rewrite <- (length_map chunk_index rows), Hidx, length_map. apply length_seq. }
  assert (files (db w2) = files (db w1) /\ chroma w2 = chroma w1) as [Hf2 Hv2].
  { revert Hins. unfold _insert_chunks, execute.
    destruct (build_rows _ _ _ _ (db w1)) as [rows0 d'] eqn:E.
    intros [= <-]. cbn [db set_db files set_contents chroma]. split; [|done].
    clear -E. revert E.
    generalize (or_minus_one (max_chunk_index (file_id fr) (db w1)) + 1)%Z.
    generalize (db w1). revert rows0 d'.
    induction (u :: unique_chunks) as [|x rest IH]; intros rows0 d' d0 start.
    - by intros [= <- <-].
    - cbn [build_rows uuid4].
      destruct (build_rows _ _ (start + 1) rest _) as [rows1 d1] eqn:E1.
      intros [= <- <-]. by apply IH in E1. }
  eexists _, rows. split.
  { unfold _run_pipeline, wbind. rewrite Hens, Hext, Hdedup, Hins.
    rewrite embed_and_store_run. reflexivity. }
  cbn [db set_db update_file set_files files contents chroma].
  split; [by rewrite Hcontents, Hc1|]. split; [done|]. split; [done|].
  split.
  { intros r Hin Hid. apply in_map_iff in Hin as (r0 & <- & _).
    destruct (N.eqb (file_id r0) (file_id fr)) eqn:E.
    - cbn. by rewrite Hlen.
    - apply N.eqb_neq in E. done. }
  split.
  { rewrite map_map, Hf2, Hf1. apply map_ext. intros r. by destruct (N.eqb _ _). }
  rewrite Hv2, Hv1. destruct vector_store_ok; [apply union_subseteq_l|done].
Qed.

(** A step that writes File Records of one id only: the records of the
    other ids are kept, so are the ids and their order, and the other
    tables and the vector store are as before. *)
Definition touches_file_only (id : ident) (w w' : world) : Prop :=
  contents (db w') = contents (db w)
  /\ gci (db w') = gci (db w)
  /\ chroma w' = chroma w
  /\ map file_id (files (db w')) = map file_id (files (db w))
  /\ (forall r, In r (files (db w)) -> file_id r <> id -> In r (files (db w'))).

Lemma touches_file_only_refl (id : ident) (w : world) : touches_file_only id w w.
Proof. by repeat split. Qed.

Lemma touches_file_only_trans (id : ident) (w1 w2 w3 : world) :
  touches_file_only id w1 w2 -> touches_file_only id w2 w3 ->
  touches_file_only id w1 w3.
Proof.
  intros (Hc & Hg & Hv & Hi & Hr) (Hc' & Hg' & Hv' & Hi' & Hr').
  split; [congruence|]. split; [congruence|]. split; [congruence|].
  split; [congruence|]. intros r Hin Hne. apply Hr'; [by apply Hr|done].
Qed.

Lemma touches_file_only_update (id : ident) (f : IngestedFileV2 -> IngestedFileV2)
    (w : world) :
  (forall r, file_id (f r) = file_id r) ->
  touches_file_only id w (set_db (update_file id f (db w)) w).
Proof.
  intros Hf. do 3 (split; [done|]).
  cbn [db set_db update_file set_files files]. split.
  - rewrite map_map. apply map_ext. intros r. by destruct (N.eqb _ _).
  - intros r Hin Hne. apply in_map_iff. exists r. split; [|done].
    apply N.eqb_neq in Hne. by rewrite Hne.
Qed.

Lemma ids_of_file (id : ident) (l : list IngestedFileV2) :
  map file_id (List.filter (fun r => N.eqb (file_id r) id) l)
  = List.filter (fun i => N.eqb i id) (map file_id l).
Proof.
  induction l as [|r l IH]; simpl; [done|].
  destruct (N.eqb (file_id r) id); simpl; by rewrite IH.
Qed.

(** The media-level dedup lets a file pass that is no copy of a
    processed file with another id. *)
Lemma media_dedup_passes (fr : IngestedFileV2) (path : text) (w : world) :
  (forall h r, compute_file_hash path = Return h ->
               In r (processed_with_hash h (db w)) -> file_id r = file_id fr) ->
  exists w1, media_dedup fr path w = (Return false, w1)
             /\ touches_file_only (file_id fr) w w1.
Proof.
  intros Hown. unfold media_dedup, try_except, wbind, of_outcome, query.
  destruct (compute_file_hash path) as [e|h] eqn:Eh.
  { exists w. split; [done|apply touches_file_only_refl]. }
  destruct (processed_with_hash h (db w)) as [|e [|e2 l]] eqn:Erows;
    cbn [scalar_one_or_none].
  - eexists. split; [reflexivity|]. by apply touches_file_only_update.
  - assert (file_id e = file_id fr) as ->
      by (apply (Hown h e eq_refl); rewrite Erows; by left).
    rewrite N.eqb_refl. cbn [negb].
    eexists. split; [reflexivity|]. by apply touches_file_only_update.
  - exists w. split; [done|apply touches_file_only_refl].
Qed.

Lemma process_after_dedup_parse_error (fr : IngestedFileV2) (path : option text)
    (e : exn) (w w1 : world) :
  List.filter (fun r => N.eqb (file_id r) (file_id fr)) (files (db w)) = [fr] ->
  touches_file_only (file_id fr) w w1 ->
  parse (file_path fr) (file_type fr) = Raise e ->
  exists w2, process_after_dedup (Some fr) path w1 = (Raise e, w2)
             /\ touches_file_only (file_id fr) w w2.
Proof.
  intros Hrec Hw1 Hparse. unfold process_after_dedup, wbind.
  rewrite (ensure_file_entry_existing fr w1 (file_id fr)).
  - unfold _parse_file, wbind, execute, of_outcome. rewrite Hparse.
    eexists. split; [reflexivity|].
    eapply touches_file_only_trans; [exact Hw1|].
    by apply touches_file_only_update.
  - destruct Hw1 as (_ & _ & _ & Hids & _).
    by rewrite ids_of_file, Hids, <- ids_of_file, Hrec.
Qed.

(** X30: when the parser raises on a file that the media-level dedup lets
    pass (no processed File Record with another id carries its hash),
    [process_file] itself returns normally: the File Record ends
    [failed] with the message of the exception cut to its first 255
    characters; the records of other files, the Chunk Records, the Global
    Content Index and the vector store are as before. *)
Theorem process_file_parse_error_marks_failed (id : ident) (path : option text)
    (business : option ident) (fr : IngestedFileV2) (e : exn) (w : world) :
  List.filter (fun r => N.eqb (file_id r) id) (files (db w)) = [fr] ->
  (forall a p h r, file_path fr = Some (a :: p) ->
                   compute_file_hash (a :: p) = Return h ->
                   In r (processed_with_hash h (db w)) -> file_id r = id) ->
  parse (file_path fr) (file_type fr) = Raise e ->
  exists w',
    process_file id path business w = (Return tt, w')
    /\ (exists r, In r (files (db w')) /\ file_id r = id)
    /\ (forall r, In r (files (db w')) -> file_id r = id ->
          status r = failed
          /\ error_message r = Some (slice_to 255 (str_of_exn e)))
    /\ (forall r, In r (files (db w)) -> file_id r <> id -> In r (files (db w')))
    /\ contents (db w') = contents (db w)
    /\ gci (db w') = gci (db w)
    /\ chroma w' = chroma w.
Proof.
  intros Hrec Hown Hparse.
  assert (In fr (files (db w)) /\ file_id fr = id) as [Hfr Hid].
  { assert (In fr (List.filter (fun r => N.eqb (file_id r) id) (files (db w)))) as Hin
      by (rewrite Hrec; by left).
    apply filter_In in Hin as [Hin Heq]. by apply N.eqb_eq in Heq. }
  subst id.
  assert (exists w1,
             match file_path fr with
             | Some (a :: p) => media_dedup fr (a :: p)
             | _ => wret false
             end w = (Return false, w1)
             /\ touches_file_only (file_id fr) w w1) as (w1 & Hdedup & Hw1).
  { destruct (file_path fr) as [[|a p]|] eqn:Hpath.
    - exists w. split; [done|apply touches_file_only_refl].
    - apply media_dedup_passes. intros h r. by apply Hown.
    - exists w. split; [done|apply touches_file_only_refl]. }
  destruct (process_after_dedup_parse_error fr path e w w1 Hrec Hw1 Hparse)
    as (w2 & Hbody & Hw2).
  eexists. split.
  { unfold process_file, try_except, _get_file_record.
    unfold wbind at 1 2. unfold wbind, query, of_outcome. cbv beta.
    rewrite Hrec. cbn [scalar_one_or_none].
    rewrite Hdedup, Hbody. reflexivity. }
  pose proof (touches_file_only_trans _ _ _ _ Hw2
                (touches_file_only_update (file_id fr)
                   (with_error (slice_to 255 (str_of_exn e))) w2
                   (fun r => eq_refl)))
    as (Hc & Hg & Hv & Hids & Hothers).
  unfold _set_file_error, execute.
  split.
  { assert (In (file_id fr) (map file_id (files (db w)))) as Hin by by apply in_map.
    rewrite <- Hids in Hin. apply in_map_iff in Hin as (r & Hr & Hin). by exists r. }
  split; [|done].
  cbn [db set_db update_file set_files files].
  intros r Hin Hr. apply in_map_iff in Hin as (r0 & <- & _).
  destruct (N.eqb (file_id r0) (file_id fr)) eqn:E; [done|].
  apply N.eqb_neq in E. done.
Qed.

End WithCollaborators.

(** ** Concrete runs *)

(** Collaborators of the runs: every upload holds the same bytes, the
    parser returns the shared sentence as the text of the file, nothing
    looks like a chart and the vector store is up. *)
Definition same_bytes (path : text) : outcome text := Return (txt "9f2c").

Definition sentence_payload : parsed_payload :=
  {| pp_truthy := true; pp_items := None; pp_resolved_text := shared_sentence |}.

(** The payload of a file without content: [{"chunks": []}]. *)
Definition empty_payload : parsed_payload :=
  {| pp_truthy := true; pp_items := Some []; pp_resolved_text := [] |}.

Definition parse_sentence (path : option text) (type : text) : outcome parsed_payload :=
  Return sentence_payload.

Definition parse_empty (path : option text) (type : text) : outcome parsed_payload :=
  Return empty_payload.

Definition no_visual (t : text) : bool := false.
Definition no_explanation (t : text) : text := [].

Definition run_process_file (parse : option text -> text -> outcome parsed_payload)
    (id : ident) : W unit :=
  process_file TextCleaner.clean_text plain_digest same_bytes parse
    no_visual no_explanation true id None None.

Definition upload (id : ident) (path : text) (st : file_status) (h : option text)
    : IngestedFileV2 :=
  {| file_id := id; file_business_id := None; file_type := txt "pdf";
     file_path := Some path; file_hash := h; parser_used := None;
     status := st; total_chunks := 0; error_message := None |}.

Definition world_of (fs : list IngestedFileV2) (cs : list IngestedContentV2) : world :=
  {| db := {| files := fs; contents := cs; gci := ∅; uuid_counter := 100 |};
     chroma := ∅ |}.

(** What is observed of a world: id, status and [total_chunks] of every
    File Record, file and index of every Chunk Record, and the ids held
    by the vector store. *)
Definition observe (w : world)
    : list (ident * file_status * Z) * list (ident * Z) * list text :=
  (map (fun r => (file_id r, status r, total_chunks r)) (files (db w)),
   map (fun r => (content_file_id r, chunk_index r)) (contents (db w)),
   elements (chroma w)).

(** Two uploads of the same bytes, one after the other: the first ends
    [processed] with its chunk and vector, the second ends [duplicate]
    and adds nothing. *)
Example same_file_twice :
  let w0 := world_of [upload 1 (txt "a.pdf") uploaded None;
                      upload 2 (txt "b.pdf") uploaded None] [] in
  let w1 := (run_process_file parse_sentence 1 w0).2 in
  let w2 := (run_process_file parse_sentence 2 w1).2 in
  observe w1 = ([(1%N, processed, 1%Z); (2%N, uploaded, 0%Z)], [(1%N, 0%Z)],
                [shared_sentence])
  /\ observe w2 = ([(1%N, processed, 1%Z); (2%N, duplicate, 0%Z)], [(1%N, 0%Z)],
                   [shared_sentence]).
Proof. vm_compute. split; reflexivity. Qed.

(** Two processed records already carry the hash of the incoming bytes. *)
Definition two_processed_copies : world :=
  world_of [upload 1 (txt "a.pdf") processed (Some (txt "9f2c"));
            upload 2 (txt "b.pdf") processed (Some (txt "9f2c"));
            upload 3 (txt "c.pdf") uploaded None] [].

(** C1 (the code departs from the claim): two processed File Records with
    other ids carry the hash of the incoming bytes, yet [process_file]
    does not mark the third upload [duplicate]: the lookup of the
    processed record raises on the second match, the exception is
    dropped, and the file is parsed and ends [processed] with one new
    chunk and one new vector. *)
Theorem process_file_two_processed_copies :
  observe (run_process_file parse_sentence 3 two_processed_copies).2
  = ([(1%N, processed, 0%Z); (2%N, processed, 0%Z); (3%N, processed, 1%Z)],
     [(3%N, 0%Z)], [shared_sentence]).
Proof. vm_compute. reflexivity. Qed.

(** C4 (the code departs from the claim): a file whose payload yields no
    chunk leaves [_run_pipeline] through the early return, before any
    status is written; the File Record stays [uploaded] and never
    reaches [processed]. *)
Theorem empty_file_stays_uploaded :
  observe (run_process_file parse_empty 1
             (world_of [upload 1 (txt "empty.txt") uploaded None] [])).2
  = ([(1%N, uploaded, 0%Z)], [], []).
Proof. vm_compute. reflexivity. Qed.

(** The sibling path: a second run over the same file finds every chunk
    already stored and writes [processed] with [total_chunks = 0]. *)
Example all_chunks_deduplicated :
  let w0 := world_of [upload 1 (txt "a.pdf") uploaded None] [] in
  let w1 := (run_process_file parse_sentence 1 w0).2 in
  let w2 := (run_process_file parse_sentence 1 w1).2 in
  observe w2 = ([(1%N, processed, 0%Z)], [(1%N, 0%Z)], [shared_sentence]).
Proof. vm_compute. reflexivity. Qed.

Definition stored_chunk (file : ident) (index : Z) (h : text) : IngestedContentV2 :=
  {| content_id := 7; content_file_id := file; content_business_id := None;
     chunk_index := index; content_text := Some h; content_cleaned_text := Some h;
     content_tokens := Some 1%Z; content_source_type := None;
     content_semantic_hash := Some h; content_global_content_id := None;
     is_duplicate := false |}.

Definition new_chunk (t : text) : chunk_dict :=
  Chunk {| c_text := t; c_cleaned_text := t; c_tokens := 1;
           c_semantic_hash := t; c_global_content_id := None;
           c_source_type := None |}.

(** C7 (the code departs from the claim): the file holds one Chunk Record,
    at index 0, so its largest index is 0; [_insert_chunks] computes
    [start_index = (0 or -1) + 1 = 0] and the two new rows get the
    indices 0 and 1 in place of 1 and 2: index 0 is now taken twice. *)
Theorem insert_chunks_after_index_zero :
  observe (_insert_chunks 1 None [new_chunk (txt "second"); new_chunk (txt "third")]
             (world_of [upload 1 (txt "a.pdf") processed None]
                       [stored_chunk 1 0 (txt "first")])).2
  = ([(1%N, processed, 0%Z)], [(1%N, 0%Z); (1%N, 0%Z); (1%N, 1%Z)], []).
Proof. vm_compute. reflexivity. Qed.

(** With a largest index other than 0 the new rows continue after it. *)
Example insert_chunks_after_index_one :
  observe (_insert_chunks 1 None [new_chunk (txt "third"); new_chunk (txt "fourth")]
             (world_of [upload 1 (txt "a.pdf") processed None]
                       [stored_chunk 1 0 (txt "first"); stored_chunk 1 1 (txt "second")])).2
  = ([(1%N, processed, 0%Z)], [(1%N, 0%Z); (1%N, 1%Z); (1%N, 2%Z); (1%N, 3%Z)], []).
Proof. vm_compute. reflexivity. Qed.

Lemma dedup_chunks_scoped_to_file_witness :
  let w := world_of [] [stored_chunk 2 0 (txt "shared")] in
  exists unique_chunks,
    _dedup_chunks [new_chunk (txt "shared")] 1 w = (Return unique_chunks, w)
    /\ (In (new_chunk (txt "shared")) unique_chunks <->
        ~ exists row, In row (contents (db w))
            /\ content_file_id row = 1%N
            /\ content_semantic_hash row = Some (txt "shared")).
Proof.
  apply (dedup_chunks_scoped_to_file [new_chunk (txt "shared")] 1%N
           (world_of [] [stored_chunk 2 0 (txt "shared")])
           (new_chunk (txt "shared")) (txt "shared")).
  - left. reflexivity.
  - reflexivity.
  - discriminate.
Defined.

(** The chunk of file 1 is retained although file 2 stores its hash. *)
Example dedup_keeps_hash_of_other_file :
  (_dedup_chunks [new_chunk (txt "shared")] 1
     (world_of [] [stored_chunk 2 0 (txt "shared")])).1
  = Return [new_chunk (txt "shared")].
Proof. vm_compute. reflexivity. Qed.

(** It is dropped when file 1 itself stores the hash. *)
Example dedup_drops_hash_of_same_file :
  (_dedup_chunks [new_chunk (txt "shared")] 1
     (world_of [] [stored_chunk 1 0 (txt "shared")])).1
  = Return [].
Proof. vm_compute. reflexivity. Qed.

Lemma dedup_chunks_fresh_file_witness :
  let w := world_of [] [stored_chunk 2 0 (txt "shared")] in
  _dedup_chunks [new_chunk (txt "shared"); new_chunk (txt "other")] 1 w
  = (Return [new_chunk (txt "shared"); new_chunk (txt "other")], w).
Proof.
  apply (dedup_chunks_fresh_file
           [new_chunk (txt "shared"); new_chunk (txt "other")] 1%N
           (world_of [] [stored_chunk 2 0 (txt "shared")])
           (new_chunk (txt "shared")) "s"%char (txt "hared")).
  - intros row [<-|[]]. discriminate.
  - left. reflexivity.
  - reflexivity.
Defined.

Lemma insert_chunks_contiguous_witness :
  let w := world_of [upload 1 (txt "a.pdf") processed None]
             [stored_chunk 1 0 (txt "first"); stored_chunk 1 1 (txt "second")] in
  exists w' rows,
    _insert_chunks 1 None [new_chunk (txt "third"); new_chunk (txt "fourth")] w
      = (Return tt, w')
    /\ contents (db w') = contents (db w) ++ rows
    /\ map chunk_index rows = [2%Z; 3%Z].
Proof.
  destruct (insert_chunks_contiguous 1%N None
              [new_chunk (txt "third"); new_chunk (txt "fourth")]
              (world_of [upload 1 (txt "a.pdf") processed None]
                 [stored_chunk 1 0 (txt "first"); stored_chunk 1 1 (txt "second")]))
    as (w' & rows & Hrun & Hcontents & _ & _ & Hidx & _).
  - vm_compute. discriminate.
  - exists w', rows. split; [exact Hrun|]. split; [exact Hcontents|exact Hidx].
Defined.

Lemma process_file_unknown_id_witness :
  let w := world_of [upload 1 (txt "a.pdf") uploaded None] [] in
  process_file TextCleaner.clean_text plain_digest same_bytes parse_sentence
    no_visual no_explanation true 9 (Some (txt "z.pdf")) None w
  = (Return tt, w).
Proof.
  apply (process_file_unknown_id TextCleaner.clean_text plain_digest same_bytes
           parse_sentence no_visual no_explanation true 9%N (Some (txt "z.pdf")) None
           (world_of [upload 1 (txt "a.pdf") uploaded None] [])).
  intros r [<-|[]]. discriminate.
Defined.

Lemma process_file_marks_duplicate_witness :
  let w := world_of [upload 1 (txt "a.pdf") processed (Some (txt "9f2c"));
                     upload 2 (txt "b.pdf") uploaded None] [] in
  exists w',
    process_file TextCleaner.clean_text plain_digest same_bytes parse_sentence
      no_visual no_explanation true 2 None None w = (Return tt, w')
    /\ map status (files (db w')) = [processed; duplicate]
    /\ contents (db w') = [].
Proof.
  destruct (process_file_marks_duplicate TextCleaner.clean_text plain_digest
              same_bytes parse_sentence no_visual no_explanation true 2%N None None
              (upload 2 (txt "b.pdf") uploaded None)
              (upload 1 (txt "a.pdf") processed (Some (txt "9f2c")))
              "b"%char (txt ".pdf") (txt "9f2c")
              (world_of [upload 1 (txt "a.pdf") processed (Some (txt "9f2c"));
                         upload 2 (txt "b.pdf") uploaded None] []))
    as (w' & Hrun & Hfiles & Hcontents & _).
  - reflexivity.
  - reflexivity.
  - reflexivity.
  - vm_compute. reflexivity.
  - discriminate.
  - exists w'. split; [exact Hrun|]. split; [by rewrite Hfiles|exact Hcontents].
Defined.

Lemma run_pipeline_processed_witness :
  let fr := upload 1 (txt "a.pdf") uploaded None in
  let w := world_of [fr] [] in
  exists w2 rows,
    _run_pipeline TextCleaner.clean_text plain_digest same_bytes no_visual
      no_explanation true fr sentence_payload w = (Return tt, w2)
    /\ contents (db w2) = contents (db w) ++ rows
    /\ length rows = 1
    /\ map status (files (db w2)) = [processed].
Proof.
  cbv zeta.
  set (fr := upload 1 (txt "a.pdf") uploaded None).
  set (w := world_of [fr] []).
  let v := eval vm_compute in
    (_extract_chunks TextCleaner.clean_text plain_digest no_visual no_explanation
       sentence_payload (file_id fr) (file_type fr) (file_business_id fr) w) in
  lazymatch v with
  | (Return (?c :: ?chunks), ?w1) =>
      assert (_extract_chunks TextCleaner.clean_text plain_digest no_visual
                no_explanation sentence_payload (file_id fr) (file_type fr)
                (file_business_id fr) w = (Return (c :: chunks), w1)) as Hext
        by (vm_compute; reflexivity);
      assert (_dedup_chunks (c :: chunks) (file_id fr) w1
              = (Return (c :: chunks), w1)) as Hdedup
        by (vm_compute; reflexivity);
      destruct (run_pipeline_processed TextCleaner.clean_text plain_digest
                  same_bytes no_visual no_explanation true fr sentence_payload
                  w w1 c c chunks chunks eq_refl Hext Hdedup)
        as (w2 & rows & Hrun & Hcontents & Hlen & _ & Hstatus & Hids & _)
  end.
  exists w2, rows. split; [exact Hrun|]. split; [exact Hcontents|].
  split; [exact Hlen|].
  destruct (files (db w2)) as [|r [|r' rs]]; try discriminate Hids.
  injection Hids as Hid.
  destruct (Hstatus r (or_introl eq_refl) Hid) as [Hs _].
  cbn [map]. rewrite Hs. reflexivity.
Defined.

(** A parser that cannot read the file. *)
Definition parse_fails (path : option text) (type : text) : outcome parsed_payload :=
  Raise (Exception (txt "Unsupported or corrupted file")).

Lemma process_file_parse_error_marks_failed_witness :
  let w := world_of [upload 1 (txt "a.pdf") uploaded None] [] in
  exists w',
    process_file TextCleaner.clean_text plain_digest same_bytes parse_fails
      no_visual no_explanation true 1 None None w = (Return tt, w')
    /\ (forall r, In r (files (db w')) -> file_id r = 1%N ->
          status r = failed
          /\ error_message r = Some (txt "Unsupported or corrupted file")).
Proof.
  destruct (process_file_parse_error_marks_failed TextCleaner.clean_text plain_digest
              same_bytes parse_fails no_visual no_explanation true 1%N None None
              (upload 1 (txt "a.pdf") uploaded None)
              (Exception (txt "Unsupported or corrupted file"))
              (world_of [upload 1 (txt "a.pdf") uploaded None] []))
    as (w' & Hrun & _ & Hfailed & _).
  - reflexivity.
  - intros a p h r _ _ [].
  - reflexivity.
  - exists w'. split; [exact Hrun|exact Hfailed].
Defined.

End Ingestion.

(* ===================================================================== *)
(** * llm_classifier.py                                                   *)
(* ===================================================================== *)

Module Classifier.
Import Text Exceptions.

#[local] Set Warnings "-register-all".

(** Values produced by [json.loads]. *)
Inductive json :=
| JNull
| JBool (b : bool)
| JNum (q : Q)
| JStr (s : text)
| JArr (items : list json)
| JObj (fields : list (text * json)).

(** A Python dict with string keys, in insertion order. *)
Abbreviation dict := (list (text * json)).

Definition key_eqb (a b : text) : bool := bool_decide (a = b).

(** [d.get(k)] *)
Fixpoint dict_get (k : text) (d : dict) : option json :=
  match d with
  | [] => None
  | (k', v) :: d' => if key_eqb k k' then Some v else dict_get k d'
  end.

(** [d.setdefault(k, v)] *)
Definition dict_setdefault (k : text) (v : json) (d : dict) : dict :=
  match dict_get k d with
  | Some _ => d
  | None => d ++ [(k, v)]
  end.

(** [d.pop(k)] for a key that is present. *)
Definition dict_pop (k : text) (d : dict) : dict :=
  List.filter (fun kv => negb (key_eqb k kv.1)) d.

(** The record shape shared by the three literal dicts of the module. *)
Definition record (title description : json) (confidence : Q) : dict :=
  [ (txt "entity_type", JStr (txt "content"));
    (txt "category_level_1", JStr (txt "Uncategorized"));
    (txt "category_level_2_sub", JStr (txt "General Business"));
    (txt "business_concept_name", JNull);
    (txt "business_specific_name", JNull);
    (txt "primary_process_type", JStr (txt "Other"));
    (txt "title", title);
    (txt "description", description);
    (txt "extraction_confidence", JNum confidence) ].

(** The dict returned for an empty input. *)
Definition empty_input_record : dict :=
  record (JStr (txt "Empty Input"))
         (JStr (txt "No text provided for classification.")) 0.

(** The dict returned when the retries are used up. *)
Definition fallback_record (t : text) : dict :=
  record (JStr (txt "Classification Error")) (JStr (slice_to 200 t)) (4 # 10).

(** The dict that [parse_llm_json_output] puts in the place of output it
    cannot parse. *)
Definition parse_fallback (raw_output : text) : dict :=
  record (JStr (txt "Unclassified Entry")) (JStr (slice_to 250 raw_output)) (4 # 10).

Definition required_keys : list text :=
  [ txt "entity_type"; txt "category_level_1"; txt "category_level_2_sub";
    txt "business_concept_name"; txt "business_specific_name";
    txt "primary_process_type"; txt "title"; txt "description";
    txt "extraction_confidence" ].

(** The match of [re.search(r"\{[\s\S]*\}", s)]: from the first opening
    brace to the last closing brace behind it. *)
Fixpoint from_first (c : ascii) (s : text) : option text :=
  match s with
  | [] => None
  | x :: s' => if Ascii.eqb x c then Some s else from_first c s'
  end.

Definition brace_span (s : text) : option text :=
  match from_first "{"%char s with
  | None => None
  | Some tail =>
      match from_first "}"%char (rev tail) with
      | None => None
      | Some r => Some (rev r)
      end
  end.

(** [normalize_json_schema]: [setdefault] exists on dicts only, and the
    reasoning trace is sliced for the log before it is popped, which
    works on strings and lists only. *)
Definition normalize_json_schema (data : json) : outcome dict :=
  match data with
  | JObj fields =>
      let d := fold_left (fun d k => dict_setdefault k JNull d) required_keys fields in
      match dict_get (txt "__reasoning_trace") d with
      | None => Return d
      | Some (JStr _) | Some (JArr _) => Return (dict_pop (txt "__reasoning_trace") d)
      | Some _ => Raise (Exception (txt "object is not subscriptable"))
      end
  | _ => Raise (Exception (txt "object has no attribute 'setdefault'"))
  end.

(** [normalized.get("category_level_1") not in ("Uncategorized", None)] *)
Definition is_classified (d : dict) : bool :=
  match dict_get (txt "category_level_1") d with
  | None | Some JNull => false
  | Some (JStr s) => negb (key_eqb s (txt "Uncategorized"))
  | Some _ => true
  end.

(** The requests sent to the LLM endpoint so far, oldest first. *)
Abbreviation request_log := (list text).

(** Code of the classifier: it runs on the request log and either
    returns or raises. *)
Definition L (A : Type) : Type := request_log -> outcome A * request_log.

Definition lret {A} (a : A) : L A := fun log => (Return a, log).

Definition lbind {A B} (m : L A) (k : A -> L B) : L B :=
  fun log => match m log with
             | (Return a, log') => k a log'
             | (Raise e, log') => (Raise e, log')
             end.

Definition ltry {A} (m : L A) (handler : exn -> L A) : L A :=
  fun log => match m log with
             | (Return a, log') => (Return a, log')
             | (Raise e, log') => handler e log'
             end.

Section WithCollaborators.

(** The prompt loaded from the prompt file. *)
Variable PROMPT_TEXT : text.

(** The endpoint: what [response.json().get("response", "")] holds for
    the request with the given number and prompt, or the exception that
    [requests.post], [raise_for_status] or the decoding raises. *)
Variable llm_response : nat -> text -> outcome text.

(** [json.loads] *)
Variable json_loads : text -> outcome json.

(** [f"{PROMPT_TEXT}\n\n[INPUT]: {text.strip()}"] *)
Definition prompt_for (t : text) : text :=
  PROMPT_TEXT ++ txt "

[INPUT]: " ++ strip t.

(** [requests.post(OLLAMA_API, json=payload, timeout=180)] and the
    decoding of the response, logged as one request. *)
Definition post (prompt : text) : L text :=
  fun log => (llm_response (length log) prompt, log ++ [prompt]).

(** [parse_llm_json_output] *)
Definition parse_llm_json_output (raw_output : text) : json :=
  match json_loads raw_output with
  | Return v => v
  | Raise _ =>
      match brace_span raw_output with
      | Some m =>
          match json_loads m with
          | Return v => v
          | Raise _ => JObj (parse_fallback raw_output)
          end
      | None => JObj (parse_fallback raw_output)
      end
  end.

(** What the body of the [try] makes of a response: the dict to return
    from inside the loop, [None] to go on with the next attempt. *)
Definition interpret_response (raw : text) : outcome (option dict) :=
  match strip raw with
  | [] => Raise (Exception (txt "Empty model response."))
  | raw_output =>
      match normalize_json_schema (parse_llm_json_output raw_output) with
      | Raise e => Raise e
      | Return normalized =>
          if is_classified normalized then Return (Some normalized) else Return None
      end
  end.

(** One turn of the retry loop, with its [except Exception]. *)
Definition one_attempt (t : text) : L (option dict) :=
  ltry (lbind (post (prompt_for t))
              (fun raw log => (interpret_response raw, log)))
       (fun _ => lret None).

(** [for attempt in range(max_retries)] *)
Fixpoint attempts (n : nat) (t : text) : L (option dict) :=
  match n with
  | O => lret None
  | S n' =>
      lbind (one_attempt t) (fun r =>
        match r with
        | Some d => lret (Some d)
        | None => attempts n' t
        end)
  end.

(** [classify_text_with_llm] *)
Definition classify_text_with_llm (t : text) (max_retries : Z) : L dict :=
  if blank t then lret empty_input_record
  else lbind (attempts (Z.to_nat max_retries) t) (fun r =>
         match r with
         | Some d => lret d
         | None => lret (fallback_record t)
         end).

(** ** One attempt *)

(** What one request contributes, as a function of the response. *)
Definition attempt_result (o : outcome text) : option dict :=
  match o with
  | Raise _ => None
  | Return raw =>
      match interpret_response raw with
      | Return r => r
      | Raise _ => None
      end
  end.

Lemma one_attempt_eq (t : text) (log : request_log) :
  one_attempt t log
  = (Return (attempt_result (llm_response (length log) (prompt_for t))),
     log ++ [prompt_for t]).
Proof.
  unfold one_attempt, ltry, lbind, post, lret, attempt_result.
  destruct (llm_response (length log) (prompt_for t)) as [e|raw]; [done|].
  by destruct (interpret_response raw) as [e|r].
Qed.

(** The behaviours of the endpoint that make an attempt fail. *)
Lemma attempt_unreachable (e : exn) : attempt_result (Raise e) = None.
Proof. reflexivity. Qed.

Lemma attempt_empty_response (raw : text) :
  strip raw = [] -> attempt_result (Return raw) = None.
Proof. intros H. unfold attempt_result, interpret_response. by rewrite H. Qed.

Lemma parse_fallback_not_classified (raw_output : text) :
  normalize_json_schema (JObj (parse_fallback raw_output))
    = Return (parse_fallback raw_output)
  /\ is_classified (parse_fallback raw_output) = false.
Proof. split; reflexivity. Qed.

Lemma attempt_malformed_json (raw : text) (e : exn) :
  json_loads (strip raw) = Raise e ->
  (forall m, brace_span (strip raw) = Some m -> exists e', json_loads m = Raise e') ->
  attempt_result (Return raw) = None.
Proof.
  intros Hraw Hspan. unfold attempt_result, interpret_response.
  destruct (strip raw) as [|c s] eqn:E; [done|].
  assert (parse_llm_json_output (c :: s) = JObj (parse_fallback (c :: s))) as ->.
  { unfold parse_llm_json_output. rewrite Hraw.
    destruct (brace_span (c :: s)) as [m|] eqn:Em; [|done].
    destruct (Hspan m eq_refl) as [e' ->]. done. }
  destruct (parse_fallback_not_classified (c :: s)) as [-> ->]. done.
Qed.

Lemma attempt_not_classified (raw : text) (v : json) :
  json_loads (strip raw) = Return v ->
  (forall d, normalize_json_schema v = Return d -> is_classified d = false) ->
  attempt_result (Return raw) = None.
Proof.
  intros Hraw Hcat. unfold attempt_result, interpret_response.
  destruct (strip raw) as [|c s] eqn:E; [done|].
  unfold parse_llm_json_output. rewrite Hraw.
  destruct (normalize_json_schema v) as [e|d] eqn:En; [done|].
  by rewrite (Hcat d eq_refl).
Qed.

(** ** The retry loop *)

Lemma attempts_returns (t : text) : forall (n : nat) (log : request_log),
  exists r log', attempts n t log = (Return r, log').
Proof.
  induction n as [|n IH]; intros log; simpl.
  - by exists None, log.
  - unfold lbind. rewrite one_attempt_eq.
    destruct (attempt_result _) as [d|]; [by eexists _, _|]. apply IH.
Qed.

Lemma attempts_exhausted (t : text) : forall (n : nat) (log : request_log),
  (forall i, i < n ->
     attempt_result (llm_response (length log + i) (prompt_for t)) = None) ->
  attempts n t log = (Return None, log ++ repeat (prompt_for t) n).
Proof.
  induction n as [|n IH]; intros log Hfail; simpl.
  - unfold lret. by rewrite app_nil_r.
  - unfold lbind. rewrite one_attempt_eq.
    pose proof (Hfail 0 ltac:(lia)) as H0. rewrite Nat.add_0_r in H0. rewrite H0.
    rewrite IH.
    + by rewrite <- app_assoc.
    + intros i Hi. rewrite length_app. simpl.
      replace (length log + 1 + i) with (length log + S i) by lia.
      apply Hfail. lia.
Qed.

Lemma classify_returns (t : text) (max_retries : Z) (log : request_log) :
  exists r log', classify_text_with_llm t max_retries log = (Return r, log').
Proof.
  unfold classify_text_with_llm. destruct (blank t); [by eexists _, _|].
  unfold lbind. destruct (attempts_returns t (Z.to_nat max_retries) log) as (r & log' & ->).
  destruct r; by eexists _, _.
Qed.

Lemma classify_exhausted (t : text) (max_retries : Z) (log : request_log) :
  blank t = false ->
  (forall i, i < Z.to_nat max_retries ->
     attempt_result (llm_response (length log + i) (prompt_for t)) = None) ->
  classify_text_with_llm t max_retries log
  = (Return (fallback_record t),
     log ++ repeat (prompt_for t) (Z.to_nat max_retries)).
Proof.
  intros Hnb Hfail. unfold classify_text_with_llm. rewrite Hnb.
  unfold lbind. by rewrite attempts_exhausted.
Qed.

(** C8: [classify_text_with_llm] returns a dict on every input, whatever
    the endpoint and the JSON parser do, and never raises; when the text
    is not blank and none of the [max_retries] attempts yields a
    classified record (endpoint unreachable, empty response, malformed
    JSON, category "Uncategorized" or absent), the dict is the fallback
    record: [category_level_1 = "Uncategorized"],
    [extraction_confidence = 0.4] and the first 200 characters of the
    input as [description]. *)
Theorem classify_fails_soft (t : text) (max_retries : Z) (log : request_log) :
  (exists r log', classify_text_with_llm t max_retries log = (Return r, log'))
  /\ (blank t = false ->
      (forall i, i < Z.to_nat max_retries ->
         attempt_result (llm_response (length log + i) (prompt_for t)) = None) ->
      (classify_text_with_llm t max_retries log).1 = Return (fallback_record t)
      /\ dict_get (txt "category_level_1") (fallback_record t)
           = Some (JStr (txt "Uncategorized"))
      /\ dict_get (txt "extraction_confidence") (fallback_record t)
           = Some (JNum (4 # 10))
      /\ dict_get (txt "description") (fallback_record t)
           = Some (JStr (slice_to 200 t))).
Proof.
  split; [apply classify_returns|].
  intros Hnb Hfail. rewrite (classify_exhausted t max_retries log Hnb Hfail).
  repeat split.
Qed.

(** C10: on an empty or whitespace-only input [classify_text_with_llm]
    returns the fixed "Empty Input" record, with
    [category_level_1 = "Uncategorized"],
    [category_level_2_sub = "General Business"] and
    [extraction_confidence = 0.0], and sends no request: the request log
    is the one it started with. *)
Theorem classify_blank_input (t : text) (max_retries : Z) (log : request_log) :
  blank t = true ->
  classify_text_with_llm t max_retries log = (Return empty_input_record, log)
  /\ dict_get (txt "category_level_1") empty_input_record
       = Some (JStr (txt "Uncategorized"))
  /\ dict_get (txt "category_level_2_sub") empty_input_record
       = Some (JStr (txt "General Business"))
  /\ dict_get (txt "title") empty_input_record = Some (JStr (txt "Empty Input"))
  /\ dict_get (txt "extraction_confidence") empty_input_record = Some (JNum 0).
Proof.
  intros Hb. unfold classify_text_with_llm. rewrite Hb. repeat split.
Qed.

(** ** Further properties of the classifier *)

Lemma key_eqb_eq (a b : text) : key_eqb a b = true <-> a = b.
Proof. unfold key_eqb. apply bool_decide_eq_true. Qed.

Lemma key_eqb_sym (a b : text) : key_eqb a b = key_eqb b a.
Proof. unfold key_eqb. repeat case_bool_decide; congruence. Qed.

Lemma dict_get_app (k : text) (d1 d2 : dict) :
  dict_get k (d1 ++ d2)
  = match dict_get k d1 with Some v => Some v | None => dict_get k d2 end.
Proof.
  induction d1 as [|[k' v] d1 IH]; simpl; [done|].
  by destruct (key_eqb k k').
Qed.

Lemma dict_get_setdefault (k' k : text) (v : json) (d : dict) :
  dict_get k' (dict_setdefault k v d)
  = match dict_get k' d with
    | Some x => Some x
    | None => if key_eqb k' k then Some v else None
    end.
Proof.
  unfold dict_setdefault. destruct (dict_get k d) as [x|] eqn:E.
  - destruct (dict_get k' d) as [y|] eqn:E'; [done|].
    destruct (key_eqb k' k) eqn:Ek; [|done].
    apply key_eqb_eq in Ek. subst k'. congruence.
  - rewrite dict_get_app. simpl. by destruct (key_eqb k' k).
Qed.

Lemma dict_get_defaults (k' : text) (keys : list text) : forall d : dict,
  dict_get k' (fold_left (fun d k => dict_setdefault k JNull d) keys d)
  = match dict_get k' d with
    | Some x => Some x
    | None => if existsb (key_eqb k') keys then Some JNull else None
    end.
Proof.
  induction keys as [|k keys IH]; intros d; simpl.
  - by destruct (dict_get k' d).
  - rewrite IH, dict_get_setdefault.
    destruct (dict_get k' d); [done|]. by destruct (key_eqb k' k).
Qed.

Lemma dict_get_pop (k' k : text) (d : dict) :
  dict_get k' (dict_pop k d) = if key_eqb k' k then None else dict_get k' d.
Proof.
  unfold dict_pop. induction d as [|[k0 v] d IH]; simpl.
  - by destruct (key_eqb k' k).
  - destruct (key_eqb k k0) eqn:E0; simpl.
    + apply key_eqb_eq in E0. subst k0. rewrite IH.
      by destruct (key_eqb k' k).
    + destruct (key_eqb k' k0) eqn:E1; [|done].
      apply key_eqb_eq in E1. subst k0. by rewrite key_eqb_sym, E0.
Qed.

Lemma required_key_cases (k : text) :
  In k required_keys ->
  existsb (key_eqb k) required_keys = true /\ k <> txt "__reasoning_trace".
Proof.
  unfold required_keys.
  intros H. repeat (destruct H as [<-|H]; [split; [reflexivity|discriminate]|]).
  destruct H.
Qed.

(** The keys and values of a normalised dict. *)
Definition normalized_from (fields d : dict) : Prop :=
  (forall k, In k required_keys -> is_Some (dict_get k d))
  /\ dict_get (txt "__reasoning_trace") d = None
  /\ (forall k, k <> txt "__reasoning_trace" ->
        dict_get k d
        = match dict_get k fields with
          | Some v => Some v
          | None => if existsb (key_eqb k) required_keys then Some JNull else None
          end).

Lemma normalize_json_schema_spec (data : json) (d : dict) :
  normalize_json_schema data = Return d ->
  exists fields, data = JObj fields /\ normalized_from fields d.
Proof.
  destruct data as [| | | | |fields]; try discriminate.
  intros H. exists fields. split; [done|]. revert H.
  unfold normalize_json_schema.
  set (d0 := fold_left _ required_keys fields).
  assert (forall k, dict_get k d0
                    = match dict_get k fields with
                      | Some v => Some v
                      | None => if existsb (key_eqb k) required_keys
                                then Some JNull else None
                      end) as Hd0 by (intros k; apply dict_get_defaults).
  assert (forall d, (forall k, k <> txt "__reasoning_trace" ->
                        dict_get k d = dict_get k d0) ->
                    dict_get (txt "__reasoning_trace") d = None ->
                    normalized_from fields d) as Hfrom.
  { intros d' Hsame Hnone. split; [|split; [done|]].
    - intros k Hk. destruct (required_key_cases k Hk) as [Hex Hne].
      rewrite (Hsame k Hne), Hd0, Hex. by destruct (dict_get k fields).
    - intros k Hne. by rewrite (Hsame k Hne), Hd0. }
  assert (normalized_from fields (dict_pop (txt "__reasoning_trace") d0)) as Hpop.
  { apply Hfrom.
    - intros k Hne. rewrite dict_get_pop.
      destruct (key_eqb k (txt "__reasoning_trace")) eqn:E; [|done].
      by apply key_eqb_eq in E.
    - rewrite dict_get_pop. by rewrite (proj2 (key_eqb_eq _ _) eq_refl). }
  destruct (dict_get (txt "__reasoning_trace") d0) as [[| | |tr|tr|]|] eqn:E;
    try discriminate; intros [= <-]; try done.
  by apply Hfrom.
Qed.

(** X17: when [normalize_json_schema] returns, its argument was a JSON
    object and the result holds all nine required keys and no
    [__reasoning_trace]; every other key keeps the value the object gave
    it, a required key the object lacked is [None], and no other key is
    added. *)
Theorem normalize_json_schema_result (data : json) (d : dict) :
  normalize_json_schema data = Return d ->
  exists fields,
    data = JObj fields
    /\ (forall k, In k required_keys -> is_Some (dict_get k d))
    /\ dict_get (txt "__reasoning_trace") d = None
    /\ (forall k, k <> txt "__reasoning_trace" ->
          dict_get k d
          = match dict_get k fields with
            | Some v => Some v
            | None => if existsb (key_eqb k) required_keys then Some JNull else None
            end).
Proof. apply normalize_json_schema_spec. Qed.

Lemma attempt_result_Some (o : outcome text) (d : dict) :
  attempt_result o = Some d ->
  exists raw, o = Return raw
    /\ normalize_json_schema (parse_llm_json_output (strip raw)) = Return d
    /\ is_classified d = true.
Proof.
  destruct o as [e|raw]; [discriminate|]. intros H. exists raw. split; [done|].
  revert H. unfold attempt_result, interpret_response.
  destruct (strip raw) as [|c r]; [discriminate|].
  destruct (normalize_json_schema _) as [e|n]; [discriminate|].
  destruct (is_classified n) eqn:E; [|discriminate]. by intros [= <-].
Qed.

(** What the retry loop sends and when it stops. *)
Lemma attempts_log (t : text) : forall (n : nat) (log : request_log),
  exists r k,
    attempts n t log = (Return r, log ++ repeat (prompt_for t) k)
    /\ k <= n
    /\ match r with
       | Some d =>
           exists j, k = S j
             /\ attempt_result (llm_response (length log + j) (prompt_for t)) = Some d
             /\ forall i, i < j ->
                  attempt_result (llm_response (length log + i) (prompt_for t)) = None
       | None =>
           k = n
           /\ forall i, i < n ->
                attempt_result (llm_response (length log + i) (prompt_for t)) = None
       end.
Proof.
  induction n as [|n IH]; intros log.
  - exists None, 0. simpl. unfold lret. rewrite app_nil_r.
    split; [done|]. split; [lia|]. split; [done|]. intros i Hi. lia.
  - simpl. unfold lbind. rewrite one_attempt_eq.
    destruct (attempt_result (llm_response (length log) (prompt_for t)))
      as [d|] eqn:E.
    + exists (Some d), 1. split; [done|]. split; [lia|].
      exists 0. rewrite Nat.add_0_r. split; [done|]. split; [done|].
      intros i Hi. lia.
    + destruct (IH (log ++ [prompt_for t])) as (r & k & Hrun & Hk & Hr).
      exists r, (S k). rewrite Hrun, <- app_assoc. split; [done|]. split; [lia|].
      rewrite length_app in Hr. simpl in Hr.
      assert (forall P : nat -> Prop, P 0 ->
                (forall i, P (S i)) -> forall i, P i) as Hcase
        by (intros P H0 HS [|i]; auto).
      destruct r as [d|].
      * destruct Hr as (j & -> & Hj & Hbefore). exists (S j).
        split; [done|]. split.
        { by replace (length log + S j) with (length log + 1 + j) by lia. }
        intros [|i] Hi; [by rewrite Nat.add_0_r|].
        replace (length log + S i) with (length log + 1 + i) by lia.
        apply Hbefore. lia.
      * destruct Hr as (-> & Hall). split; [done|].
        intros [|i] Hi; [by rewrite Nat.add_0_r|].
        replace (length log + S i) with (length log + 1 + i) by lia.
        apply Hall. lia.
Qed.

(** X18: [classify_text_with_llm] sends the same prompt each time, at most
    [max_retries] times, and its result is one of three: the
    "Empty Input" record, with no request sent, for a blank text; the
    record of the first attempt that yields a classified one, with no
    request sent after it; or the fallback record, after [max_retries]
    attempts that all yielded none. *)
Theorem classify_request_budget (t : text) (max_retries : Z) (log : request_log) :
  exists r k,
    classify_text_with_llm t max_retries log
      = (Return r, log ++ repeat (prompt_for t) k)
    /\ k <= Z.to_nat max_retries
    /\ ((blank t = true /\ k = 0 /\ r = empty_input_record)
        \/ (blank t = false
            /\ exists j, k = S j
                 /\ attempt_result (llm_response (length log + j) (prompt_for t))
                    = Some r
                 /\ is_classified r = true
                 /\ forall i, i < j ->
                      attempt_result (llm_response (length log + i) (prompt_for t))
                      = None)
        \/ (blank t = false /\ k = Z.to_nat max_retries
            /\ r = fallback_record t
            /\ forall i, i < k ->
                 attempt_result (llm_response (length log + i) (prompt_for t))
                 = None)).
Proof.
  unfold classify_text_with_llm. destruct (blank t) eqn:Hb.
  - exists empty_input_record, 0. unfold lret. simpl. rewrite app_nil_r.
    split; [done|]. split; [lia|]. by left.
  - unfold lbind.
    destruct (attempts_log t (Z.to_nat max_retries) log) as (r & k & -> & Hk & Hr).
    destruct r as [d|].
    + exists d, k. split; [done|]. split; [done|]. right. left. split; [done|].
      destruct Hr as (j & -> & Hj & Hbefore). exists j.
      split; [done|]. split; [done|]. split; [|done].
      by destruct (attempt_result_Some _ _ Hj) as (raw & _ & _ & Hc).
    + exists (fallback_record t), k. split; [done|]. split; [done|].
      right. right. destruct Hr as (-> & Hall). done.
Qed.

(** X19: whatever the endpoint answers, the dict that
    [classify_text_with_llm] returns holds all nine required keys and no
    [__reasoning_trace]. *)
Theorem classify_result_has_required_keys (t : text) (max_retries : Z)
    (log : request_log) :
  exists r log',
    classify_text_with_llm t max_retries log = (Return r, log')
    /\ (forall k, In k required_keys -> is_Some (dict_get k r))
    /\ dict_get (txt "__reasoning_trace") r = None.
Proof.
  assert (forall title description confidence,
            (forall k, In k required_keys ->
               is_Some (dict_get k (record title description confidence)))
            /\ dict_get (txt "__reasoning_trace")
                 (record title description confidence) = None) as Hrecord.
  { intros title description confidence. split; [|reflexivity].
    unfold required_keys. intros k H.
    repeat (destruct H as [<-|H]; [by eexists|]). destruct H. }
  unfold classify_text_with_llm. destruct (blank t).
  - eexists _, _. split; [reflexivity|]. apply Hrecord.
  - unfold lbind.
    destruct (attempts_log t (Z.to_nat max_retries) log) as (r & k & -> & _ & Hr).
    destruct r as [d|].
    + eexists _, _. split; [reflexivity|].
      destruct Hr as (j & _ & Hj & _).
      destruct (attempt_result_Some _ _ Hj) as (raw & _ & Hn & _).
      destruct (normalize_json_schema_spec _ _ Hn) as (fields & _ & Hkeys & Hnone & _).
      done.
    + eexists _, _. split; [reflexivity|]. apply Hrecord.
Qed.

Lemma from_first_skip (c : ascii) (pre rest : text) :
  Forall (fun x => x <> c) pre ->
  from_first c (pre ++ c :: rest) = Some (c :: rest).
Proof.
  induction 1 as [|x pre Hx _ IH]; simpl.
  - by rewrite Ascii.eqb_refl.
  - destruct (Ascii.eqb x c) eqn:E; [|done]. by apply Ascii.eqb_eq in E.
Qed.

Lemma brace_span_embedded (pre body post : text) :
  Forall (fun x => x <> "{"%char) pre ->
  Forall (fun x => x <> "}"%char) post ->
  brace_span (pre ++ "{"%char :: body ++ "}"%char :: post)
  = Some ("{"%char :: body ++ ["}"%char]).
Proof.
  intros Hpre Hpost. unfold brace_span. rewrite (from_first_skip _ _ _ Hpre).
  change ("{"%char :: body ++ "}"%char :: post)
    with (("{"%char :: body) ++ "}"%char :: post).
  change ("{"%char :: body ++ ["}"%char]) with (("{"%char :: body) ++ ["}"%char]).
  generalize ("{"%char :: body). intros span.
  rewrite rev_app_distr. cbn [rev]. rewrite <- app_assoc. cbn [app].
  rewrite from_first_skip.
  - cbn [rev]. by rewrite rev_involutive.
  - apply List.Forall_forall. intros x Hx. apply in_rev in Hx.
    by apply (proj1 (List.Forall_forall _ _) Hpost).
Qed.

(** X20: a JSON object wrapped in chatter is recovered: when the whole
    output does not parse, and it holds an opening brace with none before
    it and a closing brace with none after it, [parse_llm_json_output]
    returns what [json.loads] makes of the text from the one to the
    other. *)
Theorem parse_llm_json_output_recovers (pre body post : text) (e : exn) (v : json) :
  Forall (fun x => x <> "{"%char) pre ->
  Forall (fun x => x <> "}"%char) post ->
  json_loads (pre ++ "{"%char :: body ++ "}"%char :: post) = Raise e ->
  json_loads ("{"%char :: body ++ ["}"%char]) = Return v ->
  parse_llm_json_output (pre ++ "{"%char :: body ++ "}"%char :: post) = v.
Proof.
  intros Hpre Hpost Hwhole Hspan. unfold parse_llm_json_output.
  by rewrite Hwhole, (brace_span_embedded _ _ _ Hpre Hpost), Hspan.
Qed.

End WithCollaborators.

(** ** Concrete runs *)

Definition unreachable (n : nat) (prompt : text) : outcome text :=
  Raise (Exception (txt "Connection refused")).

Definition no_json (s : text) : outcome json :=
  Raise (Exception (txt "Expecting value")).

Lemma classify_fails_soft_witness :
  (classify_text_with_llm (txt "PROMPT") unreachable no_json
     (txt "Trends in organic fertilizer production.") 2 []).1
  = Return (fallback_record (txt "Trends in organic fertilizer production.")).
Proof.
  apply (classify_fails_soft (txt "PROMPT") unreachable no_json
           (txt "Trends in organic fertilizer production.") 2%Z []).
  - vm_compute. reflexivity.
  - intros i _. reflexivity.
Defined.

Lemma classify_blank_input_witness :
  classify_text_with_llm (txt "PROMPT") unreachable no_json (txt "   ") 2 []
  = (Return empty_input_record, []).
Proof.
  apply (classify_blank_input (txt "PROMPT") unreachable no_json (txt "   ") 2%Z []).
  vm_compute. reflexivity.
Defined.

(** Two attempts against an unreachable endpoint send two requests. *)
Example unreachable_two_requests :
  length (classify_text_with_llm (txt "PROMPT") unreachable no_json
            (txt "Trends in organic fertilizer production.") 2 []).2 = 2.
Proof. vm_compute. reflexivity. Qed.

(** A classified answer with a reasoning trace, and what it is
    normalised to. *)
Definition classified_answer : json :=
  JObj [ (txt "category_level_1", JStr (txt "Marketing"));
         (txt "__reasoning_trace", JStr (txt "thinking")) ].

Definition classified_record : dict :=
  [ (txt "category_level_1", JStr (txt "Marketing"));
    (txt "entity_type", JNull);
    (txt "category_level_2_sub", JNull);
    (txt "business_concept_name", JNull);
    (txt "business_specific_name", JNull);
    (txt "primary_process_type", JNull);
    (txt "title", JNull);
    (txt "description", JNull);
    (txt "extraction_confidence", JNull) ].

Lemma normalize_classified_answer :
  normalize_json_schema classified_answer = Return classified_record.
Proof. vm_compute. reflexivity. Qed.

Lemma normalize_json_schema_result_witness :
  exists fields,
    classified_answer = JObj fields
    /\ (forall k, In k required_keys -> is_Some (dict_get k classified_record))
    /\ dict_get (txt "__reasoning_trace") classified_record = None
    /\ (forall k, k <> txt "__reasoning_trace" ->
          dict_get k classified_record
          = match dict_get k fields with
            | Some v => Some v
            | None => if existsb (key_eqb k) required_keys then Some JNull else None
            end).
Proof.
  exact (normalize_json_schema_result classified_answer classified_record
           normalize_classified_answer).
Defined.

(** A parser that knows the empty object only. *)
Definition empty_object_only (s : text) : outcome json :=
  if bool_decide (s = txt "{}") then Return (JObj [])
  else Raise (Exception (txt "Expecting value")).

Lemma parse_llm_json_output_recovers_witness :
  parse_llm_json_output empty_object_only (txt "Sure: {} done") = JObj [].
Proof.
  apply (parse_llm_json_output_recovers empty_object_only
           (txt "Sure: ") [] (txt " done") (Exception (txt "Expecting value"))
           (JObj [])).
  - repeat (constructor; [discriminate|]). constructor.
  - repeat (constructor; [discriminate|]). constructor.
  - vm_compute. reflexivity.
  - vm_compute. reflexivity.
Defined.

End Classifier.

(* ===================================================================== *)
(** * unified_ingest_helper.py                                            *)
(* ===================================================================== *)

Module UnifiedIngest.
Import Text Exceptions.

Abbreviation ident := Schema.ident.

(** Rows of [taxonomy_categories], [businesses], [contents] and
    [entity_links] ([api/db/models.py]); the JSON columns and the
    timestamps are left out. *)
Record TaxonomyCategory := {
  cat_id : ident;
  cat_name : text;
  cat_group : text;
  cat_description : text;
}.

Record Business := {
  business_id : ident;
  business_name : text;
  business_industry : text;
  business_description : text;
}.

Record Content := {
  content_id : ident;
  content_business_id : ident;
  content_title : text;
  content_type : text;
  content_text : text;
  content_summary : text;
  content_category : text;
  content_sub_category : text;
  content_fingerprint : text;
  content_confidence : Q;
}.

Record EntityLink := {
  link_id : ident;
  link_category_id : ident;
  link_subcategory_id : ident;
  link_business_id : ident;
  link_entity_type : text;
  link_entity_id : ident;
  link_fingerprint : text;
}.

Record store := {
  taxonomy_categories : list TaxonomyCategory;
  businesses : list Business;
  contents : list Content;
  entity_links : list EntityLink;
}.

(** A session of [SessionLocal]: what the database holds for good
    ([committed]), what the open transaction sees ([working]), the supply
    of [generate_uuid], and the ids held by the Chroma collection. *)
Record session := {
  committed : store;
  working : store;
  next_uuid : N;
  vectors : gset text;
}.

Definition set_working (st : store) (s : session) : session :=
  {| committed := committed s; working := st;
     next_uuid := next_uuid s; vectors := vectors s |}.

(** The statements of [process_and_store_document] that write rows. *)
Inductive write_step :=
| CommitCategory | CommitSubcategory | CommitBusiness | FlushContent | CommitEntityLink.

Definition T (A : Type) : Type := session -> outcome A * session.

Definition tret {A} (a : A) : T A := fun s => (Return a, s).
Definition traise {A} (e : exn) : T A := fun s => (Raise e, s).

Definition tbind {A B} (m : T A) (k : A -> T B) : T B :=
  fun s => match m s with
           | (Return a, s') => k a s'
           | (Raise e, s') => (Raise e, s')
           end.

Definition ttry {A} (m : T A) (handler : exn -> T A) : T A :=
  fun s => match m s with
           | (Return a, s') => (Return a, s')
           | (Raise e, s') => handler e s'
           end.

Notation "x <-- m ;; k" := (tbind m (fun x => k))
  (at level 100, m at next level, right associativity).
Notation "m >>> k" := (tbind m (fun _ => k))
  (at level 100, right associativity).

(** [generate_uuid] *)
Definition generate_uuid : T ident :=
  fun s => (Return (next_uuid s),
            {| committed := committed s; working := working s;
               next_uuid := N.succ (next_uuid s); vectors := vectors s |}).

(** [db.rollback()] *)
Definition db_rollback : T unit :=
  fun s => (Return tt, set_working (committed s) s).

(** [db.query(...)] on what the transaction sees. *)
Definition db_query {A} (f : store -> A) : T A :=
  fun s => (Return (f (working s)), s).

(** [db.add(row)] *)
Definition db_add (f : store -> store) : T unit :=
  fun s => (Return tt, set_working (f (working s)) s).

Definition add_category (c : TaxonomyCategory) (st : store) : store :=
  {| taxonomy_categories := taxonomy_categories st ++ [c];
     businesses := businesses st; contents := contents st;
     entity_links := entity_links st |}.

Definition add_business (b : Business) (st : store) : store :=
  {| taxonomy_categories := taxonomy_categories st;
     businesses := businesses st ++ [b]; contents := contents st;
     entity_links := entity_links st |}.

Definition add_content (c : Content) (st : store) : store :=
  {| taxonomy_categories := taxonomy_categories st;
     businesses := businesses st; contents := contents st ++ [c];
     entity_links := entity_links st |}.

Definition add_entity_link (l : EntityLink) (st : store) : store :=
  {| taxonomy_categories := taxonomy_categories st;
     businesses := businesses st; contents := contents st;
     entity_links := entity_links st ++ [l] |}.

(** What the caller gets back. *)
Inductive ingest_result :=
| Skipped (existing_id : ident)
| Success (entity_link_id : ident).

(** [clean_text_for_postgres] *)
Definition clean_text_for_postgres (raw : text) : text :=
  List.filter TextCleaner.keeps
    (List.filter (fun c => negb (Ascii.eqb c zero)) raw).

Section WithCollaborators.

(** [compute_fingerprint]: SHA-256 in hex. *)
Variable compute_fingerprint : text -> text.

(** [column.ilike(pattern)] *)
Variable ilike : text -> text -> bool.

(** Which of the writing statements fails in this run. *)
Variable fails : write_step -> bool.

(** Whether the Chroma call goes through; its exception is dropped. *)
Variable chroma_ok : bool.

(** [db.commit()]: a failing commit raises and the database keeps what
    it held; a successful one makes the work of the transaction final. *)
Definition db_commit (step : write_step) : T unit :=
  fun s =>
    if fails step
    then (Raise (Exception (txt "commit failed")), s)
    else (Return tt,
          {| committed := working s; working := working s;
             next_uuid := next_uuid s; vectors := vectors s |}).

(** [db.flush()] *)
Definition db_flush (step : write_step) : T unit :=
  fun s =>
    if fails step
    then (Raise (Exception (txt "flush failed")), s)
    else (Return tt, s).

(** Steps 2 and 3 of the function: look the row up, create and commit it
    when it is missing. *)
Definition ensure_category (name description : text) (step : write_step)
    : T TaxonomyCategory :=
  found <-- db_query (fun st =>
              find (fun c => ilike (cat_name c) name) (taxonomy_categories st)) ;;
  match found with
  | Some c => tret c
  | None =>
      id <-- generate_uuid ;;
      let c := {| cat_id := id; cat_name := name; cat_group := txt "content";
                  cat_description := description |} in
      db_add (add_category c) >>> db_commit step >>> tret c
  end.

Definition ensure_business : T Business :=
  found <-- db_query (fun st =>
              find (fun b => ilike (business_name b) (txt "Manual Upload Business"))
                   (businesses st)) ;;
  match found with
  | Some b => tret b
  | None =>
      id <-- generate_uuid ;;
      let b := {| business_id := id;
                  business_name := txt "Manual Upload Business";
                  business_industry := txt "General";
                  business_description :=
                    txt "Placeholder business for manual uploads." |} in
      db_add (add_business b) >>> db_commit CommitBusiness >>> tret b
  end.

(** Step 6: the vector store sync. *)
Definition chroma_add (fingerprint : text) : T unit :=
  fun s =>
    if chroma_ok
    then (Return tt,
          {| committed := committed s; working := working s;
             next_uuid := next_uuid s; vectors := vectors s ∪ {[fingerprint]} |})
    else (Return tt, s).

(** The body of the [try] block. *)
Definition store_document (t file_name source category subcategory : text)
    (confidence : Q) (fingerprint : text) : T ingest_result :=
  existing <-- db_query (fun st =>
                 find (fun c => bool_decide (content_fingerprint c = fingerprint))
                      (contents st)) ;;
  match existing with
  | Some c => db_rollback >>> tret (Skipped (content_id c))
  | None =>
      cat_obj <-- ensure_category category (txt "Auto-generated") CommitCategory ;;
      subcat_obj <-- ensure_category subcategory (txt "Auto-generated subcategory")
                       CommitSubcategory ;;
      business <-- ensure_business ;;
      cid <-- generate_uuid ;;
      let content :=
        {| content_id := cid;
           content_business_id := business_id business;
           content_title := file_name;
           content_type := txt "document";
           content_text := t;
           content_summary := slice_to 300 t;
           content_category := category;
           content_sub_category := subcategory;
           content_fingerprint := fingerprint;
           content_confidence := confidence |} in
      db_add (add_content content) >>>
      db_flush FlushContent >>>
      lid <-- generate_uuid ;;
      let entity_link :=
        {| link_id := lid;
           link_category_id := cat_id cat_obj;
           link_subcategory_id := cat_id subcat_obj;
           link_business_id := business_id business;
           link_entity_type := txt "content";
           link_entity_id := cid;
           link_fingerprint := fingerprint |} in
      db_add (add_entity_link entity_link) >>>
      db_commit CommitEntityLink >>>
      chroma_add fingerprint >>>
      tret (Success lid)
  end.

(** [process_and_store_document]: the [try] block with its
    [except Exception: db.rollback(); raise], run inside
    [get_db_connection], which rolls back once more on the way out. *)
Definition process_and_store_document (raw file_name source category subcategory : text)
    (confidence : Q) : T ingest_result :=
  let t := clean_text_for_postgres raw in
  let fingerprint := compute_fingerprint t in
  ttry
    (ttry (store_document t file_name source category subcategory confidence fingerprint)
          (fun e => db_rollback >>> traise e))
    (fun e => db_rollback >>> traise e).

(** ** What a failed call leaves behind *)

(** The claim that one transaction covers the whole call: a call that
    raises leaves the database as it found it. *)
Definition single_transaction_claim (raw file_name source category subcategory : text)
    (confidence : Q) (s : session) : Prop :=
  forall e s',
    process_and_store_document raw file_name source category subcategory confidence s
      = (Raise e, s') ->
    committed s' = committed s.

(** The database after some statements of a call started in [s0]: same
    Content and Entity Link rows, at most [nc] more categories and [nb]
    more businesses. *)
Definition committed_extends (nc nb : nat) (s0 s : session) : Prop :=
  contents (committed s) = contents (committed s0)
  /\ entity_links (committed s) = entity_links (committed s0)
  /\ (exists new_categories,
        taxonomy_categories (committed s)
          = taxonomy_categories (committed s0) ++ new_categories
        /\ length new_categories <= nc)
  /\ (exists new_businesses,
        businesses (committed s) = businesses (committed s0) ++ new_businesses
        /\ length new_businesses <= nb).

(** The transaction holds no uncommitted work. *)
Definition synced (s : session) : Prop := working s = committed s.

Lemma committed_extends_weaken (nc nb nc' nb' : nat) (s0 s : session) :
  nc <= nc' -> nb <= nb' ->
  committed_extends nc nb s0 s -> committed_extends nc' nb' s0 s.
Proof.
  intros Hc Hb (H1 & H2 & (cs & Hcs & Hlc) & (bs & Hbs & Hlb)).
  repeat split; [done|done| |].
  - exists cs. split; [done|lia].
  - exists bs. split; [done|lia].
Qed.

Lemma committed_extends_same (nc nb : nat) (s0 s s1 : session) :
  committed s1 = committed s ->
  committed_extends nc nb s0 s -> committed_extends nc nb s0 s1.
Proof. unfold committed_extends. by intros ->. Qed.

(** Hoare triples with a postcondition for each way out. *)
Definition triple {A} (pre : session -> Prop) (m : T A)
    (post : A -> session -> Prop) (failed : session -> Prop) : Prop :=
  forall s, pre s ->
    match m s with
    | (Return a, s') => post a s'
    | (Raise _, s') => failed s'
    end.

Lemma triple_bind {A B} (pre : session -> Prop) (m : T A) (k : A -> T B)
    (mid : A -> session -> Prop) (post : B -> session -> Prop)
    (failed : session -> Prop) :
  triple pre m mid failed ->
  (forall a, triple (mid a) (k a) post failed) ->
  triple pre (tbind m k) post failed.
Proof.
  intros Hm Hk s Hs. unfold tbind. specialize (Hm s Hs).
  destruct (m s) as [[e|a] s1]; [done|]. by apply Hk.
Qed.

Lemma triple_weaken {A} (pre pre' : session -> Prop) (m : T A)
    (post post' : A -> session -> Prop) (failed failed' : session -> Prop) :
  (forall s, pre' s -> pre s) ->
  (forall a s, post a s -> post' a s) ->
  (forall s, failed s -> failed' s) ->
  triple pre m post failed -> triple pre' m post' failed'.
Proof.
  intros Hpre Hpost Hfail Hm s Hs. specialize (Hm s (Hpre s Hs)).
  destruct (m s) as [[e|a] s1]; auto.
Qed.

Lemma triple_query {A} (f : store -> A) (pre : session -> Prop)
    (failed : session -> Prop) :
  triple pre (db_query f) (fun a s => pre s /\ a = f (working s)) failed.
Proof. by intros s Hs. Qed.

(** Creating a missing category commits it on its own. *)
Lemma triple_ensure_category (name description : text) (step : write_step)
    (nc nb : nat) (s0 : session) :
  triple (fun s => synced s /\ committed_extends nc nb s0 s)
         (ensure_category name description step)
         (fun _ s => synced s /\ committed_extends (S nc) nb s0 s)
         (committed_extends (S nc) nb s0).
Proof.
  intros s [Hsync Hext]. unfold ensure_category, tbind, db_query.
  destruct (find _ _) as [c|].
  - split; [done|]. eapply committed_extends_weaken; [| |done]; lia.
  - unfold generate_uuid, db_add, set_working, db_commit. cbn [working].
    destruct (fails step).
    + eapply committed_extends_weaken; [| |done]; lia.
    + unfold tret. split; [done|].
      destruct Hext as (H1 & H2 & (cs & Hcs & Hlc) & Hb).
      unfold committed_extends. cbn [committed working]. rewrite Hsync.
      repeat split; [done|done| |done].
      eexists (cs ++ [_]). cbn [taxonomy_categories add_category].
      rewrite Hcs, <- app_assoc. split; [reflexivity|].
      rewrite length_app. simpl. lia.
Qed.

Lemma triple_ensure_business (nc nb : nat) (s0 : session) :
  triple (fun s => synced s /\ committed_extends nc nb s0 s)
         ensure_business
         (fun _ s => synced s /\ committed_extends nc (S nb) s0 s)
         (committed_extends nc (S nb) s0).
Proof.
  intros s [Hsync Hext]. unfold ensure_business, tbind, db_query.
  destruct (find _ _) as [b|].
  - split; [done|]. eapply committed_extends_weaken; [| |done]; lia.
  - unfold generate_uuid, db_add, set_working, db_commit. cbn [working].
    destruct (fails CommitBusiness).
    + eapply committed_extends_weaken; [| |done]; lia.
    + unfold tret. split; [done|].
      destruct Hext as (H1 & H2 & Hc & (bs & Hbs & Hlb)).
      unfold committed_extends. cbn [committed working]. rewrite Hsync.
      repeat split; [done|done|done|].
      eexists (bs ++ [_]). cbn [businesses add_business].
      rewrite Hbs, <- app_assoc. split; [reflexivity|].
      rewrite length_app. simpl. lia.
Qed.

(** Steps 4 and 5: the Content row and the Entity Link row become final
    together, at the last commit, or not at all. *)
Lemma triple_content_and_link (content : ident -> Content)
    (entity_link : ident -> ident -> EntityLink) (fingerprint : text)
    (nc nb : nat) (s0 : session) :
  triple (committed_extends nc nb s0)
         (cid <-- generate_uuid ;;
          db_add (add_content (content cid)) >>>
          db_flush FlushContent >>>
          lid <-- generate_uuid ;;
          db_add (add_entity_link (entity_link cid lid)) >>>
          db_commit CommitEntityLink >>>
          chroma_add fingerprint >>>
          tret (Success lid))
         (fun _ _ => True)
         (committed_extends nc nb s0).
Proof.
  intros s Hext.
  unfold tbind, generate_uuid, db_add, db_flush, db_commit, set_working.
  cbn [working committed next_uuid vectors].
  destruct (fails FlushContent); [done|].
  destruct (fails CommitEntityLink); [done|].
  unfold chroma_add. by destruct chroma_ok.
Qed.

Lemma triple_store_document (t file_name source category subcategory : text)
    (confidence : Q) (fingerprint : text) (s0 : session) :
  triple (fun s => synced s /\ committed_extends 0 0 s0 s)
         (store_document t file_name source category subcategory confidence fingerprint)
         (fun _ _ => True)
         (committed_extends 2 1 s0).
Proof.
  unfold store_document.
  eapply triple_bind; [apply triple_query|]. intros existing.
  destruct existing as [c|]; [by intros s _|].
  eapply triple_bind.
  { eapply triple_weaken; [| | |apply (triple_ensure_category _ _ _ 0 0 s0)].
    - by intros s [H _].
    - intros a s H. exact H.
    - intros s H. eapply committed_extends_weaken; [| |done]; lia. }
  intros cat_obj. eapply triple_bind.
  { eapply triple_weaken; [| | |apply (triple_ensure_category _ _ _ 1 0 s0)].
    - intros s H. exact H.
    - intros a s H. exact H.
    - intros s H. eapply committed_extends_weaken; [| |done]; lia. }
  intros subcat_obj. eapply triple_bind.
  { eapply triple_weaken; [| | |apply (triple_ensure_business 2 0 s0)].
    - intros s H. exact H.
    - intros a s H. exact H.
    - intros s H. exact H. }
  intros business.
  eapply triple_weaken;
    [| | |apply (triple_content_and_link
                   (fun cid => _) (fun cid lid => _) fingerprint 2 1 s0)].
  - by intros s [_ H].
  - done.
  - done.
Qed.

Lemma triple_rollback_and_raise {A} (pre : session -> Prop) (m : T A)
    (post : A -> session -> Prop) (nc nb : nat) (s0 : session) :
  triple pre m post (committed_extends nc nb s0) ->
  triple pre (ttry m (fun e => db_rollback >>> traise e)) post
         (fun s => synced s /\ committed_extends nc nb s0 s).
Proof.
  intros Hm s Hs. unfold ttry. specialize (Hm s Hs).
  destruct (m s) as [[e|a] s1]; [|done].
  unfold tbind, db_rollback, traise, set_working. split; [reflexivity|].
  by eapply committed_extends_same.
Qed.

(** A call that raises has committed neither the Content row nor the
    Entity Link row; the categories and the business it created were
    committed on their own and stay. *)
Lemma failed_call_state (raw file_name source category subcategory : text)
    (confidence : Q) (s s' : session) (e : exn) :
  working s = committed s ->
  process_and_store_document raw file_name source category subcategory confidence s
    = (Raise e, s') ->
  synced s' /\ committed_extends 2 1 s s'.
Proof.
  intros Hfresh Hrun.
  assert (triple (fun s1 => synced s1 /\ committed_extends 0 0 s s1)
            (process_and_store_document raw file_name source category
               subcategory confidence)
            (fun _ _ => True)
            (fun s1 => synced s1 /\ committed_extends 2 1 s s1)) as Htriple.
  { unfold process_and_store_document.
    eapply triple_weaken;
      [| | |apply (triple_rollback_and_raise _ _ _ 2 1 s)].
    - intros s1 H. exact H.
    - done.
    - intros s1 H. exact H.
    - eapply triple_weaken;
        [| | |apply (triple_rollback_and_raise _ _ _ 2 1 s),
                triple_store_document].
      + intros s1 H. exact H.
      + done.
      + by intros s1 [_ H]. }
  specialize (Htriple s). rewrite Hrun in Htriple. apply Htriple.
  split; [done|]. repeat split; exists []; by rewrite app_nil_r.
Qed.

(** C6, as amended: when a writing statement of
    [process_and_store_document] fails, the call raises and the database
    holds the same Content rows and Entity Link rows as before the call,
    so these two are rolled back together; the Taxonomy Category rows (at
    most two) and the Business row (at most one) that the call created
    were committed one by one before the failure and remain. *)
Theorem failed_ingest_rolls_back_content_and_link
    (raw file_name source category subcategory : text)
    (confidence : Q) (s s' : session) (e : exn) :
  working s = committed s ->
  process_and_store_document raw file_name source category subcategory confidence s
    = (Raise e, s') ->
  contents (committed s') = contents (committed s)
  /\ entity_links (committed s') = entity_links (committed s)
  /\ working s' = committed s'
  /\ (exists new_categories,
        taxonomy_categories (committed s')
          = taxonomy_categories (committed s) ++ new_categories
        /\ length new_categories <= 2)
  /\ (exists new_businesses,
        businesses (committed s') = businesses (committed s) ++ new_businesses
        /\ length new_businesses <= 1).
Proof.
  intros Hfresh Hrun.
  destruct (failed_call_state _ _ _ _ _ _ _ _ _ Hfresh Hrun)
    as (Hsync & Hc & Hl & Hcats & Hbus).
  by repeat split.
Qed.

(** ** What a call that goes through leaves behind *)

Lemma find_app {A} (f : A -> bool) (l1 l2 : list A) :
  find f (l1 ++ l2)
  = match find f l1 with Some x => Some x | None => find f l2 end.
Proof. induction l1 as [|x l1 IH]; simpl; [done|]. by destruct (f x). Qed.

Lemma ensure_category_run (name description : text) (step : write_step)
    (s s' : session) (c : TaxonomyCategory) :
  synced s ->
  ensure_category name description step s = (Return c, s') ->
  synced s' /\ vectors s' = vectors s
  /\ contents (committed s') = contents (committed s)
  /\ entity_links (committed s') = entity_links (committed s)
  /\ businesses (committed s') = businesses (committed s)
  /\ (exists cs, taxonomy_categories (committed s')
                 = taxonomy_categories (committed s) ++ cs)
  /\ In c (taxonomy_categories (committed s'))
  /\ (ilike (cat_name c) name = true \/ cat_name c = name).
Proof.
  intros Hsync. unfold ensure_category, tbind, db_query.
  destruct (find _ _) as [c0|] eqn:Ef.
  - intros [= <- <-]. apply find_some in Ef as [Hin Hlike]. rewrite Hsync in Hin.
    do 5 (split; [done|]). split; [exists []; by rewrite app_nil_r|].
    split; [done|]. by left.
  - unfold generate_uuid, db_add, set_working, db_commit.
    cbn [working committed next_uuid vectors].
    destruct (fails step); [discriminate|]. unfold tret. intros [= <- <-].
    cbn [working committed next_uuid vectors add_category taxonomy_categories
         businesses contents entity_links cat_name].
    rewrite Hsync. do 5 (split; [done|]). split; [by eexists|].
    split; [apply in_or_app; right; by left|]. by right.
Qed.

Lemma ensure_business_run (s s' : session) (b : Business) :
  synced s ->
  ensure_business s = (Return b, s') ->
  synced s' /\ vectors s' = vectors s
  /\ contents (committed s') = contents (committed s)
  /\ entity_links (committed s') = entity_links (committed s)
  /\ taxonomy_categories (committed s') = taxonomy_categories (committed s)
  /\ (exists bs, businesses (committed s') = businesses (committed s) ++ bs)
  /\ In b (businesses (committed s')).
Proof.
  intros Hsync. unfold ensure_business, tbind, db_query.
  destruct (find _ _) as [b0|] eqn:Ef.
  - intros [= <- <-]. apply find_some in Ef as [Hin Hlike]. rewrite Hsync in Hin.
    do 5 (split; [done|]). split; [exists []; by rewrite app_nil_r|]. done.
  - unfold generate_uuid, db_add, set_working, db_commit.
    cbn [working committed next_uuid vectors].
    destruct (fails CommitBusiness); [discriminate|]. unfold tret. intros [= <- <-].
    cbn [working committed next_uuid vectors add_business taxonomy_categories
         businesses contents entity_links].
    rewrite Hsync. do 5 (split; [done|]). split; [by eexists|].
    apply in_or_app; right; by left.
Qed.

(** The rows a successful call has added to the database [s] to give
    [s']: one Content row and one Entity Link row that points to it and
    to stored category, subcategory and business rows. *)
Definition stored_by (t file_name category subcategory : text) (confidence : Q)
    (fingerprint : text) (lid : ident) (s s' : session) : Prop :=
  exists content link,
    contents (committed s') = contents (committed s) ++ [content]
    /\ entity_links (committed s') = entity_links (committed s) ++ [link]
    /\ content_text content = t
    /\ content_summary content = slice_to 300 t
    /\ content_title content = file_name
    /\ content_category content = category
    /\ content_sub_category content = subcategory
    /\ content_fingerprint content = fingerprint
    /\ content_confidence content = confidence
    /\ link_id link = lid
    /\ link_entity_id link = content_id content
    /\ link_fingerprint link = fingerprint
    /\ link_business_id link = content_business_id content
    /\ (exists c, In c (taxonomy_categories (committed s'))
                  /\ cat_id c = link_category_id link
                  /\ (ilike (cat_name c) category = true \/ cat_name c = category))
    /\ (exists c, In c (taxonomy_categories (committed s'))
                  /\ cat_id c = link_subcategory_id link
                  /\ (ilike (cat_name c) subcategory = true
                      \/ cat_name c = subcategory))
    /\ (exists b, In b (businesses (committed s'))
                  /\ business_id b = link_business_id link).

Lemma store_document_success (t file_name source category subcategory : text)
    (confidence : Q) (fingerprint : text) (s s' : session) (lid : ident) :
  synced s ->
  store_document t file_name source category subcategory confidence fingerprint s
    = (Return (Success lid), s') ->
  find (fun c => bool_decide (content_fingerprint c = fingerprint))
       (contents (committed s)) = None
  /\ synced s'
  /\ vectors s' = (if chroma_ok then vectors s ∪ {[fingerprint]} else vectors s)
  /\ stored_by t file_name category subcategory confidence fingerprint lid s s'.
Proof.
  intros Hsync. unfold store_document.
  unfold tbind at 1. unfold db_query at 1. rewrite Hsync.
  destruct (find _ (contents (committed s))) as [c|] eqn:Ef.
  { unfold tbind, db_rollback, tret. discriminate. }
  unfold tbind at 1.
  destruct (ensure_category category _ CommitCategory s) as [[e|cat_obj] s1] eqn:E1;
    [discriminate|].
  destruct (ensure_category_run _ _ _ _ _ _ Hsync E1)
    as (Hsync1 & Hv1 & Hc1 & Hl1 & Hb1 & [cs1 Hcs1] & Hin1 & Hname1).
  unfold tbind at 1.
  destruct (ensure_category subcategory _ CommitSubcategory s1)
    as [[e|subcat_obj] s2] eqn:E2; [discriminate|].
  destruct (ensure_category_run _ _ _ _ _ _ Hsync1 E2)
    as (Hsync2 & Hv2 & Hc2 & Hl2 & Hb2 & [cs2 Hcs2] & Hin2 & Hname2).
  unfold tbind at 1.
  destruct (ensure_business s2) as [[e|business] s3] eqn:E3; [discriminate|].
  destruct (ensure_business_run _ _ _ Hsync2 E3)
    as (Hsync3 & Hv3 & Hc3 & Hl3 & Hcs3 & [bs3 Hbs3] & Hin3).
  unfold tbind, generate_uuid, db_add, db_flush, db_commit, set_working.
  cbn [working committed next_uuid vectors].
  destruct (fails FlushContent); [discriminate|].
  destruct (fails CommitEntityLink); [discriminate|].
  assert (In cat_obj (taxonomy_categories (committed s3))) as Hcat.
  { rewrite Hcs3, Hcs2. apply in_or_app. by left. }
  assert (In subcat_obj (taxonomy_categories (committed s3))) as Hsub
    by by rewrite Hcs3.
  assert (forall s4, working s4 = committed s4 ->
            committed s4
            = add_entity_link
                {| link_id := N.succ (next_uuid s3);
                   link_category_id := cat_id cat_obj;
                   link_subcategory_id := cat_id subcat_obj;
                   link_business_id := business_id business;
                   link_entity_type := txt "content";
                   link_entity_id := next_uuid s3;
                   link_fingerprint := fingerprint |}
                (add_content
                   {| content_id := next_uuid s3;
                      content_business_id := business_id business;
                      content_title := file_name;
                      content_type := txt "document";
                      content_text := t;
                      content_summary := slice_to 300 t;
                      content_category := category;
                      content_sub_category := subcategory;
                      content_fingerprint := fingerprint;
                      content_confidence := confidence |}
                   (working s3)) ->
            stored_by t file_name category subcategory confidence fingerprint
              (N.succ (next_uuid s3)) s s4) as Hstored.
  { intros s4 _ Hs4. unfold stored_by. rewrite Hs4, Hsync3. eexists _, _.
    cbn [add_entity_link add_content contents entity_links taxonomy_categories
         businesses].
    split; [by rewrite Hc3, Hc2, Hc1|]. split; [by rewrite Hl3, Hl2, Hl1|].
    cbn. do 11 (split; [reflexivity|]).
    split; [by exists cat_obj|]. split; [by exists subcat_obj|]. by exists business. }
  unfold chroma_add, tret. cbn [working committed next_uuid vectors].
  destruct chroma_ok; intros [= <- <-]; cbn [working committed vectors];
    (split; [done|]); (split; [done|]);
    (split; [by rewrite Hv3, Hv2, Hv1|]); by apply Hstored.
Qed.

Lemma process_success (raw file_name source category subcategory : text)
    (confidence : Q) (s s' : session) (lid : ident) :
  synced s ->
  process_and_store_document raw file_name source category subcategory confidence s
    = (Return (Success lid), s') ->
  find (fun c => bool_decide (content_fingerprint c
                              = compute_fingerprint (clean_text_for_postgres raw)))
       (contents (committed s)) = None
  /\ synced s'
  /\ vectors s'
     = (if chroma_ok
        then vectors s ∪ {[compute_fingerprint (clean_text_for_postgres raw)]}
        else vectors s)
  /\ stored_by (clean_text_for_postgres raw) file_name category subcategory
       confidence (compute_fingerprint (clean_text_for_postgres raw)) lid s s'.
Proof.
  intros Hsync Hrun. apply (store_document_success _ _ source _ _ _ _ _ _ _ Hsync).
  revert Hrun. unfold process_and_store_document, ttry.
  destruct (store_document _ _ _ _ _ _ _ s) as [[e|r] s1]; [|done].
  unfold tbind, db_rollback, traise. discriminate.
Qed.

(** X21: a call of [process_and_store_document] that reports success has
    made final exactly one new Content row and one new Entity Link row:
    the Content row holds the cleaned text, its first 300 characters as
    summary, the file name, the categories, the fingerprint of the
    cleaned text and the confidence; the Entity Link carries the returned
    id and the same fingerprint and points to that Content row, to its
    business, and to category and subcategory rows that are in the
    database; no Content row had that fingerprint before. *)
Theorem successful_ingest_rows (raw file_name source category subcategory : text)
    (confidence : Q) (s s' : session) (lid : ident) :
  working s = committed s ->
  process_and_store_document raw file_name source category subcategory confidence s
    = (Return (Success lid), s') ->
  working s' = committed s'
  /\ Forall (fun c => content_fingerprint c
                      <> compute_fingerprint (clean_text_for_postgres raw))
            (contents (committed s))
  /\ exists content link,
       contents (committed s') = contents (committed s) ++ [content]
       /\ entity_links (committed s') = entity_links (committed s) ++ [link]
       /\ content_text content = clean_text_for_postgres raw
       /\ content_summary content = slice_to 300 (clean_text_for_postgres raw)
       /\ content_title content = file_name
       /\ content_category content = category
       /\ content_sub_category content = subcategory
       /\ content_fingerprint content
          = compute_fingerprint (clean_text_for_postgres raw)
       /\ content_confidence content = confidence
       /\ link_id link = lid
       /\ link_entity_id link = content_id content
       /\ link_fingerprint link = compute_fingerprint (clean_text_for_postgres raw)
       /\ link_business_id link = content_business_id content
       /\ (exists c, In c (taxonomy_categories (committed s'))
                     /\ cat_id c = link_category_id link
                     /\ (ilike (cat_name c) category = true \/ cat_name c = category))
       /\ (exists c, In c (taxonomy_categories (committed s'))
                     /\ cat_id c = link_subcategory_id link
                     /\ (ilike (cat_name c) subcategory = true
                         \/ cat_name c = subcategory))
       /\ (exists b, In b (businesses (committed s'))
                     /\ business_id b = link_business_id link).
Proof.
  intros Hsync Hrun.
  destruct (process_success _ _ _ _ _ _ _ _ _ Hsync Hrun)
    as (Hnone & Hsync' & _ & Hstored).
  split; [done|]. split; [|exact Hstored].
  apply List.Forall_forall. intros c Hin Heq.
  pose proof (find_none _ _ Hnone c Hin) as Hc. cbv beta in Hc.
  by rewrite bool_decide_eq_false in Hc.
Qed.

(** X22: ingesting the same text again is a no-op.  After a call that
    reported success, a second call on the same raw text, under any file
    name, source, categories and confidence, returns [skipped] with the
    id of the Content row the first call stored, the row the returned
    Entity Link points to, and leaves the database and the vector store
    as the first call left them. *)
Theorem second_ingest_skipped
    (raw file_name source category subcategory : text) (confidence : Q)
    (file_name' source' category' subcategory' : text) (confidence' : Q)
    (s s1 : session) (lid : ident) :
  working s = committed s ->
  process_and_store_document raw file_name source category subcategory confidence s
    = (Return (Success lid), s1) ->
  exists content link s2,
    process_and_store_document raw file_name' source' category' subcategory'
      confidence' s1
      = (Return (Skipped (content_id content)), s2)
    /\ In content (contents (committed s1))
    /\ content_title content = file_name
    /\ In link (entity_links (committed s1))
    /\ link_id link = lid
    /\ link_entity_id link = content_id content
    /\ committed s2 = committed s1
    /\ working s2 = committed s1
    /\ vectors s2 = vectors s1.
Proof.
  intros Hsync Hrun.
  destruct (process_success _ _ _ _ _ _ _ _ _ Hsync Hrun)
    as (Hnone & Hsync' & _ & content & link & Hcs & Hls & _ & _ & Htitle & _ & _
        & Hfp & _ & Hlid & Hent & _).
  exists content, link. eexists. split.
  - unfold process_and_store_document, ttry, store_document.
    unfold tbind at 1. unfold db_query at 1. rewrite Hsync', Hcs, find_app, Hnone.
    cbn [find]. rewrite Hfp, bool_decide_eq_true_2 by done.
    unfold tbind, db_rollback, tret. reflexivity.
  - split; [rewrite Hcs; apply in_or_app; right; by left|]. split; [done|].
    split; [rewrite Hls; apply in_or_app; right; by left|]. done.
Qed.

(** X23: a text whose fingerprint a Content row already carries is
    skipped: the call returns the id of the first such row, and writes
    nothing: the database, the id supply and the vector store are as
    before. *)
Theorem duplicate_fingerprint_skipped
    (raw file_name source category subcategory : text) (confidence : Q)
    (s : session) (before after : list Content) (c : Content) :
  working s = committed s ->
  contents (committed s) = before ++ c :: after ->
  content_fingerprint c = compute_fingerprint (clean_text_for_postgres raw) ->
  Forall (fun c' => content_fingerprint c'
                    <> compute_fingerprint (clean_text_for_postgres raw)) before ->
  process_and_store_document raw file_name source category subcategory confidence s
    = (Return (Skipped (content_id c)), s).
Proof.
  intros Hsync Hcs Hfp Hbefore.
  assert (find (fun c' => bool_decide (content_fingerprint c'
                 = compute_fingerprint (clean_text_for_postgres raw))) before = None)
    as Hnone.
  { clear -Hbefore. induction Hbefore as [|x l Hx _ IH]; simpl; [done|].
    by rewrite bool_decide_eq_false_2. }
  unfold process_and_store_document, ttry, store_document.
  unfold tbind at 1. unfold db_query at 1. rewrite Hsync, Hcs, find_app, Hnone.
  cbn [find]. rewrite bool_decide_eq_true_2 by done.
  unfold tbind, db_rollback, tret, set_working. clear -Hsync.
  destruct s as [cm wk nx vs]. cbn in *. by subst wk.
Qed.

(** A state predicate that every statement but the Chroma call keeps. *)
Definition keeps_vectors {A} (m : T A) : Prop :=
  forall s, vectors (m s).2 = vectors s.

Lemma keeps_vectors_bind {A B} (m : T A) (k : A -> T B) :
  keeps_vectors m -> (forall a, keeps_vectors (k a)) -> keeps_vectors (tbind m k).
Proof.
  intros Hm Hk s. unfold tbind. specialize (Hm s).
  destruct (m s) as [[e|a] s1]; [done|]. cbn [snd] in Hm. by rewrite Hk.
Qed.

Lemma keeps_vectors_try {A} (m : T A) (h : exn -> T A) :
  keeps_vectors m -> (forall e, keeps_vectors (h e)) -> keeps_vectors (ttry m h).
Proof.
  intros Hm Hh s. unfold ttry. specialize (Hm s).
  destruct (m s) as [[e|a] s1]; [|done]. cbn [snd] in Hm. by rewrite Hh.
Qed.

Lemma keeps_vectors_ensure_category (name description : text) (step : write_step) :
  keeps_vectors (ensure_category name description step).
Proof.
  apply keeps_vectors_bind; [done|]. intros [c|]; [done|].
  apply keeps_vectors_bind; [done|]. intros id.
  apply keeps_vectors_bind; [done|]. intros _.
  apply keeps_vectors_bind; [|done].
  intros s. unfold db_commit. by destruct (fails step).
Qed.

Lemma keeps_vectors_ensure_business : keeps_vectors ensure_business.
Proof.
  apply keeps_vectors_bind; [done|]. intros [c|]; [done|].
  apply keeps_vectors_bind; [done|]. intros id.
  apply keeps_vectors_bind; [done|]. intros _.
  apply keeps_vectors_bind; [|done].
  intros s. unfold db_commit. by destruct (fails CommitBusiness).
Qed.

(** What the vector store holds after a call that found it holding [V]. *)
Definition written (fingerprint : text) (V : gset text)
    (o : outcome ingest_result) : gset text :=
  match o with
  | Return (Success _) => if chroma_ok then V ∪ {[fingerprint]} else V
  | _ => V
  end.

Definition writes_vector (fingerprint : text) (m : T ingest_result) : Prop :=
  forall s, vectors (m s).2 = written fingerprint (vectors s) (m s).1.

Lemma writes_vector_bind {A} (fingerprint : text) (m : T A)
    (k : A -> T ingest_result) :
  keeps_vectors m -> (forall a, writes_vector fingerprint (k a)) ->
  writes_vector fingerprint (tbind m k).
Proof.
  intros Hm Hk s0. unfold tbind. specialize (Hm s0).
  destruct (m s0) as [[e|a] s1]; [done|]. cbn [snd] in Hm. by rewrite Hk, Hm.
Qed.

Lemma writes_vector_try (fingerprint : text) (m : T ingest_result) :
  writes_vector fingerprint m ->
  writes_vector fingerprint (ttry m (fun e => db_rollback >>> traise e)).
Proof.
  intros Hm s0. unfold ttry. specialize (Hm s0).
  by destruct (m s0) as [[e|a] s1].
Qed.

Lemma vectors_after_call (raw file_name source category subcategory : text)
    (confidence : Q) :
  writes_vector (compute_fingerprint (clean_text_for_postgres raw))
    (process_and_store_document raw file_name source category subcategory
       confidence).
Proof.
  unfold process_and_store_document.
  apply writes_vector_try, writes_vector_try. unfold store_document.
  apply writes_vector_bind; [done|]. intros [c|]; [done|].
  apply writes_vector_bind; [apply keeps_vectors_ensure_category|]. intros cat_obj.
  apply writes_vector_bind; [apply keeps_vectors_ensure_category|]. intros subcat_obj.
  apply writes_vector_bind; [apply keeps_vectors_ensure_business|]. intros business.
  apply writes_vector_bind; [done|]. intros cid.
  apply writes_vector_bind; [done|]. intros _.
  apply writes_vector_bind;
    [intros s0; unfold db_flush; by destruct (fails FlushContent)|].
  intros _.
  apply writes_vector_bind; [done|]. intros lid.
  apply writes_vector_bind; [done|]. intros _.
  apply writes_vector_bind;
    [intros s0; unfold db_commit; by destruct (fails CommitEntityLink)|].
  intros _ s0. unfold tbind, chroma_add, tret, written. by destruct chroma_ok.
Qed.

(** X24: the vector store is written at the very end of a successful call
    and nowhere else: after a call of [process_and_store_document],
    whatever it returns or raises, the vector store holds what it held
    before, plus the fingerprint of the cleaned text when the call
    reports success and the Chroma call went through. *)
Theorem vector_store_written_on_success_only
    (raw file_name source category subcategory : text) (confidence : Q)
    (s : session) :
  let run := process_and_store_document raw file_name source category subcategory
               confidence s in
  vectors run.2
  = match run.1 with
    | Return (Success _) =>
        if chroma_ok
        then vectors s ∪ {[compute_fingerprint (clean_text_for_postgres raw)]}
        else vectors s
    | _ => vectors s
    end.
Proof.
  exact (vectors_after_call raw file_name source category subcategory confidence s).
Qed.

End WithCollaborators.

(** X25: [clean_text_for_postgres] returns its argument without the NUL
    characters and the characters that are neither printable nor newline,
    carriage return or tab, in the same order: nothing it returns is one
    of these, a text that holds none of them comes back as it is, and
    cleaning a cleaned text changes nothing. *)
Theorem clean_text_for_postgres_safe (raw : text) :
  Forall (fun c => c <> zero /\ TextCleaner.keeps c = true)
         (clean_text_for_postgres raw)
  /\ (Forall (fun c => c <> zero /\ TextCleaner.keeps c = true) raw ->
      clean_text_for_postgres raw = raw)
  /\ clean_text_for_postgres (clean_text_for_postgres raw)
     = clean_text_for_postgres raw
  /\ length (clean_text_for_postgres raw) <= length raw.
Proof.
  assert (forall t, Forall (fun c => c <> zero /\ TextCleaner.keeps c = true) t ->
                    clean_text_for_postgres t = t) as Hfixed.
  { unfold clean_text_for_postgres. induction 1 as [|c t [Hz Hk] _ IH]; [done|].
    cbn [List.filter]. apply Ascii.eqb_neq in Hz. rewrite Hz. cbn [negb List.filter].
    by rewrite Hk, IH. }
  assert (Forall (fun c => c <> zero /\ TextCleaner.keeps c = true)
            (clean_text_for_postgres raw)) as Hclean.
  { unfold clean_text_for_postgres. apply List.Forall_forall. intros c Hin.
    apply filter_In in Hin as [Hin Hk]. apply filter_In in Hin as [_ Hz].
    split; [|done]. apply Ascii.eqb_neq. by destruct (Ascii.eqb c zero). }
  split; [done|]. split; [apply Hfixed|]. split; [by apply Hfixed|].
  unfold clean_text_for_postgres.
  etransitivity; [apply filter_length_le|apply filter_length_le].
Qed.

(** Sessions that agree on everything but the vector store. *)
Definition same_database (s1 s2 : session) : Prop :=
  committed s1 = committed s2 /\ working s1 = working s2
  /\ next_uuid s1 = next_uuid s2.

Definition vector_blind {A} (m1 m2 : T A) : Prop :=
  forall s1 s2, same_database s1 s2 ->
    (m1 s1).1 = (m2 s2).1 /\ same_database (m1 s1).2 (m2 s2).2.

Lemma vector_blind_bind {A B} (m1 m2 : T A) (k1 k2 : A -> T B) :
  vector_blind m1 m2 -> (forall a, vector_blind (k1 a) (k2 a)) ->
  vector_blind (tbind m1 k1) (tbind m2 k2).
Proof.
  intros Hm Hk s1 s2 Hs. unfold tbind. specialize (Hm s1 s2 Hs).
  destruct (m1 s1) as [[e1|a1] s1'], (m2 s2) as [[e2|a2] s2'];
    cbn [fst snd] in Hm; destruct Hm as [Ho Hs']; try discriminate.
  - by injection Ho as ->.
  - injection Ho as ->. by apply Hk.
Qed.

Lemma vector_blind_try {A} (m1 m2 : T A) (h1 h2 : exn -> T A) :
  vector_blind m1 m2 -> (forall e, vector_blind (h1 e) (h2 e)) ->
  vector_blind (ttry m1 h1) (ttry m2 h2).
Proof.
  intros Hm Hh s1 s2 Hs. unfold ttry. specialize (Hm s1 s2 Hs).
  destruct (m1 s1) as [[e1|a1] s1'], (m2 s2) as [[e2|a2] s2'];
    cbn [fst snd] in Hm; destruct Hm as [Ho Hs']; try discriminate.
  - injection Ho as ->. by apply Hh.
  - by injection Ho as ->.
Qed.

Ltac blind_step :=
  first
    [ apply vector_blind_bind; [|intros ?]
    | apply vector_blind_try; [|intros ?]
    | by intros ? ? (Hc & Hw & Hn); unfold same_database;
         cbn; rewrite ?Hc, ?Hw, ?Hn ].

Lemma vector_blind_commit (fails : write_step -> bool) (step : write_step) :
  vector_blind (db_commit fails step) (db_commit fails step).
Proof.
  intros s1 s2 (Hc & Hw & Hn). unfold db_commit, same_database.
  destruct (fails step); cbn; by rewrite ?Hc, ?Hw, ?Hn.
Qed.

Lemma vector_blind_flush (fails : write_step -> bool) (step : write_step) :
  vector_blind (db_flush fails step) (db_flush fails step).
Proof.
  intros s1 s2 (Hc & Hw & Hn). unfold db_flush, same_database.
  destruct (fails step); cbn; by rewrite ?Hc, ?Hw, ?Hn.
Qed.

Lemma vector_blind_ensure_category (ilike : text -> text -> bool)
    (fails : write_step -> bool) (name description : text) (step : write_step) :
  vector_blind (ensure_category ilike fails name description step)
               (ensure_category ilike fails name description step).
Proof.
  unfold ensure_category. blind_step; [blind_step|].
  destruct a as [c|]; [blind_step|].
  repeat blind_step. apply vector_blind_commit.
Qed.

Lemma vector_blind_ensure_business (ilike : text -> text -> bool)
    (fails : write_step -> bool) :
  vector_blind (ensure_business ilike fails) (ensure_business ilike fails).
Proof.
  unfold ensure_business. blind_step; [blind_step|].
  destruct a as [c|]; [blind_step|].
  repeat blind_step. apply vector_blind_commit.
Qed.

(** X26: a failure of the Chroma call is swallowed: with the vector store
    down, [process_and_store_document] returns or raises exactly what it
    does with the vector store up, and leaves the same database. *)
Theorem chroma_failure_swallowed (compute_fingerprint : text -> text)
    (ilike : text -> text -> bool) (fails : write_step -> bool)
    (raw file_name source category subcategory : text) (confidence : Q)
    (s : session) :
  let up := process_and_store_document compute_fingerprint ilike fails true
              raw file_name source category subcategory confidence s in
  let down := process_and_store_document compute_fingerprint ilike fails false
                raw file_name source category subcategory confidence s in
  down.1 = up.1
  /\ committed down.2 = committed up.2
  /\ working down.2 = working up.2
  /\ vectors down.2 = vectors s.
Proof.
  cbv zeta.
  assert (vector_blind
            (process_and_store_document compute_fingerprint ilike fails false
               raw file_name source category subcategory confidence)
            (process_and_store_document compute_fingerprint ilike fails true
               raw file_name source category subcategory confidence)) as Hblind.
  { unfold process_and_store_document.
    do 2 (apply vector_blind_try; [|intros e; repeat blind_step]).
    unfold store_document. blind_step; [blind_step|].
    destruct a as [c|]; [repeat blind_step|].
    blind_step; [apply vector_blind_ensure_category|].
    blind_step; [apply vector_blind_ensure_category|].
    blind_step; [apply vector_blind_ensure_business|].
    blind_step; [blind_step|]. blind_step; [blind_step|].
    blind_step; [apply vector_blind_flush|].
    blind_step; [blind_step|]. blind_step; [blind_step|].
    blind_step; [apply vector_blind_commit|].
    blind_step; [|blind_step].
    intros s1 s2 (Hc & Hw & Hn). unfold chroma_add, same_database. cbn.
    by rewrite ?Hc, ?Hw, ?Hn. }
  destruct (Hblind s s) as (Ho & Hc & Hw & _); [done|].
  split; [done|]. split; [done|]. split; [done|].
  pose proof (vectors_after_call compute_fingerprint ilike fails false
                raw file_name source category subcategory confidence s) as Hv.
  rewrite Hv. unfold written.
  by destruct (process_and_store_document _ _ _ _ _ _ _ _ _ _ _).1 as [e|[id|id]].
Qed.

(** ** Concrete runs *)

Definition to_lower (c : ascii) : ascii :=
  let n := nat_of_ascii c in
  if (65 <=? n) && (n <=? 90) then ascii_of_nat (n + 32) else c.

(** [ilike] for patterns without wildcards: equality up to case. *)
Definition ilike_plain (value pattern : text) : bool :=
  bool_decide (map to_lower value = map to_lower pattern).

(** The identity in the place of SHA-256. *)
Definition plain_fingerprint (t : text) : text := t.

(** Every statement goes through but the commit of the Entity Link. *)
Definition link_commit_fails (step : write_step) : bool :=
  match step with
  | CommitEntityLink => true
  | _ => false
  end.

Definition empty_store : store :=
  {| taxonomy_categories := []; businesses := []; contents := [];
     entity_links := [] |}.

Definition empty_session : session :=
  {| committed := empty_store; working := empty_store;
     next_uuid := 0; vectors := ∅ |}.

(** The call of the runs below, on the empty database. *)
Abbreviation failed_run :=
  (process_and_store_document plain_fingerprint ilike_plain link_commit_fails true
     (txt "Q4 revenue grew 18% year over year.") (txt "a.txt") (txt "manual")
     (txt "Finance") (txt "Revenue") (9 # 10) empty_session).

(** What the database holds after it: the two categories and the
    business, and neither the content nor the link. *)
Definition leftovers : store :=
  {| taxonomy_categories :=
       [ {| cat_id := 0%N; cat_name := txt "Finance"; cat_group := txt "content";
            cat_description := txt "Auto-generated" |};
         {| cat_id := 1%N; cat_name := txt "Revenue"; cat_group := txt "content";
            cat_description := txt "Auto-generated subcategory" |} ];
     businesses :=
       [ {| business_id := 2%N; business_name := txt "Manual Upload Business";
            business_industry := txt "General";
            business_description := txt "Placeholder business for manual uploads." |} ];
     contents := [];
     entity_links := [] |}.

Definition failed_session : session :=
  {| committed := leftovers; working := leftovers; next_uuid := 5; vectors := ∅ |}.

Lemma failed_run_raises :
  failed_run = (Raise (Exception (txt "commit failed")), failed_session).
Proof. vm_compute. reflexivity. Qed.

(** C6, counterexample: on an empty database, with the commit of the
    Entity Link failing, the call raises and yet the two auto-created
    Taxonomy Category rows and the auto-created Business row are in the
    database afterwards. *)
Lemma single_transaction_counterexample :
  ~ single_transaction_claim plain_fingerprint ilike_plain link_commit_fails true
      (txt "Q4 revenue grew 18% year over year.") (txt "a.txt") (txt "manual")
      (txt "Finance") (txt "Revenue") (9 # 10) empty_session.
Proof.
  intros H.
  specialize (H _ _ failed_run_raises).
  discriminate H.
Qed.

Lemma failed_ingest_rolls_back_content_and_link_witness :
  contents (committed failed_session) = contents (committed empty_session)
  /\ entity_links (committed failed_session) = entity_links (committed empty_session).
Proof.
  destruct (failed_ingest_rolls_back_content_and_link
              plain_fingerprint ilike_plain link_commit_fails true
              (txt "Q4 revenue grew 18% year over year.") (txt "a.txt") (txt "manual")
              (txt "Finance") (txt "Revenue") (9 # 10) empty_session
              failed_session (Exception (txt "commit failed"))
              eq_refl failed_run_raises)
    as (Hcontents & Hlinks & _).
  split; [exact Hcontents|exact Hlinks].
Defined.

(** The call that goes through stores one row of each kind. *)
Example successful_run :
  let run :=
    process_and_store_document plain_fingerprint ilike_plain (fun _ => false) true
      (txt "Q4 revenue grew 18% year over year.") (txt "a.txt") (txt "manual")
      (txt "Finance") (txt "Revenue") (9 # 10) empty_session in
  run.1 = Return (Success 4%N)
  /\ length (contents (committed run.2)) = 1
  /\ length (entity_links (committed run.2)) = 1
  /\ length (taxonomy_categories (committed run.2)) = 2
  /\ length (businesses (committed run.2)) = 1.
Proof. vm_compute. repeat split. Qed.

(** The call that goes through, on the empty database, and what the
    session holds after it. *)
Abbreviation first_ingest :=
  (process_and_store_document plain_fingerprint ilike_plain (fun _ => false) true
     (txt "Q4 revenue grew 18% year over year.") (txt "a.txt") (txt "manual")
     (txt "Finance") (txt "Revenue") (9 # 10) empty_session).

Definition stored_content : Content :=
  {| content_id := 3%N;
     content_business_id := 2%N;
     content_title := txt "a.txt";
     content_type := txt "document";
     content_text := txt "Q4 revenue grew 18% year over year.";
     content_summary := txt "Q4 revenue grew 18% year over year.";
     content_category := txt "Finance";
     content_sub_category := txt "Revenue";
     content_fingerprint := txt "Q4 revenue grew 18% year over year.";
     content_confidence := 9 # 10 |}.

Definition stored_link : EntityLink :=
  {| link_id := 4%N;
     link_category_id := 0%N;
     link_subcategory_id := 1%N;
     link_business_id := 2%N;
     link_entity_type := txt "content";
     link_entity_id := 3%N;
     link_fingerprint := txt "Q4 revenue grew 18% year over year." |}.

Definition stored_rows : store :=
  {| taxonomy_categories := taxonomy_categories leftovers;
     businesses := businesses leftovers;
     contents := [stored_content];
     entity_links := [stored_link] |}.

Definition after_first_ingest : session :=
  {| committed := stored_rows; working := stored_rows; next_uuid := 5;
     vectors := {[ txt "Q4 revenue grew 18% year over year." ]} |}.

Lemma first_ingest_succeeds :
  first_ingest = (Return (Success 4%N), after_first_ingest).
Proof. vm_compute. reflexivity. Qed.

Lemma successful_ingest_rows_witness :
  exists content link,
    contents (committed after_first_ingest)
      = contents (committed empty_session) ++ [content]
    /\ entity_links (committed after_first_ingest)
       = entity_links (committed empty_session) ++ [link]
    /\ link_id link = 4%N
    /\ link_entity_id link = content_id content.
Proof.
  destruct (successful_ingest_rows plain_fingerprint ilike_plain (fun _ => false) true
              (txt "Q4 revenue grew 18% year over year.") (txt "a.txt") (txt "manual")
              (txt "Finance") (txt "Revenue") (9 # 10) empty_session
              after_first_ingest 4%N eq_refl first_ingest_succeeds)
    as (_ & _ & content & link & Hcs & Hls & _ & _ & _ & _ & _ & _ & _
        & Hlid & Hent & _).
  exists content, link. split; [exact Hcs|]. split; [exact Hls|].
  split; [exact Hlid|exact Hent].
Defined.

Lemma second_ingest_skipped_witness :
  exists content s2,
    process_and_store_document plain_fingerprint ilike_plain (fun _ => false) true
      (txt "Q4 revenue grew 18% year over year.") (txt "copy.txt") (txt "bulk")
      (txt "Sales") (txt "Quarterly") (5 # 10) after_first_ingest
      = (Return (Skipped (content_id content)), s2)
    /\ content_title content = txt "a.txt"
    /\ committed s2 = committed after_first_ingest.
Proof.
  destruct (second_ingest_skipped plain_fingerprint ilike_plain (fun _ => false) true
              (txt "Q4 revenue grew 18% year over year.") (txt "a.txt") (txt "manual")
              (txt "Finance") (txt "Revenue") (9 # 10)
              (txt "copy.txt") (txt "bulk") (txt "Sales") (txt "Quarterly") (5 # 10)
              empty_session after_first_ingest 4%N eq_refl first_ingest_succeeds)
    as (content & link & s2 & Hrun & _ & Htitle & _ & _ & _ & Hsame & _).
  exists content, s2. split; [exact Hrun|]. split; [exact Htitle|exact Hsame].
Defined.

Lemma duplicate_fingerprint_skipped_witness :
  process_and_store_document plain_fingerprint ilike_plain link_commit_fails false
    (txt "Q4 revenue grew 18% year over year.") (txt "copy.txt") (txt "bulk")
    (txt "Sales") (txt "Quarterly") (5 # 10) after_first_ingest
  = (Return (Skipped (content_id stored_content)), after_first_ingest).
Proof.
  apply (duplicate_fingerprint_skipped plain_fingerprint ilike_plain
           link_commit_fails false
           (txt "Q4 revenue grew 18% year over year.") (txt "copy.txt") (txt "bulk")
           (txt "Sales") (txt "Quarterly") (5 # 10) after_first_ingest
           [] [] stored_content).
  - reflexivity.
  - reflexivity.
  - reflexivity.
  - constructor.
Defined.

End UnifiedIngest.

(* ===================================================================== *)
(** * The chunker of the text ingestion
    ([api/services/intelligent_text_ingest.py]) *)
(* ===================================================================== *)

Module TextIngest.
Import Text.

Definition newline : ascii := "010"%char.

(** Where the scan of [re.split(r"\n{2,}", text)] stands: after a
    character that is no newline, after one newline that may yet turn out
    to be part of the piece, or inside a separator. *)
Inductive newlines := NoNewline | OneNewline | BlankLine.

(** [re.split(r"\n{2,}", s)]; [acc] is the piece being read, most recent
    character first, without the newline that is pending in the state
    [OneNewline]. *)
Fixpoint split_blank_lines_from (st : newlines) (acc : text) (s : text) : list text :=
  match s with
  | [] =>
      match st with
      | NoNewline => [rev acc]
      | OneNewline => [rev (newline :: acc)]
      | BlankLine => [rev acc; []]
      end
  | c :: s' =>
      if Ascii.eqb c newline
      then match st with
           | NoNewline => split_blank_lines_from OneNewline acc s'
           | _ => split_blank_lines_from BlankLine acc s'
           end
      else match st with
           | NoNewline => split_blank_lines_from NoNewline (c :: acc) s'
           | OneNewline => split_blank_lines_from NoNewline (c :: newline :: acc) s'
           | BlankLine => rev acc :: split_blank_lines_from NoNewline [c] s'
           end
  end.

Definition split_blank_lines (s : text) : list text :=
  split_blank_lines_from NoNewline [] s.

(** [[p.strip() for p in re.split(r"\n{2,}", text) if p.strip()]] *)
Definition paragraphs (t : text) : list text :=
  map strip (List.filter (fun p => negb (blank p)) (split_blank_lines t)).

(** [re.split(r"(?<=[.!?])\s+", s)].  A separator is a maximal run of
    whitespace that directly follows one of [.!?].  [sep] says that the
    scan is inside a separator, [punct] that the previous character is
    one of [.!?]; [acc] is the piece being read, most recent character
    first. *)
Fixpoint re_split_ws_from (sep punct : bool) (acc : text) (s : text) : list text :=
  match s with
  | [] => [rev acc]
  | c :: s' =>
      if py_isspace c
      then if sep then re_split_ws_from true false [] s'
           else if punct then rev acc :: re_split_ws_from true false [] s'
           else re_split_ws_from false false (c :: acc) s'
      else re_split_ws_from false (is_sentence_end c) (c :: acc) s'
  end.

Definition re_split_ws (s : text) : list text := re_split_ws_from false false [] s.

(** The loop over the sentences of a long paragraph, with the flush
    after it; [temp_chunk] is the chunk being filled. *)
Fixpoint pack (max_chunk_size : Z) (temp_chunk : text) (sentences : list text)
    : list text :=
  match sentences with
  | [] => if blank temp_chunk then [] else [strip temp_chunk]
  | s :: rest =>
      if (len temp_chunk + len s <=? max_chunk_size)%Z
      then pack max_chunk_size (temp_chunk ++ s ++ txt " ") rest
      else strip temp_chunk :: pack max_chunk_size (s ++ txt " ") rest
  end.

(** The chunks of one paragraph. *)
Definition chunk_paragraph (max_chunk_size : Z) (p : text) : list text :=
  if (len p <=? max_chunk_size)%Z then [p]
  else pack max_chunk_size [] (re_split_ws p).

(** [semantic_chunk_text] *)
Definition semantic_chunk_text (t : text) (max_chunk_size : Z) : list text :=
  flat_map (chunk_paragraph max_chunk_size) (paragraphs t).

(** ** No text is lost *)

Lemma newline_isspace : py_isspace newline = true.
Proof. reflexivity. Qed.

Lemma nonspace_newline (s : text) : nonspace (newline :: s) = nonspace s.
Proof. reflexivity. Qed.

Lemma nonspace_snoc_newline (s : text) : nonspace (s ++ [newline]) = nonspace s.
Proof. rewrite nonspace_app. cbn. apply app_nil_r. Qed.

Lemma nonspace_split_blank_lines_from (s : text) : forall st acc,
  nonspace (concat (split_blank_lines_from st acc s)) = nonspace (rev acc ++ s).
Proof.
  induction s as [|c s IH]; intros st acc.
  - destruct st; cbn [split_blank_lines_from concat rev]; rewrite ?app_nil_r.
    + reflexivity.
    + apply nonspace_snoc_newline.
    + reflexivity.
  - cbn [split_blank_lines_from]. destruct (Ascii.eqb c newline) eqn:E.
    + apply Ascii.eqb_eq in E. subst c.
      assert (nonspace (rev acc ++ newline :: s) = nonspace (rev acc ++ s)) as ->
        by (by rewrite !nonspace_app, nonspace_newline).
      destruct st; apply IH.
    + destruct st.
      * rewrite IH. cbn [rev]. by rewrite <- app_assoc.
      * rewrite IH. cbn [rev]. rewrite <- !app_assoc. cbn [app].
        by rewrite !nonspace_app, nonspace_newline.
      * cbn [concat]. rewrite nonspace_app, IH. cbn [rev app].
        by rewrite !nonspace_app.
Qed.

Lemma nonspace_paragraphs (t : text) :
  nonspace (concat (paragraphs t)) = nonspace t.
Proof.
  transitivity (nonspace (concat (split_blank_lines t)));
    [|unfold split_blank_lines; by rewrite nonspace_split_blank_lines_from].
  unfold paragraphs.
  induction (split_blank_lines t) as [|p ps IH]; [done|].
  cbn [List.filter concat]. rewrite (nonspace_app p). rewrite <- IH.
  destruct (blank p) eqn:E; cbn [negb].
  - apply blank_iff in E. by rewrite E.
  - cbn [map concat]. by rewrite nonspace_app, nonspace_strip.
Qed.

Lemma nonspace_re_split_ws_from (s : text) : forall sep punct acc,
  (sep = true -> acc = []) ->
  nonspace (concat (re_split_ws_from sep punct acc s)) = nonspace (rev acc ++ s).
Proof.
  induction s as [|c s IH]; intros sep punct acc Hsep; cbn [re_split_ws_from].
  - cbn [concat]. by rewrite !app_nil_r.
  - assert (nonspace (rev acc ++ c :: s)
            = nonspace (rev acc) ++ (if py_isspace c then [] else [c]) ++ nonspace s)
      as Hc.
    { rewrite nonspace_app. unfold nonspace at 2. cbn [List.filter].
      by destruct (py_isspace c). }
    rewrite Hc. destruct (py_isspace c) eqn:E.
    + destruct sep; [|destruct punct].
      * rewrite (Hsep eq_refl), IH by done. reflexivity.
      * cbn [concat]. rewrite nonspace_app, IH by done. reflexivity.
      * rewrite IH by done. cbn [rev]. rewrite !nonspace_app.
        unfold nonspace at 2. cbn [List.filter]. rewrite E. cbn [negb].
        by rewrite app_nil_r.
    + rewrite IH by done. cbn [rev]. rewrite !nonspace_app.
      unfold nonspace at 2. cbn [List.filter]. rewrite E. cbn [negb].
      by rewrite <- app_assoc.
Qed.

Lemma nonspace_pack (max_chunk_size : Z) (sentences : list text) : forall temp_chunk,
  nonspace (concat (pack max_chunk_size temp_chunk sentences))
  = nonspace temp_chunk ++ nonspace (concat sentences).
Proof.
  induction sentences as [|s rest IH]; intros temp_chunk; cbn [pack].
  - cbn [concat]. rewrite app_nil_r. destruct (blank temp_chunk) eqn:E.
    + apply blank_iff in E. by rewrite E.
    + cbn [concat]. by rewrite app_nil_r, nonspace_strip.
  - cbn [concat]. rewrite (nonspace_app s).
    destruct (len temp_chunk + len s <=? max_chunk_size)%Z.
    + rewrite IH, !nonspace_app. cbn. by rewrite app_nil_r, <- app_assoc.
    + cbn [concat]. rewrite nonspace_app, nonspace_strip, IH, nonspace_app.
      cbn. by rewrite app_nil_r.
Qed.

Lemma nonspace_chunk_paragraph (max_chunk_size : Z) (p : text) :
  nonspace (concat (chunk_paragraph max_chunk_size p)) = nonspace p.
Proof.
  unfold chunk_paragraph. destruct (len p <=? max_chunk_size)%Z.
  - cbn [concat]. by rewrite app_nil_r.
  - rewrite nonspace_pack. unfold re_split_ws.
    by rewrite nonspace_re_split_ws_from.
Qed.

(** X27: [semantic_chunk_text] loses no text: the chunks it returns, read
    one after the other, hold the characters of the input that are not
    whitespace, all of them and in the same order, whatever the size
    limit. *)
Theorem semantic_chunk_text_loses_no_text (t : text) (max_chunk_size : Z) :
  nonspace (concat (semantic_chunk_text t max_chunk_size)) = nonspace t.
Proof.
  unfold semantic_chunk_text. rewrite <- (nonspace_paragraphs t).
  induction (paragraphs t) as [|p ps IH]; [done|].
  cbn [flat_map concat].
  by rewrite concat_app, !nonspace_app, nonspace_chunk_paragraph, IH.
Qed.

(** ** The size of the chunks *)

Lemma rstrip_snoc_space (x : text) : rstrip (x ++ txt " ") = rstrip x.
Proof. unfold rstrip. by rewrite rev_app_distr. Qed.

Lemma strip_snoc_space_length (x : text) : length (strip (x ++ txt " ")) <= length x.
Proof.
  unfold strip. rewrite rstrip_snoc_space.
  etransitivity; [apply lstrip_length|].
  unfold rstrip. rewrite length_rev.
  etransitivity; [apply lstrip_length|]. by rewrite length_rev.
Qed.

(** The chunk being filled holds sentences that fit together with the
    space after them. *)
Definition fits (max_chunk_size : Z) (temp_chunk : text) : Prop :=
  temp_chunk = [] \/ exists x, temp_chunk = x ++ txt " " /\ (len x <= max_chunk_size)%Z.

(** A chunk that is one sentence longer than the limit. *)
Definition lone_sentence (max_chunk_size : Z) (sentences : list text) (c : text)
    : Prop :=
  exists s, In s sentences /\ (len s > max_chunk_size)%Z /\ c = strip (s ++ txt " ").

Definition bounded (max_chunk_size : Z) (sentences : list text) (c : text) : Prop :=
  (len c <= max_chunk_size)%Z \/ lone_sentence max_chunk_size sentences c.

Lemma pack_bounded (max_chunk_size : Z) (all : list text) :
  (0 <= max_chunk_size)%Z ->
  forall sentences temp_chunk,
    incl sentences all ->
    fits max_chunk_size temp_chunk
    \/ (exists s, In s all /\ (len s > max_chunk_size)%Z /\ temp_chunk = s ++ txt " ") ->
    Forall (bounded max_chunk_size all) (pack max_chunk_size temp_chunk sentences).
Proof.
  intros Hmax.
  assert (forall temp_chunk,
            fits max_chunk_size temp_chunk
            \/ (exists s, In s all /\ (len s > max_chunk_size)%Z
                          /\ temp_chunk = s ++ txt " ") ->
            bounded max_chunk_size all (strip temp_chunk)) as Hflush.
  { intros temp_chunk [[->|(x & -> & Hx)]|(s & Hin & Hlong & ->)].
    - left. exact Hmax.
    - left. pose proof (strip_snoc_space_length x). unfold len in *. lia.
    - right. by exists s. }
  induction sentences as [|s rest IH]; intros temp_chunk Hincl Htemp; cbn [pack].
  - destruct (blank temp_chunk); constructor; [by apply Hflush|constructor].
  - assert (incl rest all) as Hrest by (intros x Hx; apply Hincl; by right).
    destruct (len temp_chunk + len s <=? max_chunk_size)%Z eqn:E.
    + apply IH; [done|]. left. right. exists (temp_chunk ++ s).
      split; [by rewrite <- app_assoc|].
      apply Z.leb_le in E. unfold len in *. rewrite length_app. lia.
    + constructor; [by apply Hflush|]. apply IH; [done|].
      destruct (Z.leb_spec (len s) max_chunk_size) as [Hs|Hs].
      * left. right. by exists s.
      * right. exists s. split; [apply Hincl; by left|]. split; [lia|done].
Qed.

(** X28: with a size limit that is not negative, every chunk that
    [semantic_chunk_text] returns is at most [max_chunk_size] characters
    long, unless it is one sentence of a paragraph on its own, a sentence
    that is itself longer than the limit and is not split further. *)
Theorem semantic_chunk_text_bound (t : text) (max_chunk_size : Z) :
  (0 <= max_chunk_size)%Z ->
  Forall (fun c =>
            (len c <= max_chunk_size)%Z
            \/ exists p s, In p (paragraphs t) /\ In s (re_split_ws p)
                           /\ (len s > max_chunk_size)%Z
                           /\ c = strip (s ++ txt " "))
         (semantic_chunk_text t max_chunk_size).
Proof.
  intros Hmax. unfold semantic_chunk_text.
  apply List.Forall_forall. intros c Hin.
  apply in_flat_map in Hin as (p & Hp & Hc).
  unfold chunk_paragraph in Hc.
  destruct (Z.leb_spec (len p) max_chunk_size) as [Hfit|Hlong].
  - destruct Hc as [<-|[]]. by left.
  - pose proof (pack_bounded max_chunk_size (re_split_ws p) Hmax
                  (re_split_ws p) [] (incl_refl _) (or_introl (or_introl eq_refl)))
      as Hall.
    destruct (proj1 (List.Forall_forall _ _) Hall c Hc) as [Hle|(s & Hs & Hlen & ->)].
    + by left.
    + right. by exists p, s.
Qed.

(** ** The empty chunk *)

Lemma re_split_ws_from_piece_length (s : text) : forall sep punct acc,
  Forall (fun piece => length piece <= length acc + length s)
         (re_split_ws_from sep punct acc s).
Proof.
  induction s as [|c s IH]; intros sep punct acc; cbn [re_split_ws_from].
  - constructor; [|constructor]. rewrite length_rev. simpl. lia.
  - assert (forall sep' punct' acc', length acc' <= S (length acc) ->
              Forall (fun piece => length piece <= length acc + length (c :: s))
                     (re_split_ws_from sep' punct' acc' s)) as Hnext.
    { intros sep' punct' acc' Hacc.
      eapply List.Forall_impl; [|apply IH]. intros piece Hpiece.
      cbn [length] in *. lia. }
    destruct (py_isspace c); [destruct sep; [|destruct punct]|].
    + apply Hnext. simpl. lia.
    + constructor; [rewrite length_rev; simpl; lia|]. apply Hnext. simpl. lia.
    + apply Hnext. simpl. lia.
    + apply Hnext. simpl. lia.
Qed.

(** X29: when the first sentence of the first paragraph is longer than
    [max_chunk_size], the first chunk that [semantic_chunk_text] returns
    is the empty string: the loop appends the chunk it has not yet put
    anything into. *)
Theorem semantic_chunk_text_empty_chunk (t : text) (max_chunk_size : Z)
    (p : text) (ps : list text) (s : text) (rest : list text) :
  paragraphs t = p :: ps ->
  re_split_ws p = s :: rest ->
  (len s > max_chunk_size)%Z ->
  exists chunks, semantic_chunk_text t max_chunk_size = [] :: chunks.
Proof.
  intros Hp Hs Hlong. unfold semantic_chunk_text. rewrite Hp.
  cbn [flat_map]. unfold chunk_paragraph.
  pose proof (re_split_ws_from_piece_length p false false []) as Hpieces.
  fold (re_split_ws p) in Hpieces. rewrite Hs in Hpieces.
  apply Forall_inv in Hpieces. cbn [length] in Hpieces.
  destruct (Z.leb_spec (len p) max_chunk_size) as [Hfit|_].
  { unfold len in *. lia. }
  rewrite Hs. cbn [pack].
  destruct (Z.leb_spec (len [] + len s) max_chunk_size) as [Hfit|_].
  { unfold len in *. cbn [length] in Hfit. lia. }
  eexists. reflexivity.
Qed.

(** ** Concrete runs *)

Example two_paragraphs :
  semantic_chunk_text (txt "One. Two.

Three.") 600 = [txt "One. Two."; txt "Three."].
Proof. vm_compute. reflexivity. Qed.

Example long_first_sentence :
  semantic_chunk_text (txt "aaaaaaaa. bb.") 5 = [[]; txt "aaaaaaaa."; txt "bb."].
Proof. vm_compute. reflexivity. Qed.

Lemma semantic_chunk_text_bound_witness :
  Forall (fun c =>
            (len c <= 5)%Z
            \/ exists p s, In p (paragraphs (txt "aaaaaaaa. bb."))
                           /\ In s (re_split_ws p)
                           /\ (len s > 5)%Z
                           /\ c = strip (s ++ txt " "))
         (semantic_chunk_text (txt "aaaaaaaa. bb.") 5).
Proof.
  apply (semantic_chunk_text_bound (txt "aaaaaaaa. bb.") 5%Z).
  discriminate.
Defined.

Lemma semantic_chunk_text_empty_chunk_witness :
  exists chunks, semantic_chunk_text (txt "aaaaaaaa. bb.") 5 = [] :: chunks.
Proof.
  apply (semantic_chunk_text_empty_chunk (txt "aaaaaaaa. bb.") 5%Z
           (txt "aaaaaaaa. bb.") [] (txt "aaaaaaaa.") [txt "bb."]).
  - vm_compute. reflexivity.
  - vm_compute. reflexivity.
  - reflexivity.
Defined.

End TextIngest.
